(** * ResourcesManager: a shallow embedding and its properties

    The development follows [ResourcesManager.cpp]: path utilities, the
    record store with its language and category overlays, the directory
    and archive indexers, the resolver [findFileRecord], and the table of
    open streams.  Strings are sequences of 8-bit characters.  The
    [std::map]s are finite maps, read in the order of their keys where
    the code iterates over them; [std::set<std::string>] is a finite set;
    the set of candidates, ordered by a comparison of the code's own, is
    the sequence its iteration yields.  The calls into the file system,
    minizip, the allocator and [arc4random] read their answers from an
    explicit [World] or from an argument, and the backend resources a
    call acquires and releases are listed as [event]s.  Tracing, which
    only writes to the standard output, is left out. *)

From Stdlib Require Import ZArith Ascii String.
From stdpp Require Import base gmap sets list strings sorting.

Open Scope Z_scope.

(** ** Machine integers *)

(** The width of [size_t]; [int] is 32 bits wide on every target of the
    code. *)
Class ABI := { size_t_bits : positive }.

Definition size_max `{ABI} : Z := 2 ^ Z.pos size_t_bits - 1.

(** Conversion of an integer value to [size_t]. *)
Definition to_size_t `{ABI} (z : Z) : Z := z mod 2 ^ Z.pos size_t_bits.

(** Conversion of an integer value to [int]. *)
Definition to_int (z : Z) : Z := (z + 2 ^ 31) mod 2 ^ 32 - 2 ^ 31.

(** ** Path utilities *)

Module Path.

Definition is_sep (c : ascii) : bool :=
  (Ascii.eqb c "/" || Ascii.eqb c "\")%char.

(** [::tolower] in the "C" locale. *)
Definition tolower (c : ascii) : ascii :=
  let n := N_of_ascii c in
  if ((65 <=? n) && (n <=? 90))%N then ascii_of_N (n + 32) else c.

Fixpoint transform (f : ascii → ascii) (s : string) : string :=
  match s with
  | EmptyString => EmptyString
  | String c r => String (f c) (transform f r)
  end.

(** [std::replace(begin, end, from, to)]. *)
Definition replace_char (from to : ascii) (s : string) : string :=
  transform (λ c, if Ascii.eqb c from then to else c) s.

(** [basename]: what follows the last '/' or '\', the whole path when
    there is none.  [acc] is the text after the last separator seen. *)
Fixpoint basename_from (acc s : string) : string :=
  match s with
  | EmptyString => acc
  | String c r => if is_sep c then basename_from r r else basename_from acc r
  end.

Definition basename (path : string) : string := basename_from path path.

Fixpoint drop_last (s : string) : string :=
  match s with
  | EmptyString => EmptyString
  | String c EmptyString => EmptyString
  | String c r => String c (drop_last r)
  end.

(** [combine]: every non-empty component followed by "/", the last
    character of the result removed. *)
Definition combine_out (l : list string) : string :=
  fold_left
    (λ out c, if String.eqb c "" then out else out +:+ c +:+ "/") l "".

Definition combine (l : list string) : string :=
  let outString := combine_out l in
  if (String.length outString =? 0)%nat then outString
  else drop_last outString.

(** [replaceAll] scans from the left: at an occurrence of [search] it
    writes [replace] and resumes behind the occurrence, so the text it
    wrote is not searched again.  [skip] counts the characters of the
    current occurrence still to be erased.  The loop of the source does
    not end when [search] is empty; every caller passes a non-empty
    [search], and the model returns the string as it is otherwise. *)
Fixpoint replaceAll_from (search replace : string) (skip : nat) (s : string)
  : string :=
  match s with
  | EmptyString => EmptyString
  | String c r =>
      match skip with
      | S k => replaceAll_from search replace k r
      | O =>
          if String.prefix search s
          then replace +:+
               replaceAll_from search replace (String.length search - 1) r
          else String c (replaceAll_from search replace 0 r)
      end
  end.

Definition replaceAll (s search replace : string) : string :=
  if String.eqb search "" then s else replaceAll_from search replace 0 s.

(** [getFileSize]: the size [stat] reports, or -1 when [stat] fails. *)
Definition getFileSize (st : option Z) : Z :=
  match st with Some st_size => st_size | None => -1 end.

(** The separator normalisation at the end of [makeKey]. *)
Definition normalize (key : string) : string :=
  replace_char "\" "/" (replaceAll key "\\" "/").

(** [s[s.size()-1] == '/']; the source reads past an empty string, for
    which the model answers no. *)
Definition ends_with_slash (s : string) : bool :=
  match String.get (String.length s - 1) s with
  | Some c => Ascii.eqb c "/"
  | None => false
  end.

(** [s.find(sub) != npos]. *)
Fixpoint contains (sub s : string) : bool :=
  String.prefix sub s ||
  match s with
  | EmptyString => false
  | String _ r => contains sub r
  end.

(** [s.substr(n)] for [n] within the string. *)
Fixpoint substr_from (n : nat) (s : string) : string :=
  match n, s with
  | O, _ => s
  | S k, EmptyString => EmptyString
  | S k, String _ r => substr_from k r
  end.

(** [removeExtension]: the text before the last '.', the whole name when
    it has none. *)
Fixpoint has_dot (s : string) : bool :=
  match s with
  | EmptyString => false
  | String c r => Ascii.eqb c "." || has_dot r
  end.

Fixpoint removeExtension (filename : string) : string :=
  match filename with
  | EmptyString => EmptyString
  | String c r =>
      if has_dot r then String c (removeExtension r)
      else if Ascii.eqb c "." then EmptyString
      else String c r
  end.

(** [getRootFolder]: the text before the first '/' or '\', the whole path
    when it has none. *)
Fixpoint getRootFolder (filePath : string) : string :=
  match filePath with
  | EmptyString => EmptyString
  | String c r => if is_sep c then EmptyString else String c (getRootFolder r)
  end.

End Path.


Import Path.

(** ** Data model *)

Inductive FileType := RegularFile | CompressedFile | StoredFile.

Record unz_file_pos := { pos_in_zip_directory : Z; num_of_file : Z }.

Record FileRecord := {
  filename : string;
  fileType : FileType;
  size : Z;
  languageId : string;
  category : string;
  filePath : string;
  relativePath : string;
  zipFilePath : string;
  zipFilePos : unz_file_pos
}.

(** A [FILE*] open for reading: what the file holds and the offset of the
    next read. *)
Record FILE := { f_path : string; f_content : list Byte.byte; f_offset : Z }.

(** A [unzFile] with an entry opened by [unzOpenCurrentFile]: the
    uncompressed bytes of the entry that are still to be read. *)
Record unzFile := { zf_path : string; zf_rest : list Byte.byte }.

(** The code's [StreamRecord] holds a pointer to a record of the
    store; [fileRecord] is the record it pointed to when the stream was
    opened.  The two are the same for as long as the store is left
    alone ([session] below).  After [reset] or an indexing call the
    pointer can dangle and the code's calls on the handle are
    undefined: there the model, which goes on with the record as it
    was, describes no run of the code. *)
Record StreamRecord := {
  fileRecord : FileRecord;
  randomValue : Z;
  file : option FILE;
  zipFile : option unzFile
}.

(** [ResourcesManagerImpl].  Its field [languageId] is [currentLanguageId]
    here, [FileRecord] having a field of that name. *)
Record Impl := {
  enableTrace : bool;
  rootFoldersList : list string;
  filenameToRecordMap : gmap string (list FileRecord);
  currentLanguageId : string;
  relativeFolderToLanguageIdMap : gmap string string;
  relativeFolderToCategoryMap : gmap string string;
  enabledCategories : gset string;
  openStreams : gmap Z StreamRecord;
  searchByRelativePaths : bool;
  searchRootsList : list string
}.

Definition with_records (m : gmap string (list FileRecord)) (s : Impl) : Impl :=
  {| enableTrace := enableTrace s;
     rootFoldersList := rootFoldersList s;
     filenameToRecordMap := m;
     currentLanguageId := currentLanguageId s;
     relativeFolderToLanguageIdMap := relativeFolderToLanguageIdMap s;
     relativeFolderToCategoryMap := relativeFolderToCategoryMap s;
     enabledCategories := enabledCategories s;
     openStreams := openStreams s;
     searchByRelativePaths := searchByRelativePaths s;
     searchRootsList := searchRootsList s |}.

Definition with_streams (m : gmap Z StreamRecord) (s : Impl) : Impl :=
  {| enableTrace := enableTrace s;
     rootFoldersList := rootFoldersList s;
     filenameToRecordMap := filenameToRecordMap s;
     currentLanguageId := currentLanguageId s;
     relativeFolderToLanguageIdMap := relativeFolderToLanguageIdMap s;
     relativeFolderToCategoryMap := relativeFolderToCategoryMap s;
     enabledCategories := enabledCategories s;
     openStreams := m;
     searchByRelativePaths := searchByRelativePaths s;
     searchRootsList := searchRootsList s |}.

Definition with_categories (c : gset string) (s : Impl) : Impl :=
  {| enableTrace := enableTrace s;
     rootFoldersList := rootFoldersList s;
     filenameToRecordMap := filenameToRecordMap s;
     currentLanguageId := currentLanguageId s;
     relativeFolderToLanguageIdMap := relativeFolderToLanguageIdMap s;
     relativeFolderToCategoryMap := relativeFolderToCategoryMap s;
     enabledCategories := c;
     openStreams := openStreams s;
     searchByRelativePaths := searchByRelativePaths s;
     searchRootsList := searchRootsList s |}.

Definition with_rootFolders (l : list string) (s : Impl) : Impl :=
  {| enableTrace := enableTrace s;
     rootFoldersList := l;
     filenameToRecordMap := filenameToRecordMap s;
     currentLanguageId := currentLanguageId s;
     relativeFolderToLanguageIdMap := relativeFolderToLanguageIdMap s;
     relativeFolderToCategoryMap := relativeFolderToCategoryMap s;
     enabledCategories := enabledCategories s;
     openStreams := openStreams s;
     searchByRelativePaths := searchByRelativePaths s;
     searchRootsList := searchRootsList s |}.

(** ** The world outside the manager *)

(** What [readdir] yields: a directory with the result of [opendir] on it
    ([None] when it cannot be opened), or any other entry with the result
    of [stat] on it ([None] when [stat] fails). *)
#[local] Unset Elimination Schemes.
Inductive dirent :=
| DT_DIR (d_name : string) (dp : option (list dirent))
| DT_REG (d_name : string) (st_size : option Z).
#[local] Set Elimination Schemes.

(** An entry of a zip archive as minizip reports it.  [z_filePos] is what
    [unzGetFilePos] answers ([None]: an error code), [z_opens] whether
    [unzOpenCurrentFile] succeeds on the entry. *)
Record zentry := {
  z_name : string;
  z_uncompressed_size : Z;
  z_filePos : option unz_file_pos;
  z_opens : bool;
  z_data : list Byte.byte
}.

(** The entry list as [unzGoToFirstFile2] and [unzGoToNextFile2] walk it:
    it ends with [UNZ_END_OF_LIST_OF_FILE] ([ZEnd]) or with an error code
    ([ZError]).  Entry names are free of NUL and shorter than the 1024
    bytes of the buffer they are copied to. *)
Inductive zlist :=
| ZEnd
| ZError
| ZNext (e : zentry) (rest : zlist).

(** The answers of the collaborators: [opendir] on a root folder, [fopen]
    for reading, [unzOpen], and whether [new char[n]] finds the memory. *)
Record World := {
  opendir : string → option (list dirent);
  fopen : string → option (list Byte.byte);
  unzOpen : string → option zlist;
  operator_new : Z → bool
}.

(** Backend resources acquired and released by a call, in order. *)
Inductive event :=
| EvNew (n : Z)
| EvFopen (path : string)
| EvFclose (path : string)
| EvUnzOpen (path : string)
| EvUnzOpenCurrentFile (path : string)
| EvUnzCloseCurrentFile (path : string)
| EvUnzClose (path : string).

(** A call returns a value or leaves by [throw std::exception()]. *)
Inductive outcome (A : Type) :=
| Returns (a : A)
| Throws.
Arguments Returns {A} a.
Arguments Throws {A}.

(** ** ResourcesManagerImpl *)

Module ResourcesManagerImpl.

Definition makeKey (s : Impl) (filename : string) : string :=
  let key := if searchByRelativePaths s then filename else basename filename in
  normalize (transform tolower key).

(** [filenameToRecordMap[key].push_back(fileRecord)]. *)
Definition store_push (m : gmap string (list FileRecord))
    (entry : string * FileRecord) : gmap string (list FileRecord) :=
  <[entry.1 := default [] (m !! entry.1) ++ [entry.2]]> m.

Definition push_back (key : string) (fileRecord : FileRecord) (s : Impl)
  : Impl :=
  with_records (store_push (filenameToRecordMap s) (key, fileRecord)) s.

(** [ep->d_name[0] == '.'] *)
Definition hidden (d_name : string) : bool :=
  match d_name with
  | String c _ => Ascii.eqb c "."
  | EmptyString => false
  end.

(** The fields a default-constructed [FileRecord] is left with where
    the indexers assign nothing. *)
Definition no_zipFilePos : unz_file_pos :=
  {| pos_in_zip_directory := 0; num_of_file := 0 |}.

Section AddFolder.
Context `{ABI}.
Variable rootFolder : string.

(** The body of the [readdir] loop of [addFolderRecursive] for one
    entry [ep]; the recursive call on a directory runs the loop over
    its entries, or returns at once when [opendir] fails. *)
Fixpoint addFolderEntry
    (relativeFolder relativeFolderInMap languageId category : string)
    (ep : dirent) (s : Impl) {struct ep} : Impl :=
  match ep with
  | DT_DIR d_name dp =>
      if hidden d_name then s else
      let newRelativeFolder := combine [relativeFolder; d_name] in
      let newLanguageId :=
        match relativeFolderToLanguageIdMap s !! newRelativeFolder with
        | Some found => found
        | None => languageId
        end in
      let newCategory :=
        match relativeFolderToCategoryMap s !! d_name with
        | Some found => found
        | None => category
        end in
      let newRelativeFolderInMap :=
        match relativeFolderToCategoryMap s !! d_name with
        | Some _ => relativeFolderInMap
        | None => combine [relativeFolderInMap; d_name]
        end in
      match dp with
      | None => s
      | Some entries =>
          fold_left
            (λ s' ep',
               addFolderEntry newRelativeFolder newRelativeFolderInMap
                 newLanguageId newCategory ep' s')
            entries s
      end
  | DT_REG d_name st =>
      if hidden d_name then s else
      let relPath := combine [relativeFolder; d_name] in
      let fileRecord :=
        {| filename := d_name;
           fileType := RegularFile;
           relativePath := relPath;
           filePath := combine [rootFolder; relPath];
           size := to_size_t (getFileSize st);
           languageId := languageId;
           category := category;
           zipFilePath := "";
           zipFilePos := no_zipFilePos |} in
      let key := makeKey s (combine [relativeFolderInMap; d_name]) in
      push_back key fileRecord s
  end.

Definition addFolderRecursive (dp : option (list dirent))
    (relativeFolder relativeFolderInMap languageId category : string)
    (s : Impl) : Impl :=
  match dp with
  | None => s
  | Some entries =>
      fold_left
        (λ s' ep,
           addFolderEntry relativeFolder relativeFolderInMap languageId
             category ep s')
        entries s
  end.
End AddFolder.

(** *** The resolver *)

(** [a > b] on [std::string]. *)
Definition string_gt (a b : string) : bool := String.ltb b a.

(** The comparison the candidate set is built with. *)
Definition candidate_before (rec1 rec2 : FileRecord) : bool :=
  string_gt (category rec1) (category rec2) ||
  string_gt (languageId rec1) (languageId rec2).

(** [candidatesList.insert]: the set is kept as the sequence its
    iteration yields, [begin()] first.  The new element is tested
    against an element from both sides, as the descent of the search
    tree does at a node: it goes before it, or behind it, or it is
    taken for present and dropped.  The tree tests the new element
    against the nodes on one path from its root; the model tests it
    against the elements in iteration order.  The two agree on a set
    of at most one element, and wherever the comparison is a strict
    weak order on the elements inserted, as it is on candidates of one
    language.  For three or more candidates under a comparison that is
    none, the order is that of the library's tree, which the model does
    not follow: the statements that name the record returned are made
    for two candidates or for candidates of one language, the others
    speak of membership only. *)
Fixpoint set_insert (before : FileRecord → FileRecord → bool)
    (x : FileRecord) (l : list FileRecord) : list FileRecord :=
  match l with
  | [] => [x]
  | y :: l' =>
      if before x y then x :: y :: l'
      else if before y x then y :: set_insert before x l'
      else y :: l'
  end.

(** The test a record has to pass to enter the candidate set. *)
Definition admissible (s : Impl) (fileRecord : FileRecord) : bool :=
  (String.eqb (currentLanguageId s) "" ||
   String.eqb (languageId fileRecord) (currentLanguageId s)) &&
  (String.eqb (category fileRecord) "" ||
   bool_decide (category fileRecord ∈ enabledCategories s)).

(** The inner loop of [findFileRecord]: the records stored under one
    key are offered to the candidate set in their stored order. *)
Definition collect (s : Impl) (records candidatesList : list FileRecord)
  : list FileRecord :=
  fold_left
    (λ cands fileRecord,
       if admissible s fileRecord
       then set_insert candidate_before fileRecord cands
       else cands)
    records candidatesList.

(** The loop over [searchRootsList]; it ends at the first search root
    that leaves the candidate set non-empty. *)
Fixpoint search (s : Impl) (key : string) (searchRoots : list string)
    (candidatesList : list FileRecord) : list FileRecord :=
  match searchRoots with
  | [] => candidatesList
  | searchRoot :: rest =>
      match filenameToRecordMap s !! makeKey s (combine [searchRoot; key]) with
      | None => search s key rest candidatesList
      | Some [] => search s key rest candidatesList
      | Some records =>
          let candidatesList' := collect s records candidatesList in
          match candidatesList' with
          | [] => search s key rest candidatesList'
          | _ :: _ => candidatesList'
          end
      end
  end.

Definition findFileRecord (s : Impl) (filename : string)
  : option FileRecord :=
  let key := makeKey s filename in
  head (search s key (searchRootsList s) []).

Definition getStreamRecord (s : Impl) (handle : Z) : option StreamRecord :=
  openStreams s !! handle.

End ResourcesManagerImpl.

(** ** ResourcesManager *)

Module ResourcesManager.
Import ResourcesManagerImpl.

(** *** Configuration methods *)

Definition reset (s : Impl) : Impl :=
  {| enableTrace := false;
     rootFoldersList := [];
     filenameToRecordMap := ∅;
     currentLanguageId := "";
     relativeFolderToLanguageIdMap := ∅;
     relativeFolderToCategoryMap := ∅;
     enabledCategories := ∅;
     openStreams := openStreams s;
     searchByRelativePaths := false;
     searchRootsList := [""] |}.

(** The constructor: a value-initialised [ResourcesManagerImpl], then
    [reset()]. *)
Definition constructed : Impl :=
  reset
    {| enableTrace := false;
       rootFoldersList := [];
       filenameToRecordMap := ∅;
       currentLanguageId := "";
       relativeFolderToLanguageIdMap := ∅;
       relativeFolderToCategoryMap := ∅;
       enabledCategories := ∅;
       openStreams := ∅;
       searchByRelativePaths := false;
       searchRootsList := [] |}.

Definition setEnableTrace (enable : bool) (s : Impl) : Impl :=
  {| enableTrace := enable;
     rootFoldersList := rootFoldersList s;
     filenameToRecordMap := filenameToRecordMap s;
     currentLanguageId := currentLanguageId s;
     relativeFolderToLanguageIdMap := relativeFolderToLanguageIdMap s;
     relativeFolderToCategoryMap := relativeFolderToCategoryMap s;
     enabledCategories := enabledCategories s;
     openStreams := openStreams s;
     searchByRelativePaths := searchByRelativePaths s;
     searchRootsList := searchRootsList s |}.

Definition addRootFolder `{ABI} (w : World) (rootFolder : string) (s : Impl)
  : Impl :=
  let s1 := with_rootFolders (rootFoldersList s ++ [rootFolder]) s in
  addFolderRecursive rootFolder (opendir w (combine [rootFolder; ""]))
    "" "" "" "" s1.

Definition addLanguageFolder (languageId languageFolder : string) (s : Impl)
  : Impl :=
  {| enableTrace := enableTrace s;
     rootFoldersList := rootFoldersList s;
     filenameToRecordMap := filenameToRecordMap s;
     currentLanguageId := currentLanguageId s;
     relativeFolderToLanguageIdMap :=
       <[languageFolder := languageId]> (relativeFolderToLanguageIdMap s);
     relativeFolderToCategoryMap := relativeFolderToCategoryMap s;
     enabledCategories := enabledCategories s;
     openStreams := openStreams s;
     searchByRelativePaths := searchByRelativePaths s;
     searchRootsList := searchRootsList s |}.

Definition setCurrentLanguage (languageId : string) (s : Impl) : Impl :=
  {| enableTrace := enableTrace s;
     rootFoldersList := rootFoldersList s;
     filenameToRecordMap := filenameToRecordMap s;
     currentLanguageId := languageId;
     relativeFolderToLanguageIdMap := relativeFolderToLanguageIdMap s;
     relativeFolderToCategoryMap := relativeFolderToCategoryMap s;
     enabledCategories := enabledCategories s;
     openStreams := openStreams s;
     searchByRelativePaths := searchByRelativePaths s;
     searchRootsList := searchRootsList s |}.

Definition addCategoryFolder (category categoryFolder : string) (s : Impl)
  : Impl :=
  {| enableTrace := enableTrace s;
     rootFoldersList := rootFoldersList s;
     filenameToRecordMap := filenameToRecordMap s;
     currentLanguageId := currentLanguageId s;
     relativeFolderToLanguageIdMap := relativeFolderToLanguageIdMap s;
     relativeFolderToCategoryMap :=
       <[categoryFolder := category]> (relativeFolderToCategoryMap s);
     enabledCategories := enabledCategories s;
     openStreams := openStreams s;
     searchByRelativePaths := searchByRelativePaths s;
     searchRootsList := searchRootsList s |}.

Definition enableCategory (category : string) (s : Impl) : Impl :=
  with_categories ({[category]} ∪ enabledCategories s) s.

Definition disableCategory (category : string) (s : Impl) : Impl :=
  with_categories (enabledCategories s ∖ {[category]}) s.

Definition setSearchByRelativePaths (flag : bool) (s : Impl) : Impl :=
  {| enableTrace := enableTrace s;
     rootFoldersList := rootFoldersList s;
     filenameToRecordMap := filenameToRecordMap s;
     currentLanguageId := currentLanguageId s;
     relativeFolderToLanguageIdMap := relativeFolderToLanguageIdMap s;
     relativeFolderToCategoryMap := relativeFolderToCategoryMap s;
     enabledCategories := enabledCategories s;
     openStreams := openStreams s;
     searchByRelativePaths := flag;
     searchRootsList := searchRootsList s |}.

Definition addSearchRoot (searchRoot : string) (s : Impl) : Impl :=
  let canonicalSearchRoot := replaceAll searchRoot "\\" "/" in
  {| enableTrace := enableTrace s;
     rootFoldersList := rootFoldersList s;
     filenameToRecordMap := filenameToRecordMap s;
     currentLanguageId := currentLanguageId s;
     relativeFolderToLanguageIdMap := relativeFolderToLanguageIdMap s;
     relativeFolderToCategoryMap := relativeFolderToCategoryMap s;
     enabledCategories := enabledCategories s;
     openStreams := openStreams s;
     searchByRelativePaths := searchByRelativePaths s;
     searchRootsList := searchRootsList s ++ [canonicalSearchRoot] |}.

(** *** Zip archives *)

(** A [std::map<std::string, std::string>] as its iteration yields it:
    in the order of its keys. *)
Definition in_key_order (m : gmap string string) : list (string * string) :=
  merge_sort (λ a b, Is_true (String.leb a.1 b.1)) (map_to_list m).

(** The language an archive entry is stamped with: that of the last
    language folder, in key order, whose path under [rootFolder] starts
    the entry name. *)
Definition archiveLanguageId (s : Impl) (rootFolder filePathString : string)
  : string :=
  fold_left
    (λ languageId folderLanguagePair,
       let pathPrefix := combine [rootFolder; folderLanguagePair.1] in
       if String.prefix pathPrefix filePathString
       then folderLanguagePair.2 else languageId)
    (in_key_order (relativeFolderToLanguageIdMap s)) "".

(** The category of an archive entry and its path in the map: every
    category folder followed by "/" that occurs in the entry name sets
    the category and is erased from the path. *)
Definition archiveCategory (s : Impl) (filePathString relativePath : string)
  : string * string :=
  fold_left
    (λ acc folderCategoryPair,
       let pathComponentToSearch := folderCategoryPair.1 +:+ "/" in
       if contains pathComponentToSearch filePathString
       then (folderCategoryPair.2,
             replaceAll acc.2 pathComponentToSearch "")
       else acc)
    (in_key_order (relativeFolderToCategoryMap s)) ("", relativePath).

Section AddArchive.
Context `{ABI}.
Variables archivePath rootFolder : string.

Definition shouldAddRecord (filePathString : string) : bool :=
  let slashEndedRootFolder := rootFolder +:+ "/" in
  negb (ends_with_slash filePathString ||
        (negb (String.eqb rootFolder "") &&
         negb (String.prefix slashEndedRootFolder filePathString))).

(** The record of an accepted entry and the key it is stored under. *)
Definition archiveRecord (s : Impl) (e : zentry) (zipFilePos : unz_file_pos)
  : string * FileRecord :=
  let filePathString := z_name e in
  let slashEndedRootFolder := rootFolder +:+ "/" in
  let rootFolderRelativePath :=
    if String.eqb rootFolder "" then filePathString
    else substr_from (String.length slashEndedRootFolder) filePathString in
  let category_path :=
    archiveCategory s filePathString rootFolderRelativePath in
  (makeKey s category_path.2,
   {| filename := filePathString;
      relativePath := rootFolderRelativePath;
      fileType := CompressedFile;
      size := to_size_t (z_uncompressed_size e);
      zipFilePath := archivePath;
      zipFilePos := zipFilePos;
      languageId := archiveLanguageId s rootFolder filePathString;
      category := category_path.1;
      filePath := "" |}).

(** The [do ... while] loop, entered at the entry [e] with [rest]
    behind it. *)
Fixpoint enumerate (e : zentry) (rest : zlist) (s : Impl) {struct rest}
  : outcome unit * Impl :=
  match z_filePos e with
  | None => (Throws, s)
  | Some zipFilePos =>
      match filenameToRecordMap s !! z_name e with
      | Some _ => (Throws, s)
      | None =>
          let s' :=
            if shouldAddRecord (z_name e)
            then let kr := archiveRecord s e zipFilePos in
                 push_back kr.1 kr.2 s
            else s in
          match rest with
          | ZEnd => (Returns (), s')
          | ZError => (Throws, s')
          | ZNext e' rest' => enumerate e' rest' s'
          end
      end
  end.

(** [addArchive].  The [zipFile] the handler tests is the one declared
    before the [try], which no statement assigns; the handle
    [unzOpen] returns is held by the [zipFile] declared inside. *)
Definition addArchive (w : World) (s : Impl)
  : outcome unit * Impl * list event :=
  let zipFile : option string := None in
  let handler :=
    match zipFile with
    | Some opened => [EvUnzClose opened]
    | None => []
    end in
  match unzOpen w archivePath with
  | None => (Throws, s, handler)
  | Some ZEnd | Some ZError =>
      (Throws, s, EvUnzOpen archivePath :: handler)
  | Some (ZNext e rest) =>
      match enumerate e rest s with
      | (Returns _, s') => (Returns (), s', [EvUnzOpen archivePath])
      | (Throws, s') => (Throws, s', EvUnzOpen archivePath :: handler)
      end
  end.
End AddArchive.

(** *** Queries by file name *)

Definition exists_ (s : Impl) (filename : string) : bool :=
  match findFileRecord s filename with
  | None => false
  | Some _ => true
  end.

Definition getSize (s : Impl) (filename : string) : Z :=
  match findFileRecord s filename with
  | None => 0
  | Some fileRecord => size fileRecord
  end.

(** *** Reading a whole file *)

Definition len (bytes : list Byte.byte) : Z := Z.of_nat (length bytes).

(** The bytes a read of at most [n] bytes takes from [bytes]. *)
Definition read_upto (n : Z) (bytes : list Byte.byte) : list Byte.byte :=
  take (Z.to_nat (Z.min n (len bytes))) bytes.

(** [unzGoToFilePos]: the entry at the position, if the archive has
    one. *)
Fixpoint unzGoToFilePos (entries : zlist) (file_pos : unz_file_pos)
  : option zentry :=
  match entries with
  | ZEnd | ZError => None
  | ZNext e rest =>
      match z_filePos e with
      | Some p =>
          if (pos_in_zip_directory p =? pos_in_zip_directory file_pos) &&
             (num_of_file p =? num_of_file file_pos)
          then Some e else unzGoToFilePos rest file_pos
      | None => unzGoToFilePos rest file_pos
      end
  end.

Section Readers.
Context `{ABI}.
Variable w : World.

(** [fread] is asked for the [size_t] conversion of [size].  For a
    size from 0 to [INT_MAX] that is [size], and the read delivers that
    many bytes or what the file has.  A negative size becomes a count
    beyond every buffer: the call is then outside the defined behaviour
    of [fread], what the definition yields for it describes no run of
    the code, and no statement about the bytes read is made for it. *)
Definition readDataFromRegularFile (filePath : string) (size : Z)
  : Z * list Byte.byte * list event :=
  match fopen w filePath with
  | None => (0, [], [])
  | Some content =>
      let bytes := read_upto (to_size_t size) content in
      (len bytes, bytes, [EvFopen filePath; EvFclose filePath])
  end.

(** As in [addArchive], the handler sees the outer [zipFile] only. *)
Definition readDataFromCompressedFile (fileRecord : FileRecord) (size : Z)
  : outcome (Z * list Byte.byte) * list event :=
  let zipFile : option string := None in
  let handler :=
    match zipFile with
    | Some opened => [EvUnzCloseCurrentFile opened; EvUnzClose opened]
    | None => []
    end in
  let path := zipFilePath fileRecord in
  match unzOpen w path with
  | None => (Throws, handler)
  | Some entries =>
      match unzGoToFilePos entries (zipFilePos fileRecord) with
      | None => (Throws, EvUnzOpen path :: handler)
      | Some e =>
          if z_opens e then
            let bytes := read_upto (size mod 2 ^ 32) (z_data e) in
            let ret := to_int (len bytes) in
            if ret <? 0
            then (Throws,
                  [EvUnzOpen path; EvUnzOpenCurrentFile path] ++ handler)
            else (Returns (to_size_t ret, bytes),
                  [EvUnzOpen path; EvUnzOpenCurrentFile path;
                   EvUnzCloseCurrentFile path; EvUnzClose path])
          else (Throws, EvUnzOpen path :: handler)
      end
  end.

(** [ResourcesManagerImpl::readData]. *)
Definition readRecord (fileRecord : FileRecord) (size : Z)
  : outcome (Z * list Byte.byte) * list event :=
  match fileType fileRecord with
  | RegularFile =>
      let '(n, bytes, evs) :=
        readDataFromRegularFile (filePath fileRecord) size in
      (Returns (n, bytes), evs)
  | CompressedFile => readDataFromCompressedFile fileRecord size
  | StoredFile => (Returns (0, []), [])
  end.

(** [readData(filename, buffer, size)]. *)
Definition readData (s : Impl) (filename : string) (size : Z)
  : outcome (Z * list Byte.byte) * list event :=
  match findFileRecord s filename with
  | None => (Returns (0, []), [])
  | Some fileRecord => readRecord fileRecord size
  end.

(** [readData(filename, pBytesRead)]: the buffer it returns, if any,
    and the count it stores.  The size of the record is passed on to
    the [int size] of [ResourcesManagerImpl::readData]. *)
Definition readDataOwned (s : Impl) (filename : string)
  : outcome (option (list Byte.byte) * Z) * list event :=
  match findFileRecord s filename with
  | None => (Returns (None, 0), [])
  | Some fileRecord =>
      if operator_new w (size fileRecord) then
        match readRecord fileRecord (to_int (size fileRecord)) with
        | (Returns (bytesRead, bytes), evs) =>
            if bytesRead =? size fileRecord
            then (Returns (Some bytes, bytesRead),
                  EvNew (size fileRecord) :: evs)
            else (Throws, EvNew (size fileRecord) :: evs)
        | (Throws, evs) => (Throws, EvNew (size fileRecord) :: evs)
        end
      else (Throws, [EvNew (size fileRecord)])
  end.
End Readers.

(** *** Streams *)

(** [getStream]; [random] is what [arc4random()] returns.  The value of
    the call is the handle of the [Stream] it creates. *)
Definition getStream (w : World) (random : Z) (s : Impl) (filename : string)
  : outcome (option Z) * Impl * list event :=
  match findFileRecord s filename with
  | None => (Returns None, s, [])
  | Some fileRecord =>
      let randomValue := to_int random in
      let insert (streamRecord : StreamRecord) (evs : list event) :=
        match openStreams s !! randomValue with
        | Some _ => (Throws, s, evs)
        | None =>
            (Returns (Some randomValue),
             with_streams (<[randomValue := streamRecord]> (openStreams s)) s,
             evs)
        end in
      match fileType fileRecord with
      | RegularFile =>
          match fopen w (filePath fileRecord) with
          | None => (Returns None, s, [])
          | Some content =>
              insert
                {| fileRecord := fileRecord;
                   randomValue := randomValue;
                   file := Some {| f_path := filePath fileRecord;
                                   f_content := content;
                                   f_offset := 0 |};
                   zipFile := None |}
                [EvFopen (filePath fileRecord)]
          end
      | CompressedFile | StoredFile =>
          let path := zipFilePath fileRecord in
          match unzOpen w path with
          | None => (Throws, s, [])
          | Some entries =>
              match unzGoToFilePos entries (zipFilePos fileRecord) with
              | None => (Throws, s, [EvUnzOpen path])
              | Some e =>
                  if z_opens e then
                    insert
                      {| fileRecord := fileRecord;
                         randomValue := randomValue;
                         file := None;
                         zipFile := Some {| zf_path := path;
                                            zf_rest := z_data e |} |}
                      [EvUnzOpen path; EvUnzOpenCurrentFile path]
                  else (Throws, s, [EvUnzOpen path])
              end
          end
      end
  end.

(** [readData(handle, buffer, size)]: the value returned, the bytes
    stored in the buffer, and the manager with the stream advanced.  As
    for [readDataFromRegularFile], the bytes and the new offset are
    those of the code for a size from 0 to [INT_MAX] only. *)
Definition readDataHandle `{ABI} (s : Impl) (handle : Z) (size : Z)
  : Z * list Byte.byte * Impl :=
  match getStreamRecord s handle with
  | None => (0, [], s)
  | Some streamRecord =>
      match fileType (fileRecord streamRecord) with
      | RegularFile =>
          match file streamRecord with
          | None => (0, [], s)
          | Some f =>
              let start := Z.min (Z.max 0 (f_offset f)) (len (f_content f)) in
              let bytes :=
                read_upto (to_size_t size)
                  (drop (Z.to_nat start) (f_content f)) in
              let ret := to_int (len bytes) in
              let f' := {| f_path := f_path f;
                           f_content := f_content f;
                           f_offset := f_offset f + len bytes |} in
              let streamRecord' :=
                {| fileRecord := fileRecord streamRecord;
                   randomValue := randomValue streamRecord;
                   file := Some f';
                   zipFile := zipFile streamRecord |} in
              (to_size_t ret, bytes,
               with_streams (<[handle := streamRecord']> (openStreams s)) s)
          end
      | CompressedFile | StoredFile =>
          match zipFile streamRecord with
          | None => (0, [], s)
          | Some z =>
              let bytes := read_upto (size mod 2 ^ 32) (zf_rest z) in
              let ret := to_int (len bytes) in
              let z' := {| zf_path := zf_path z;
                           zf_rest := drop (length bytes) (zf_rest z) |} in
              let streamRecord' :=
                {| fileRecord := fileRecord streamRecord;
                   randomValue := randomValue streamRecord;
                   file := file streamRecord;
                   zipFile := Some z' |} in
              (to_size_t ret, bytes,
               with_streams (<[handle := streamRecord']> (openStreams s)) s)
          end
      end
  end.

(** [closeFile(handle)]; [fclose] succeeds with 0. *)
Definition closeFile (s : Impl) (handle : Z) : Z * Impl * list event :=
  match getStreamRecord s handle with
  | None => (0, s, [])
  | Some streamRecord =>
      let evs :=
        match fileType (fileRecord streamRecord) with
        | RegularFile =>
            match file streamRecord with
            | None => []
            | Some f => [EvFclose (f_path f)]
            end
        | CompressedFile | StoredFile =>
            match zipFile streamRecord with
            | None => []
            | Some z => [EvUnzCloseCurrentFile (zf_path z);
                         EvUnzClose (zf_path z)]
            end
        end in
      (0,
       with_streams (delete (randomValue streamRecord) (openStreams s)) s,
       evs)
  end.

(** [fseek]: 0 and the new offset, or -1. *)
Definition fseek (f : FILE) (offset whence : Z) : Z * FILE :=
  let target :=
    if whence =? 0 then Some offset
    else if whence =? 1 then Some (f_offset f + offset)
    else if whence =? 2 then Some (len (f_content f) + offset)
    else None in
  match target with
  | Some t =>
      if t <? 0 then (-1, f)
      else (0, {| f_path := f_path f;
                  f_content := f_content f;
                  f_offset := t |})
  | None => (-1, f)
  end.

Definition seek (s : Impl) (handle offset whence : Z) : outcome Z * Impl :=
  match getStreamRecord s handle with
  | None => (Returns 0, s)
  | Some streamRecord =>
      match fileType (fileRecord streamRecord) with
      | RegularFile =>
          match file streamRecord with
          | None => (Returns 0, s)
          | Some f =>
              let '(ret, f') := fseek f offset whence in
              let streamRecord' :=
                {| fileRecord := fileRecord streamRecord;
                   randomValue := randomValue streamRecord;
                   file := Some f';
                   zipFile := zipFile streamRecord |} in
              (Returns ret,
               with_streams (<[handle := streamRecord']> (openStreams s)) s)
          end
      | CompressedFile | StoredFile => (Throws, s)
      end
  end.

Definition tell (s : Impl) (handle : Z) : outcome Z :=
  match getStreamRecord s handle with
  | None => Returns 0
  | Some streamRecord =>
      match fileType (fileRecord streamRecord) with
      | RegularFile =>
          match file streamRecord with
          | None => Returns 0
          | Some f => Returns (to_int (f_offset f))
          end
      | CompressedFile | StoredFile => Throws
      end
  end.

End ResourcesManager.

(** ** The earlier revision

    [TestFileManager/ResourcesManager.cpp]: no categories, no search
    roots, no streams; keys are lower-case base names, and the resolver
    falls back from the current language to the records of no
    language. *)

Module Legacy.

Record FileRecord := {
  filename : string;
  fileType : FileType;
  size : Z;
  languageId : string;
  filePath : string;
  zipFilePath : string;
  zipFilePos : unz_file_pos
}.

(** [ResourcesManagerImpl]; its field [languageId] is
    [currentLanguageId]. *)
Record Impl := {
  rootFoldersList : list string;
  filenameToRecordMap : gmap string (list FileRecord);
  currentLanguageId : string;
  relativeFolderToLanguageIdMap : gmap string string
}.

Definition with_records (m : gmap string (list FileRecord)) (s : Impl) : Impl :=
  {| rootFoldersList := rootFoldersList s;
     filenameToRecordMap := m;
     currentLanguageId := currentLanguageId s;
     relativeFolderToLanguageIdMap := relativeFolderToLanguageIdMap s |}.

(** [basename] of this revision splits at '/' only. *)
Fixpoint basename_from (acc s : string) : string :=
  match s with
  | EmptyString => acc
  | String c r =>
      if Ascii.eqb c "/" then basename_from r r else basename_from acc r
  end.

Definition basename (path : string) : string := basename_from path path.

(** [getRootFolder] of this revision: the text before the first '/'. *)
Fixpoint getRootFolder (filePath : string) : string :=
  match filePath with
  | EmptyString => EmptyString
  | String c r =>
      if Ascii.eqb c "/" then EmptyString else String c (getRootFolder r)
  end.

Definition getFilenameId (filename : string) : string :=
  transform tolower (basename filename).

Definition reset (s : Impl) : Impl :=
  {| rootFoldersList := [];
     filenameToRecordMap := ∅;
     currentLanguageId := "";
     relativeFolderToLanguageIdMap := ∅ |}.

Definition addLanguageFolder (languageId languageFolder : string) (s : Impl)
  : Impl :=
  {| rootFoldersList := rootFoldersList s;
     filenameToRecordMap := filenameToRecordMap s;
     currentLanguageId := currentLanguageId s;
     relativeFolderToLanguageIdMap :=
       <[languageFolder := languageId]> (relativeFolderToLanguageIdMap s) |}.

Definition setCurrentLanguage (languageId : string) (s : Impl) : Impl :=
  {| rootFoldersList := rootFoldersList s;
     filenameToRecordMap := filenameToRecordMap s;
     currentLanguageId := languageId;
     relativeFolderToLanguageIdMap := relativeFolderToLanguageIdMap s |}.

Definition store_push (m : gmap string (list FileRecord))
    (entry : string * FileRecord) : gmap string (list FileRecord) :=
  <[entry.1 := default [] (m !! entry.1) ++ [entry.2]]> m.

Definition push_back (key : string) (fileRecord : FileRecord) (s : Impl)
  : Impl :=
  with_records (store_push (filenameToRecordMap s) (key, fileRecord)) s.

Section AddFolder.
Context `{ABI}.
Variable rootFolder : string.

(** The body of the [readdir] loop for one entry.  A file takes the
    language of the folder it lies in, if that is a language folder. *)
Fixpoint addFolderEntry (relativeFolder : string) (ep : dirent) (s : Impl)
    {struct ep} : Impl :=
  match ep with
  | DT_DIR d_name dp =>
      if ResourcesManagerImpl.hidden d_name then s else
      match dp with
      | None => s
      | Some entries =>
          fold_left
            (λ s' ep', addFolderEntry (combine [relativeFolder; d_name]) ep' s')
            entries s
      end
  | DT_REG d_name st =>
      if ResourcesManagerImpl.hidden d_name then s else
      let fileRecord :=
        {| filename := d_name;
           fileType := RegularFile;
           filePath := combine [rootFolder; relativeFolder; d_name];
           size := to_size_t (getFileSize st);
           languageId :=
             default "" (relativeFolderToLanguageIdMap s !! relativeFolder);
           zipFilePath := "";
           zipFilePos := ResourcesManagerImpl.no_zipFilePos |} in
      push_back (getFilenameId d_name) fileRecord s
  end.

Definition addFolderRecursive (dp : option (list dirent))
    (relativeFolder : string) (s : Impl) : Impl :=
  match dp with
  | None => s
  | Some entries =>
      fold_left (λ s' ep, addFolderEntry relativeFolder ep s') entries s
  end.

Definition addRootFolder (w : World) (s : Impl) : Impl :=
  addFolderRecursive (opendir w (combine [rootFolder; ""])) ""
    {| rootFoldersList := rootFoldersList s ++ [rootFolder];
       filenameToRecordMap := filenameToRecordMap s;
       currentLanguageId := currentLanguageId s;
       relativeFolderToLanguageIdMap := relativeFolderToLanguageIdMap s |}.
End AddFolder.

(** [findFileRecord]: with no current language the first record of no
    language; else the first record of the current language, and failing
    that the last record of no language. *)
Fixpoint first_generic (records : list FileRecord) : option FileRecord :=
  match records with
  | [] => None
  | fileRecord :: rest =>
      if String.eqb (languageId fileRecord) "" then Some fileRecord
      else first_generic rest
  end.

Fixpoint first_of_language (language : string) (records : list FileRecord)
    (nonLanguageSpecificFileRecord : option FileRecord) : option FileRecord :=
  match records with
  | [] => nonLanguageSpecificFileRecord
  | fileRecord :: rest =>
      let generic :=
        if String.eqb (languageId fileRecord) "" then Some fileRecord
        else nonLanguageSpecificFileRecord in
      if String.eqb (languageId fileRecord) language then Some fileRecord
      else first_of_language language rest generic
  end.

Definition findFileRecord (s : Impl) (filename : string) : option FileRecord :=
  match filenameToRecordMap s !! getFilenameId filename with
  | None => None
  | Some records =>
      if String.eqb (currentLanguageId s) "" then first_generic records
      else first_of_language (currentLanguageId s) records None
  end.

Definition getSize (s : Impl) (filename : string) : Z :=
  match findFileRecord s filename with
  | None => 0
  | Some fileRecord => size fileRecord
  end.

End Legacy.

Import ResourcesManagerImpl ResourcesManager.

(** ** Vocabulary of the properties *)

(** The 64-bit targets of the code. *)
Definition LP64 : ABI := {| size_t_bits := 64 |}.

(** What [combine] writes for one path component. *)
Definition component (x : string) : string :=
  if String.eqb x "" then "" else x +:+ "/".

(** A string without '/' and '\'. *)
Fixpoint sep_free (s : string) : bool :=
  match s with
  | EmptyString => true
  | String c r => negb (is_sep c) && sep_free r
  end.

Fixpoint backslash_free (s : string) : bool :=
  match s with
  | EmptyString => true
  | String c r => negb (Ascii.eqb c "\") && backslash_free r
  end.

(** Two names that differ in the case of their letters only. *)
Definition same_modulo_case (a b : string) : Prop :=
  transform tolower a = transform tolower b.

(** The files a walk reaches below a list of entries, in the order the
    walk meets them: the names of the directories descended from the
    start, the name of the file, and what [stat] answered. *)
Fixpoint visited_entry (ep : dirent) : list (list string * string * option Z) :=
  match ep with
  | DT_DIR d_name dp =>
      if hidden d_name then [] else
      match dp with
      | None => []
      | Some entries =>
          map (λ v, (d_name :: v.1.1, v.1.2, v.2))
              (concat (map visited_entry entries))
      end
  | DT_REG d_name st => if hidden d_name then [] else [([], d_name, st)]
  end.

Definition visited (dp : option (list dirent))
  : list (list string * string * option Z) :=
  match dp with
  | None => []
  | Some entries => concat (map visited_entry entries)
  end.

Definition is_category_folder (s : Impl) (d_name : string) : bool :=
  bool_decide (is_Some (relativeFolderToCategoryMap s !! d_name)).

(** The directories of a path that are no category folders. *)
Definition key_folders (s : Impl) (dirs : list string) : list string :=
  List.filter (λ d, negb (is_category_folder s d)) dirs.

(** The path the key of a file is made from. *)
Definition key_path (s : Impl) (dirs : list string) (name : string) : string :=
  combine (key_folders s dirs ++ [name]).

(** The category a file below the directories [dirs] is stamped with:
    that of the innermost category folder, [category] when there is
    none. *)
Definition category_below (s : Impl) (dirs : list string) (category : string)
  : string :=
  fold_left
    (λ c d, default c (relativeFolderToCategoryMap s !! d)) dirs category.

(** Its language: that of the innermost directory whose relative path is
    a language folder. *)
Fixpoint language_below (s : Impl) (relativeFolder : string)
    (dirs : list string) (languageId : string) : string :=
  match dirs with
  | [] => languageId
  | d :: dirs' =>
      let newRelativeFolder := combine [relativeFolder; d] in
      language_below s newRelativeFolder dirs'
        (default languageId
           (relativeFolderToLanguageIdMap s !! newRelativeFolder))
  end.

(** The record of a visited file and the key it is stored under, for a
    walk that starts below the directories [pre], of which [preK] are no
    category folders, with the language and the category found so far. *)
Definition indexed_from `{ABI} (s : Impl) (rootFolder : string)
    (pre preK : list string) (languageId category : string)
    (v : list string * string * option Z) : string * FileRecord :=
  let '(dirs, name, st) := v in
  (makeKey s (combine (preK ++ key_folders s dirs ++ [name])),
   {| filename := name;
      fileType := RegularFile;
      relativePath := combine (pre ++ dirs ++ [name]);
      filePath := combine [rootFolder; combine (pre ++ dirs ++ [name])];
      size := to_size_t (getFileSize st);
      languageId := language_below s (combine pre) dirs languageId;
      category := category_below s dirs category;
      zipFilePath := "";
      zipFilePos := no_zipFilePos |}).

(** The same for a walk from the root folder. *)
Definition indexed `{ABI} (s : Impl) (rootFolder : string)
    (v : list string * string * option Z) : string * FileRecord :=
  indexed_from s rootFolder [] [] "" "" v.

(** A record is stored under a key. *)
Definition stored (s : Impl) (key : string) (r : FileRecord) : Prop :=
  ∃ records, filenameToRecordMap s !! key = Some records ∧ r ∈ records.

(** A record is stored under the key [findFileRecord] looks up for
    [filename] at one of the search roots. *)
Definition stored_for (s : Impl) (filename : string) (r : FileRecord) : Prop :=
  ∃ searchRoot,
    searchRoot ∈ searchRootsList s ∧
    stored s (makeKey s (combine [searchRoot; makeKey s filename])) r.

(** Changes of the current language and of the enabled categories. *)
Inductive selection :=
| SetCurrentLanguage (languageId : string)
| EnableCategory (category : string)
| DisableCategory (category : string).

Definition select (s : Impl) (op : selection) : Impl :=
  match op with
  | SetCurrentLanguage l => setCurrentLanguage l s
  | EnableCategory c => enableCategory c s
  | DisableCategory c => disableCategory c s
  end.

(** *** Reachable states *)

Section Reachable.
Context `{ABI}.

(** One call of a method of the manager, whatever it returns. *)
Inductive step : Impl → Impl → Prop :=
| step_reset s : step s (reset s)
| step_enableTrace b s : step s (setEnableTrace b s)
| step_addRootFolder w rootFolder s : step s (addRootFolder w rootFolder s)
| step_addLanguageFolder l folder s : step s (addLanguageFolder l folder s)
| step_setCurrentLanguage l s : step s (setCurrentLanguage l s)
| step_addCategoryFolder c folder s : step s (addCategoryFolder c folder s)
| step_enableCategory c s : step s (enableCategory c s)
| step_disableCategory c s : step s (disableCategory c s)
| step_setSearchByRelativePaths b s : step s (setSearchByRelativePaths b s)
| step_addSearchRoot r s : step s (addSearchRoot r s)
| step_addArchive w path rootFolder s :
    step s (addArchive path rootFolder w s).1.2
| step_getStream w random filename s :
    step s (getStream w random s filename).1.2
| step_readData s handle size : step s (readDataHandle s handle size).2
| step_closeFile s handle : step s (closeFile s handle).1.2
| step_seek s handle offset whence : step s (seek s handle offset whence).2.

Inductive reachable : Impl → Prop :=
| reachable_constructed : reachable constructed
| reachable_step s s' : reachable s → step s s' → reachable s'.

(** A stream is opened on [filename], read with the sizes [sizes] in
    turn, and closed. *)
Definition read_all (s : Impl) (handle : Z) (sizes : list Z) : Impl :=
  fold_left (λ s' size, (readDataHandle s' handle size).2) sizes s.
End Reachable.

(** The handle a stream is filed under is the one its record carries,
    and the search root "" is among the search roots. *)
Definition handles_consistent (s : Impl) : Prop :=
  ∀ handle streamRecord,
    openStreams s !! handle = Some streamRecord →
    randomValue streamRecord = handle.

Definition well_formed (s : Impl) : Prop :=
  "" ∈ searchRootsList s ∧ handles_consistent s.

(** *** What calls keep *)

Section Calls.
Context `{ABI}.

(** A call that keeps the index and the mode of the keys: the calls
    that configure the manager, index a root folder or an archive, add
    a search root or open a stream, but not [reset], and
    [setSearchByRelativePaths] only with the flag as it is.  The calls
    on an open stream are left out: they follow the pointer the stream
    holds into the record store, which an indexing call in between can
    have invalidated. *)
Inductive later_call : Impl → Impl → Prop :=
| later_enableTrace b s : later_call s (setEnableTrace b s)
| later_addRootFolder w rootFolder s :
    later_call s (addRootFolder w rootFolder s)
| later_addLanguageFolder l folder s :
    later_call s (addLanguageFolder l folder s)
| later_setCurrentLanguage l s : later_call s (setCurrentLanguage l s)
| later_addCategoryFolder c folder s :
    later_call s (addCategoryFolder c folder s)
| later_enableCategory c s : later_call s (enableCategory c s)
| later_disableCategory c s : later_call s (disableCategory c s)
| later_setSearchByRelativePaths s :
    later_call s (setSearchByRelativePaths (searchByRelativePaths s) s)
| later_addSearchRoot r s : later_call s (addSearchRoot r s)
| later_addArchive w path rootFolder s :
    later_call s (addArchive path rootFolder w s).1.2
| later_getStream w random filename s :
    later_call s (getStream w random s filename).1.2.

(** The manager [s'] is what such calls made of [s]. *)
Inductive since : Impl → Impl → Prop :=
| since_now s : since s s
| since_call s s' s'' : since s s' → later_call s' s'' → since s s''.

(** A call that leaves the record store alone, so that the records the
    open streams refer to stay where they are: the configuration calls,
    and the calls on streams, reads with a size from 0 to [INT_MAX]. *)
Inductive session_call : Impl → Impl → Prop :=
| session_enableTrace b s : session_call s (setEnableTrace b s)
| session_addLanguageFolder l folder s :
    session_call s (addLanguageFolder l folder s)
| session_setCurrentLanguage l s : session_call s (setCurrentLanguage l s)
| session_addCategoryFolder c folder s :
    session_call s (addCategoryFolder c folder s)
| session_enableCategory c s : session_call s (enableCategory c s)
| session_disableCategory c s : session_call s (disableCategory c s)
| session_setSearchByRelativePaths b s :
    session_call s (setSearchByRelativePaths b s)
| session_addSearchRoot r s : session_call s (addSearchRoot r s)
| session_getStream w random filename s :
    session_call s (getStream w random s filename).1.2
| session_readData s handle size :
    0 ≤ size < 2 ^ 31 →
    session_call s (readDataHandle s handle size).2
| session_closeFile s handle : session_call s (closeFile s handle).1.2
| session_seek s handle offset whence :
    session_call s (seek s handle offset whence).2.

Inductive session : Impl → Impl → Prop :=
| session_start s : session s s
| session_next s s' s'' : session s s' → session_call s' s'' → session s s''.
End Calls.

(** *** Further vocabulary *)

(** The pieces successive reads on a handle store in the buffer. *)
Fixpoint read_chunks `{ABI} (s : Impl) (handle : Z) (sizes : list Z)
  : list (list Byte.byte) :=
  match sizes with
  | [] => []
  | size :: rest =>
      (readDataHandle s handle size).1.2
      :: read_chunks (readDataHandle s handle size).2 handle rest
  end.

(** What a stream has still to deliver: the content of its file from
    the offset on, or the rest of its archive entry. *)
Definition remaining (streamRecord : StreamRecord) : list Byte.byte :=
  match fileType (fileRecord streamRecord) with
  | RegularFile =>
      match file streamRecord with
      | Some f =>
          drop (Z.to_nat (Z.min (Z.max 0 (f_offset f)) (len (f_content f))))
            (f_content f)
      | None => []
      end
  | CompressedFile | StoredFile =>
      match zipFile streamRecord with
      | Some z => zf_rest z
      | None => []
      end
  end.

(** A stream as [getStream] files it and reads and seeks leave it: its
    file is open at an offset that is not negative, or its archive is
    open. *)
Definition backed (streamRecord : StreamRecord) : Prop :=
  match fileType (fileRecord streamRecord) with
  | RegularFile =>
      ∃ f, file streamRecord = Some f ∧ 0 ≤ f_offset f
  | CompressedFile | StoredFile => is_Some (zipFile streamRecord)
  end.

(** The earlier revision: the record of a visited file and the key it
    is stored under, for a walk that starts below the directories
    [pre]. *)
Definition legacy_indexed `{ABI} (s : Legacy.Impl) (rootFolder : string)
    (pre : list string) (v : list string * string * option Z)
  : string * Legacy.FileRecord :=
  let '(dirs, name, st) := v in
  (Legacy.getFilenameId name,
   {| Legacy.filename := name;
      Legacy.fileType := RegularFile;
      Legacy.filePath := combine [rootFolder; combine (pre ++ dirs); name];
      Legacy.size := to_size_t (getFileSize st);
      Legacy.languageId :=
        default ""
          (Legacy.relativeFolderToLanguageIdMap s !! combine (pre ++ dirs));
      Legacy.zipFilePath := "";
      Legacy.zipFilePos := no_zipFilePos |}).

(** An entry list that holds the first entries of another, in their
    order, whatever follows them there. *)
Fixpoint starts_with (short long : zlist) : Prop :=
  match short with
  | ZEnd | ZError => True
  | ZNext e rest =>
      match long with
      | ZNext e' rest' => e = e' ∧ starts_with rest rest'
      | ZEnd | ZError => False
      end
  end.

(** Letters 'A' to 'Z'. *)
Definition is_upper (c : ascii) : bool :=
  ((65 <=? N_of_ascii c) && (N_of_ascii c <=? 90))%N.

Fixpoint no_upper (s : string) : bool :=
  match s with
  | EmptyString => true
  | String c r => negb (is_upper c) && no_upper r
  end.

(** A search root that does not answer for a key: no record stored
    under its key passes the filter. *)
Definition silent_root (s : Impl) (key searchRoot : string) : Prop :=
  ∀ r, stored s (makeKey s (combine [searchRoot; key])) r →
       admissible s r = false.

(** The entries of an archive that the enumeration reaches, and whether
    it ends with the end of the list. *)
Fixpoint entries_of (zl : zlist) : list zentry :=
  match zl with
  | ZEnd | ZError => []
  | ZNext e rest => e :: entries_of rest
  end.

Fixpoint ends_well (zl : zlist) : bool :=
  match zl with
  | ZEnd => true
  | ZError => false
  | ZNext _ rest => ends_well rest
  end.

(** *** A small installation

    A root folder with a category folder "HD" and two language folders,
    and three archives: one with the same entry twice, one whose first
    entry cannot be reached, and one with a lower-case entry twice. *)

Module Scene.

Definition tree : list dirent :=
  [ DT_DIR "HD"
      (Some [ DT_REG "Sprite.png" (Some 10);
              DT_DIR "en" (Some [ DT_REG "x.png" (Some 3) ]) ]);
    DT_DIR "fr" (Some [ DT_REG "x.png" (Some 4) ]);
    DT_REG ".hidden" (Some 1);
    DT_REG "Sprite.png" (Some 7);
    DT_REG "broken.bin" None ].

Definition entry (name : string) (number : Z) : zentry :=
  {| z_name := name;
     z_uncompressed_size := 3;
     z_filePos := Some {| pos_in_zip_directory := 46 * number;
                          num_of_file := number |};
     z_opens := true;
     z_data := [Byte.x01; Byte.x02; Byte.x03] |}.

Definition world : World :=
  {| opendir := λ path, if String.eqb path "root" then Some tree else None;
     fopen := λ path,
       if String.eqb path "root/Sprite.png"
       then Some [Byte.x0a; Byte.x0b; Byte.x0c; Byte.x0d; Byte.x0e;
                  Byte.x0f; Byte.x10]
       else if String.eqb path "root/HD/Sprite.png"
       then Some [Byte.x20; Byte.x21; Byte.x22; Byte.x23; Byte.x24;
                  Byte.x25; Byte.x26; Byte.x27; Byte.x28; Byte.x29]
       else None;
     unzOpen := λ path,
       if String.eqb path "twice.zip"
       then Some (ZNext (entry "Dir/A.png" 0)
                    (ZNext (entry "Dir/A.png" 1) ZEnd))
       else if String.eqb path "empty.zip" then Some ZEnd
       else if String.eqb path "lower.zip"
       then Some (ZNext (entry "a.png" 0) (ZNext (entry "a.png" 1) ZEnd))
       else None;
     operator_new := λ n, n <? 2 ^ 31 |}.

(** The overlays are declared, "HD" is enabled, the root is indexed. *)
Definition configured : Impl :=
  enableCategory "HD"
    (addLanguageFolder "fr" "fr"
       (addLanguageFolder "en" "HD/en"
          (addCategoryFolder "HD" "HD" constructed))).

Definition indexed_state : Impl :=
  addRootFolder (H := LP64) world "root" configured.

(** The same with keys made of relative paths. *)
Definition indexed_by_path : Impl :=
  addRootFolder (H := LP64) world "root"
    (setSearchByRelativePaths true configured).

Definition sprite_hd : FileRecord :=
  {| filename := "Sprite.png";
     fileType := RegularFile;
     size := 10;
     languageId := "";
     category := "HD";
     filePath := "root/HD/Sprite.png";
     relativePath := "HD/Sprite.png";
     zipFilePath := "";
     zipFilePos := no_zipFilePos |}.

Definition sprite_plain : FileRecord :=
  {| filename := "Sprite.png";
     fileType := RegularFile;
     size := 7;
     languageId := "";
     category := "";
     filePath := "root/Sprite.png";
     relativePath := "Sprite.png";
     zipFilePath := "";
     zipFilePos := no_zipFilePos |}.

Definition x_hd_en : FileRecord :=
  {| filename := "x.png";
     fileType := RegularFile;
     size := 3;
     languageId := "en";
     category := "HD";
     filePath := "root/HD/en/x.png";
     relativePath := "HD/en/x.png";
     zipFilePath := "";
     zipFilePos := no_zipFilePos |}.

Definition x_fr : FileRecord :=
  {| filename := "x.png";
     fileType := RegularFile;
     size := 4;
     languageId := "fr";
     category := "";
     filePath := "root/fr/x.png";
     relativePath := "fr/x.png";
     zipFilePath := "";
     zipFilePos := no_zipFilePos |}.

(** A stream is open on "Sprite.png". *)
Definition streaming : Impl :=
  (getStream world 77 indexed_state "Sprite.png").1.2.

(** Keys are relative paths and "fr" is a search root. *)
Definition mounted : Impl := addSearchRoot "fr" indexed_by_path.

(** The record of the second entry of "twice.zip". *)
Definition packed : FileRecord :=
  {| filename := "Dir/A.png";
     fileType := CompressedFile;
     size := 3;
     languageId := "";
     category := "";
     filePath := "";
     relativePath := "Dir/A.png";
     zipFilePath := "twice.zip";
     zipFilePos := {| pos_in_zip_directory := 46; num_of_file := 1 |} |}.

(** What "root/HD/Sprite.png" holds, and the stream [streaming] has
    open on it. *)
Definition hd_content : list Byte.byte :=
  [Byte.x20; Byte.x21; Byte.x22; Byte.x23; Byte.x24;
   Byte.x25; Byte.x26; Byte.x27; Byte.x28; Byte.x29].

Definition hd_stream : StreamRecord :=
  {| fileRecord := sprite_hd;
     randomValue := 77;
     file := Some {| f_path := "root/HD/Sprite.png";
                     f_content := hd_content;
                     f_offset := 0 |};
     zipFile := None |}.

(** The installation after further calls: an archive and a second
    root folder are indexed and a search root is added. *)
Definition extended : Impl :=
  addSearchRoot "mods"
    (addRootFolder (H := LP64) world "nowhere"
       (addArchive (H := LP64) "twice.zip" "" world indexed_state).1.2).

(** A second stream, 78, on the same file. *)
Definition two_streams : Impl :=
  (getStream world 78 streaming "Sprite.png").1.2.

(** A root folder with two files "broken.bin": the one in "sub" is met
    first and has 5 bytes, [stat] fails on the other. *)
Definition shadow_world : World :=
  {| opendir := λ path,
       if String.eqb path "root"
       then Some [ DT_DIR "sub" (Some [ DT_REG "broken.bin" (Some 5) ]);
                   DT_REG "broken.bin" None ]
       else None;
     fopen := λ _, None;
     unzOpen := λ _, None;
     operator_new := λ n, n <? 2 ^ 31 |}.

(** "pack.zip" lists "a.png" and then fails; in the other world it
    ends behind "a.png". *)
Definition torn_world : World :=
  {| opendir := λ _, None;
     fopen := λ _, None;
     unzOpen := λ path,
       if String.eqb path "pack.zip"
       then Some (ZNext (entry "a.png" 0) ZError)
       else None;
     operator_new := λ n, n <? 2 ^ 31 |}.

Definition short_world : World :=
  {| opendir := λ _, None;
     fopen := λ _, None;
     unzOpen := λ path,
       if String.eqb path "pack.zip"
       then Some (ZNext (entry "a.png" 0) ZEnd)
       else None;
     operator_new := λ n, n <? 2 ^ 31 |}.

(** A manager of the earlier revision with "HD" as the folder of the
    language "en". *)
Definition legacy : Legacy.Impl :=
  Legacy.addLanguageFolder "en" "HD"
    {| Legacy.rootFoldersList := [];
       Legacy.filenameToRecordMap := ∅;
       Legacy.currentLanguageId := "";
       Legacy.relativeFolderToLanguageIdMap := ∅ |}.

End Scene.

(** * Properties *)

(** ** Characters and paths *)

Module PathFacts.

Ltac by_cases_on_char c :=
  destruct c as [[] [] [] [] [] [] [] []]; reflexivity.

Lemma tolower_idemp c : tolower (tolower c) = tolower c.
Proof. by_cases_on_char c. Qed.

Lemma is_sep_tolower c : is_sep (tolower c) = is_sep c.
Proof. by_cases_on_char c. Qed.

Lemma backslash_tolower c :
  Ascii.eqb (tolower c) "\" = Ascii.eqb c "\".
Proof. by_cases_on_char c. Qed.

Lemma lower_idemp s :
  transform tolower (transform tolower s) = transform tolower s.
Proof. induction s as [|c s IH]; simpl; [done|]. by rewrite tolower_idemp, IH. Qed.

Lemma append_cons c a b : String c a +:+ b = String c (a +:+ b).
Proof. reflexivity. Qed.

Lemma append_empty_l b : "" +:+ b = b.
Proof. reflexivity. Qed.

Lemma transform_app f a b :
  transform f (a +:+ b) = transform f a +:+ transform f b.
Proof.
  induction a as [|c a IH]; [done|].
  rewrite append_cons. simpl. by rewrite append_cons, IH.
Qed.

Lemma sep_free_backslash_free s : sep_free s = true → backslash_free s = true.
Proof.
  induction s as [|c s IH]; simpl; [done|].
  intros [Hc Hs]%andb_prop. rewrite (IH Hs), andb_true_r.
  unfold is_sep in Hc. by destruct (Ascii.eqb c "/"), (Ascii.eqb c "\").
Qed.

Lemma sep_free_app a b :
  sep_free (a +:+ b) = sep_free a && sep_free b.
Proof.
  induction a as [|c a IH]; [done|].
  rewrite append_cons. simpl. by rewrite IH, andb_assoc.
Qed.

Lemma sep_free_lower s : sep_free (transform tolower s) = sep_free s.
Proof.
  induction s as [|c s IH]; simpl; [done|]. by rewrite is_sep_tolower, IH.
Qed.

Lemma append_empty_r s : s +:+ "" = s.
Proof. induction s as [|c s IH]; [done|]. by rewrite append_cons, IH. Qed.

Lemma append_assoc a b c : (a +:+ b) +:+ c = a +:+ b +:+ c.
Proof. induction a as [|x a IH]; [done|]. by rewrite !append_cons, IH. Qed.

(** *** basename *)

Lemma basename_from_sep_free s :
  ∀ p, sep_free p = true → sep_free (basename_from (p +:+ s) s) = true.
Proof.
  induction s as [|c s IH]; simpl; intros p Hp.
  - by rewrite append_empty_r.
  - destruct (is_sep c) eqn:Hc.
    + apply (IH ""). done.
    + replace (p +:+ String c s) with ((p +:+ String c "") +:+ s)
        by (by rewrite append_assoc).
      apply IH. rewrite sep_free_app, Hp. simpl. by rewrite Hc.
Qed.

Lemma basename_sep_free s : sep_free (basename s) = true.
Proof. apply (basename_from_sep_free s ""). done. Qed.

Lemma basename_from_id s :
  sep_free s = true → ∀ acc, basename_from acc s = acc.
Proof.
  induction s as [|c s IH]; simpl; [done|].
  intros [Hc Hs]%andb_prop acc. apply negb_true_iff in Hc. rewrite Hc.
  by apply IH.
Qed.

Lemma basename_id s : sep_free s = true → basename s = s.
Proof. intros Hs. by apply basename_from_id. Qed.

Lemma basename_from_lower s :
  ∀ acc,
    basename_from (transform tolower acc) (transform tolower s)
    = transform tolower (basename_from acc s).
Proof.
  induction s as [|c s IH]; simpl; intros acc; [done|].
  rewrite is_sep_tolower. destruct (is_sep c); apply IH.
Qed.

Lemma basename_lower s :
  basename (transform tolower s) = transform tolower (basename s).
Proof. apply basename_from_lower. Qed.

Lemma basename_from_behind_slash a b :
  ∀ acc, basename_from acc (a +:+ String "/" b) = basename b.
Proof.
  induction a as [|c a IH]; intros acc; [done|].
  rewrite append_cons. simpl. destruct (is_sep c); apply IH.
Qed.

Lemma basename_behind_slash a b : basename (a +:+ String "/" b) = basename b.
Proof. apply basename_from_behind_slash. Qed.

(** *** The normalisation of separators *)

Lemma prefix_cons a s1 b s2 :
  String.prefix (String a s1) (String b s2)
  = if Ascii.eqb a b then String.prefix s1 s2 else false.
Proof.
  change (String.prefix (String a s1) (String b s2))
    with (if ascii_dec a b then String.prefix s1 s2 else false).
  destruct (ascii_dec a b) as [->|Hab].
  - by rewrite Ascii.eqb_refl.
  - apply Ascii.eqb_neq in Hab. by rewrite Hab.
Qed.

Lemma replaceAll_from_here search replace c r :
  replaceAll_from search replace 0 (String c r)
  = if String.prefix search (String c r)
    then replace +:+
         replaceAll_from search replace (String.length search - 1) r
    else String c (replaceAll_from search replace 0 r).
Proof. reflexivity. Qed.

Lemma replaceAll_from_skip search replace k c r :
  replaceAll_from search replace (S k) (String c r)
  = replaceAll_from search replace k r.
Proof. reflexivity. Qed.

Lemma replaceAll_backslash_free s :
  backslash_free s = true → replaceAll_from "\\" "/" 0 s = s.
Proof.
  induction s as [|c s IH]; [done|].
  intros [Hc Hs]%andb_prop. apply negb_true_iff in Hc.
  rewrite replaceAll_from_here, prefix_cons, Ascii.eqb_sym, Hc.
  by rewrite IH.
Qed.

Lemma replace_char_backslash_free s :
  backslash_free s = true → replace_char "\" "/" s = s.
Proof.
  unfold replace_char. induction s as [|c s IH]; simpl; [done|].
  intros [Hc Hs]%andb_prop. apply negb_true_iff in Hc.
  by rewrite Hc, IH.
Qed.

Lemma normalize_backslash_free s : backslash_free s = true → normalize s = s.
Proof.
  intros Hs. unfold normalize, replaceAll. simpl.
  by rewrite replaceAll_backslash_free, replace_char_backslash_free.
Qed.

Lemma replace_char_is_backslash_free s :
  backslash_free (replace_char "\" "/" s) = true.
Proof.
  unfold replace_char. induction s as [|c s IH]; simpl; [done|].
  rewrite IH, andb_true_r. destruct (Ascii.eqb c "\") eqn:Hc; [done|].
  by rewrite Hc.
Qed.

Lemma normalize_idemp s : normalize (normalize s) = normalize s.
Proof. apply normalize_backslash_free, replace_char_is_backslash_free. Qed.

Lemma prefix_backslashes_lower s :
  String.prefix "\\" (transform tolower s) = String.prefix "\\" s.
Proof.
  destruct s as [|c [|d s]]; [done| |].
  - change (transform tolower (String c "")) with (String (tolower c) "").
    rewrite !prefix_cons, !(Ascii.eqb_sym "\"), backslash_tolower. done.
  - change (transform tolower (String c (String d s)))
      with (String (tolower c) (String (tolower d) (transform tolower s))).
    rewrite !prefix_cons, !(Ascii.eqb_sym "\"), (backslash_tolower c),
      (backslash_tolower d).
    by destruct s.
Qed.

Lemma replaceAll_from_lower s :
  ∀ k,
    transform tolower (replaceAll_from "\\" "/" k s)
    = replaceAll_from "\\" "/" k (transform tolower s).
Proof.
  induction s as [|c s IH]; intros k; [done|].
  destruct k as [|k].
  - rewrite replaceAll_from_here.
    change (transform tolower (String c s))
      with (String (tolower c) (transform tolower s)).
    rewrite replaceAll_from_here.
    change (String (tolower c) (transform tolower s))
      with (transform tolower (String c s)).
    rewrite prefix_backslashes_lower.
    destruct (String.prefix "\\" (String c s)).
    + by rewrite transform_app, IH.
    + change (transform tolower (String c s))
        with (String (tolower c) (transform tolower s)).
      by rewrite <- IH.
  - change (transform tolower (String c s))
      with (String (tolower c) (transform tolower s)).
    rewrite !replaceAll_from_skip. apply IH.
Qed.

Lemma replace_char_lower s :
  transform tolower (replace_char "\" "/" s)
  = replace_char "\" "/" (transform tolower s).
Proof.
  unfold replace_char. induction s as [|c s IH]; simpl; [done|].
  rewrite IH, backslash_tolower. by destruct (Ascii.eqb c "\").
Qed.

Lemma normalize_lower s :
  transform tolower (normalize s) = normalize (transform tolower s).
Proof.
  unfold normalize, replaceAll. simpl.
  by rewrite replace_char_lower, replaceAll_from_lower.
Qed.

(** *** combine *)

Lemma drop_last_snoc p c : drop_last (p +:+ String c "") = p.
Proof.
  induction p as [|a p IH]; [done|].
  rewrite append_cons. simpl. rewrite IH.
  by destruct p.
Qed.

Lemma combine_out_snoc l x :
  combine_out (l ++ [x]) = combine_out l +:+ component x.
Proof.
  unfold combine_out, component. rewrite fold_left_app. simpl.
  destruct (String.eqb x ""); [by rewrite append_empty_r|done].
Qed.

Lemma combine_drop_last l : combine l = drop_last (combine_out l).
Proof.
  unfold combine. destruct (combine_out l) as [|c r] eqn:Hout; done.
Qed.

Lemma combine_out_cases l :
  (combine_out l = "" ∧ combine l = "") ∨
  (combine l ≠ "" ∧ combine_out l = combine l +:+ "/").
Proof.
  induction l as [|x l IH] using rev_ind; [by left|].
  rewrite combine_drop_last, combine_out_snoc. unfold component.
  destruct (String.eqb_spec x "") as [->|Hx].
  - rewrite append_empty_r, <- combine_drop_last. exact IH.
  - right. rewrite <- append_assoc, drop_last_snoc. split; [|done].
    destruct (combine_out l); [by destruct x|done].
Qed.

Lemma combine_out_nested l x :
  combine_out [combine l; x] = combine_out (l ++ [x]).
Proof.
  rewrite combine_out_snoc. unfold combine_out at 1, component. simpl.
  rewrite !append_empty_l.
  destruct (combine_out_cases l) as [[-> ->]|[Hne Hout]].
  - rewrite String.eqb_refl, !append_empty_l. by destruct (String.eqb x "").
  - apply String.eqb_neq in Hne. rewrite Hne, <- Hout.
    destruct (String.eqb x ""); by rewrite ?append_empty_r.
Qed.

(** Joining a joined path with one more component joins them all. *)
Lemma combine_nested l x : combine [combine l; x] = combine (l ++ [x]).
Proof.
  rewrite (combine_drop_last [_; _]), (combine_drop_last (l ++ _)).
  by rewrite combine_out_nested.
Qed.

Lemma combine_single x : combine [x] = x.
Proof.
  rewrite combine_drop_last. unfold combine_out. simpl.
  destruct (String.eqb_spec x "") as [->|Hx]; [done|].
  apply drop_last_snoc.
Qed.

Lemma combine_empty_root x : combine [""; x] = x.
Proof. apply combine_single. Qed.

Lemma combine_snoc_nonempty l x :
  x ≠ "" →
  combine (l ++ [x]) = x ∨ ∃ p, combine (l ++ [x]) = p +:+ String "/" x.
Proof.
  intros Hx. rewrite combine_drop_last, combine_out_snoc. unfold component.
  apply String.eqb_neq in Hx. rewrite Hx, <- append_assoc, drop_last_snoc.
  destruct (combine_out_cases l) as [[-> _]|[_ ->]]; [by left|].
  right. exists (combine l). by rewrite append_assoc.
Qed.

Lemma basename_combine_snoc l x :
  x ≠ "" → basename (combine (l ++ [x])) = basename x.
Proof.
  intros Hx. destruct (combine_snoc_nonempty l x Hx) as [->|[p ->]]; [done|].
  apply basename_behind_slash.
Qed.

(** *** makeKey *)

Lemma makeKey_basename_mode s filename :
  searchByRelativePaths s = false →
  makeKey s filename = transform tolower (basename filename).
Proof.
  intros Hs. unfold makeKey. rewrite Hs.
  apply normalize_backslash_free, sep_free_backslash_free.
  rewrite sep_free_lower. apply basename_sep_free.
Qed.

Lemma makeKey_relative_mode s filename :
  searchByRelativePaths s = true →
  makeKey s filename = normalize (transform tolower filename).
Proof. intros Hs. unfold makeKey. by rewrite Hs. Qed.

Lemma makeKey_same_mode s s' filename :
  searchByRelativePaths s = searchByRelativePaths s' →
  makeKey s filename = makeKey s' filename.
Proof. intros Hs. unfold makeKey. by rewrite Hs. Qed.

Lemma makeKey_modulo_case s a b :
  same_modulo_case a b → makeKey s a = makeKey s b.
Proof.
  unfold same_modulo_case, makeKey. intros Hab.
  destruct (searchByRelativePaths s).
  - by rewrite Hab.
  - by rewrite <- !basename_lower, Hab.
Qed.

Lemma makeKey_idemp s filename :
  makeKey s (makeKey s filename) = makeKey s filename.
Proof.
  destruct (searchByRelativePaths s) eqn:Hs.
  - rewrite !(makeKey_relative_mode s _ Hs).
    by rewrite normalize_lower, lower_idemp, normalize_idemp.
  - rewrite !(makeKey_basename_mode s _ Hs).
    rewrite basename_id by (rewrite sep_free_lower; apply basename_sep_free).
    apply lower_idemp.
Qed.

(** At the search root "" the key of a key is looked up, which is the
    key. *)
Lemma makeKey_at_empty_root s filename :
  makeKey s (combine [""; makeKey s filename]) = makeKey s filename.
Proof. by rewrite combine_empty_root, makeKey_idemp. Qed.

End PathFacts.

(** ** The walk over a root folder *)

Module WalkFacts.
Import PathFacts.

(** Induction over directory trees. *)
Lemma dirent_tree_ind (P : dirent → Prop) :
  (∀ d_name st, P (DT_REG d_name st)) →
  (∀ d_name, P (DT_DIR d_name None)) →
  (∀ d_name entries, Forall P entries → P (DT_DIR d_name (Some entries))) →
  ∀ ep, P ep.
Proof.
  intros Hreg Hnone Hsome. fix rec 1. intros [d_name [entries|]|d_name st].
  - apply Hsome. revert entries. fix rec_list 1. intros [|ep entries].
    + constructor.
    + constructor; [apply rec | apply rec_list].
  - apply Hnone.
  - apply Hreg.
Qed.

Lemma is_category_folder_lookup s d :
  is_category_folder s d
  = match relativeFolderToCategoryMap s !! d with
    | Some _ => true
    | None => false
    end.
Proof.
  unfold is_category_folder.
  destruct (relativeFolderToCategoryMap s !! d) eqn:Hd.
  - apply bool_decide_eq_true. by eexists.
  - apply bool_decide_eq_false. by intros [? ?].
Qed.

Section Walk.
Context `{ABI}.
Variables (s : Impl) (rootFolder : string).

(** Descending into a directory moves it from the path of a file to
    the start of the walk. *)
Lemma indexed_from_descend pre preK languageId category d dirs name st :
  indexed_from s rootFolder pre preK languageId category
    (d :: dirs, name, st)
  = indexed_from s rootFolder (pre ++ [d])
      (if is_category_folder s d then preK else preK ++ [d])
      (default languageId
         (relativeFolderToLanguageIdMap s !! combine (pre ++ [d])))
      (default category (relativeFolderToCategoryMap s !! d))
      (dirs, name, st).
Proof.
  unfold indexed_from, key_folders. simpl.
  rewrite combine_nested, <- !(app_assoc pre [d]). simpl.
  destruct (is_category_folder s d); simpl;
    by rewrite <- ?(app_assoc preK [d]).
Qed.

Lemma addFolderEntry_spec ep :
  ∀ pre preK languageId category m,
    addFolderEntry rootFolder (combine pre) (combine preK) languageId
      category ep (with_records m s)
    = with_records
        (fold_left store_push
           (map (indexed_from s rootFolder pre preK languageId category)
                (visited_entry ep)) m) s.
Proof.
  induction ep as [d_name st|d_name|d_name entries IH]
    using dirent_tree_ind; intros pre preK languageId category m; simpl.
  - destruct (hidden d_name); [done|]. simpl.
    unfold push_back, makeKey. simpl.
    by rewrite !combine_nested.
  - by destruct (hidden d_name).
  - destruct (hidden d_name); [done|].
    rewrite map_map.
    rewrite (map_ext _
               (indexed_from s rootFolder (pre ++ [d_name])
                  (if is_category_folder s d_name
                   then preK else preK ++ [d_name])
                  (default languageId
                     (relativeFolderToLanguageIdMap s
                        !! combine (pre ++ [d_name])))
                  (default category
                     (relativeFolderToCategoryMap s !! d_name))))
      by (intros [[dirs name] st]; apply indexed_from_descend).
    rewrite (is_category_folder_lookup s d_name).
    rewrite !combine_nested.
    set (preK' := match relativeFolderToCategoryMap s !! d_name with
                  | Some _ => preK | None => preK ++ [d_name] end).
    replace (match relativeFolderToCategoryMap s !! d_name with
             | Some _ => combine preK
             | None => combine (preK ++ [d_name])
             end) with (combine preK')
      by (subst preK'; by destruct (relativeFolderToCategoryMap s !! d_name)).
    replace (if match relativeFolderToCategoryMap s !! d_name with
                | Some _ => true | None => false end
             then preK else preK ++ [d_name]) with preK'
      by (subst preK'; by destruct (relativeFolderToCategoryMap s !! d_name)).
    set (languageId' := match _ with Some found => found | None => languageId end).
    set (category' := match _ with Some found => found | None => category end).
    change (default languageId
              (relativeFolderToLanguageIdMap s !! combine (pre ++ [d_name])))
      with languageId'.
    change (default category (relativeFolderToCategoryMap s !! d_name))
      with category'.
    clearbody preK' languageId' category'.
    revert m. induction IH as [|ep entries Hep _ IHentries]; intros m;
      [done|]. simpl.
    by rewrite Hep, IHentries, map_app, fold_left_app.
Qed.

(** The records a walk of the root folder appends, and where. *)
Lemma addFolderRecursive_spec dp m :
  addFolderRecursive rootFolder dp "" "" "" "" (with_records m s)
  = with_records
      (fold_left store_push (map (indexed s rootFolder) (visited dp)) m) s.
Proof.
  destruct dp as [entries|]; [|done]. simpl.
  revert m. induction entries as [|ep entries IH]; intros m; [done|].
  simpl. rewrite (addFolderEntry_spec ep [] []), IH.
  by rewrite map_app, fold_left_app.
Qed.
End Walk.

(** *** The store after a walk *)

Lemma stored_default s key r :
  stored s key r ↔ r ∈ default [] (filenameToRecordMap s !! key).
Proof.
  unfold stored. split.
  - intros (records & -> & Hr). done.
  - destruct (filenameToRecordMap s !! key) as [records|]; simpl.
    + intros Hr. by exists records.
    + by intros ?%elem_of_nil.
Qed.

Lemma store_push_keeps m e key r :
  r ∈ default [] (m !! key) → r ∈ default [] (store_push m e !! key).
Proof.
  intros Hr. unfold store_push.
  destruct (decide (e.1 = key)) as [<-|Hne].
  - rewrite lookup_insert_eq. simpl. apply elem_of_app. by left.
  - by rewrite lookup_insert_ne.
Qed.

Lemma store_push_adds m key r :
  r ∈ default [] (store_push m (key, r) !! key).
Proof.
  unfold store_push. simpl. rewrite lookup_insert_eq. simpl.
  apply elem_of_app. right. by apply list_elem_of_singleton.
Qed.

Lemma fold_store_push_keeps l :
  ∀ m key r,
    r ∈ default [] (m !! key) →
    r ∈ default [] (fold_left store_push l m !! key).
Proof.
  induction l as [|e l IH]; intros m key r Hr; [done|].
  simpl. by apply IH, store_push_keeps.
Qed.

Lemma fold_store_push_adds l :
  ∀ m key r,
    (key, r) ∈ l → r ∈ default [] (fold_left store_push l m !! key).
Proof.
  induction l as [|e l IH]; intros m key r Hin.
  - by apply elem_of_nil in Hin.
  - simpl. apply elem_of_cons in Hin as [<-|Hin].
    + apply fold_store_push_keeps, store_push_adds.
    + by apply IH.
Qed.

(** The walk reads the overlay tables and the mode of the keys, and
    nothing else of the manager. *)
Lemma indexed_from_same_config `{ABI} s s' rootFolder pre preK l c v :
  relativeFolderToLanguageIdMap s = relativeFolderToLanguageIdMap s' →
  relativeFolderToCategoryMap s = relativeFolderToCategoryMap s' →
  searchByRelativePaths s = searchByRelativePaths s' →
  indexed_from s rootFolder pre preK l c v
  = indexed_from s' rootFolder pre preK l c v.
Proof.
  intros Hlang Hcat Hmode. destruct v as [[dirs name] st].
  unfold indexed_from.
  assert (key_folders s dirs = key_folders s' dirs) as ->.
  { unfold key_folders, is_category_folder. by rewrite Hcat. }
  assert (category_below s dirs c = category_below s' dirs c) as ->.
  { unfold category_below. by rewrite Hcat. }
  assert (∀ rel, language_below s rel dirs l = language_below s' rel dirs l)
    as ->.
  { revert l. induction dirs as [|d dirs IH]; intros l rel; [done|].
    simpl. by rewrite Hlang, IH. }
  by rewrite (makeKey_same_mode s s' _ Hmode).
Qed.

Section AddRootFolder.
Context `{ABI}.
Variables (w : World) (rootFolder : string) (s : Impl).

Lemma addRootFolder_spec :
  addRootFolder w rootFolder s
  = with_records
      (fold_left store_push
         (map (indexed s rootFolder)
              (visited (opendir w (combine [rootFolder; ""]))))
         (filenameToRecordMap s))
      (with_rootFolders (rootFoldersList s ++ [rootFolder]) s).
Proof.
  unfold addRootFolder.
  set (s1 := with_rootFolders _ s).
  change s1 with (with_records (filenameToRecordMap s) s1) at 1.
  rewrite addFolderRecursive_spec.
  f_equal. f_equal. apply map_ext. intros v.
  by apply indexed_from_same_config.
Qed.

Lemma addRootFolder_stored v :
  v ∈ visited (opendir w (combine [rootFolder; ""])) →
  stored (addRootFolder w rootFolder s)
    (indexed s rootFolder v).1 (indexed s rootFolder v).2.
Proof.
  intros Hv. apply stored_default. rewrite addRootFolder_spec. simpl.
  apply fold_store_push_adds.
  destruct (indexed s rootFolder v) as [key r] eqn:Hkr.
  simpl. rewrite <- Hkr. by apply list_elem_of_fmap_2.
Qed.

Lemma addRootFolder_keeps key r :
  stored s key r → stored (addRootFolder w rootFolder s) key r.
Proof.
  rewrite !stored_default, addRootFolder_spec. simpl.
  apply fold_store_push_keeps.
Qed.
End AddRootFolder.

End WalkFacts.

(** ** The resolver *)

Module ResolverFacts.
Import PathFacts.

Lemma set_insert_elem before x l y :
  y ∈ set_insert before x l → y = x ∨ y ∈ l.
Proof.
  induction l as [|z l IH]; simpl.
  - intros ->%list_elem_of_singleton. by left.
  - destruct (before x z).
    + intros [->|Hy]%elem_of_cons; [by left|by right].
    + destruct (before z x); [|by right].
      intros [->|Hy]%elem_of_cons.
      * right. by left.
      * destruct (IH Hy) as [->|Hl]; [by left|right; by right].
Qed.

Lemma set_insert_keeps before x l y : y ∈ l → y ∈ set_insert before x l.
Proof.
  induction l as [|z l IH]; simpl; [by intros ?%elem_of_nil|].
  intros Hy. destruct (before x z); [by right|].
  destruct (before z x); [|done].
  apply elem_of_cons in Hy as [->|Hy]; [by left|right; by apply IH].
Qed.

Lemma set_insert_nonempty before x l : set_insert before x l ≠ [].
Proof.
  destruct l as [|z l]; simpl; [done|].
  destruct (before x z); [done|]. by destruct (before z x).
Qed.

Section Resolver.
Variable s : Impl.

(** The source's test, as a proposition. *)
Lemma admissible_iff r :
  admissible s r = true ↔
  (currentLanguageId s = "" ∨ languageId r = currentLanguageId s) ∧
  (category r = "" ∨ category r ∈ enabledCategories s).
Proof.
  unfold admissible.
  rewrite andb_true_iff, !orb_true_iff, !String.eqb_eq, bool_decide_eq_true.
  done.
Qed.

Lemma collect_elem records :
  ∀ cands r,
    r ∈ collect s records cands →
    r ∈ cands ∨ (r ∈ records ∧ admissible s r = true).
Proof.
  unfold collect.
  induction records as [|x records IH]; intros cands r; simpl; [by left|].
  intros Hr. destruct (IH _ _ Hr) as [Hc|[Hin Hadm]].
  - destruct (admissible s x) eqn:Hx; [|by left].
    apply set_insert_elem in Hc as [->|Hc]; [|by left].
    right. split; [by left|done].
  - right. split; [by right|done].
Qed.

Lemma collect_keeps records :
  ∀ cands, cands ≠ [] → collect s records cands ≠ [].
Proof.
  unfold collect.
  induction records as [|x records IH]; intros cands Hc; simpl; [done|].
  apply IH. destruct (admissible s x); [apply set_insert_nonempty|done].
Qed.

Lemma collect_nonempty records :
  ∀ cands r,
    r ∈ records → admissible s r = true → collect s records cands ≠ [].
Proof.
  induction records as [|x records IH]; intros cands r Hin Hadm.
  - by apply elem_of_nil in Hin.
  - apply elem_of_cons in Hin as [<-|Hin].
    + unfold collect. simpl. rewrite Hadm.
      apply (collect_keeps records), set_insert_nonempty.
    + unfold collect. simpl. by apply (IH _ r).
Qed.

(** What the search returns was stored under the key of one of the
    search roots and passed the test. *)
Lemma search_elem key roots r :
  r ∈ search s key roots [] →
  admissible s r = true ∧
  ∃ searchRoot,
    searchRoot ∈ roots ∧
    stored s (makeKey s (combine [searchRoot; key])) r.
Proof.
  induction roots as [|root roots IH]; simpl.
  - by intros ?%elem_of_nil.
  - destruct (filenameToRecordMap s !! makeKey s (combine [root; key]))
      as [records|] eqn:Hlook.
    + destruct records as [|x records].
      * intros Hr. destruct (IH Hr) as (Hadm & root' & Hin & Hst).
        split; [done|]. exists root'. split; [by right|done].
      * destruct (collect s (x :: records) []) as [|c cands] eqn:Hcol.
        -- intros Hr. destruct (IH Hr) as (Hadm & root' & Hin & Hst).
           split; [done|]. exists root'. split; [by right|done].
        -- rewrite <- Hcol. intros Hr.
           apply collect_elem in Hr as [Hr|[Hin Hadm]];
             [by apply elem_of_nil in Hr|].
           split; [done|]. exists root. split; [by left|].
           by exists (x :: records).
    + intros Hr. destruct (IH Hr) as (Hadm & root' & Hin & Hst).
      split; [done|]. exists root'. split; [by right|done].
Qed.

(** A record that is stored under the key of a search root and passes
    the test makes the search succeed. *)
Lemma search_nonempty key roots searchRoot r :
  searchRoot ∈ roots →
  stored s (makeKey s (combine [searchRoot; key])) r →
  admissible s r = true →
  search s key roots [] ≠ [].
Proof.
  intros Hroot (records & Hlook & Hin) Hadm.
  induction roots as [|root roots IH]; [by apply elem_of_nil in Hroot|].
  simpl.
  destruct (filenameToRecordMap s !! makeKey s (combine [root; key]))
    as [records'|] eqn:Hlook'.
  - destruct records' as [|x records'].
    + apply elem_of_cons in Hroot as [->|Hroot]; [|by apply IH].
      rewrite Hlook in Hlook'. injection Hlook' as ->.
      by apply elem_of_nil in Hin.
    + destruct (collect s (x :: records') []) as [|c cands] eqn:Hcol;
        [|done].
      apply elem_of_cons in Hroot as [->|Hroot]; [|by apply IH].
      rewrite Hlook in Hlook'. injection Hlook' as ->.
      by destruct (collect_nonempty _ [] r Hin Hadm).
  - apply elem_of_cons in Hroot as [->|Hroot]; [|by apply IH].
    by rewrite Hlook in Hlook'.
Qed.

Lemma findFileRecord_found filename r :
  findFileRecord s filename = Some r →
  admissible s r = true ∧ stored_for s filename r.
Proof.
  unfold findFileRecord, stored_for. intros Hhead.
  apply (search_elem (makeKey s filename) (searchRootsList s)).
  destruct (search s _ _ _) as [|x l]; [done|].
  injection Hhead as ->. by left.
Qed.

Lemma findFileRecord_finds filename r :
  stored_for s filename r →
  admissible s r = true →
  findFileRecord s filename ≠ None.
Proof.
  intros (root & Hroot & Hst) Hadm. unfold findFileRecord.
  pose proof (search_nonempty _ _ _ _ Hroot Hst Hadm) as Hne.
  by destruct (search s _ _ _).
Qed.

Lemma exists_finds filename r :
  stored_for s filename r → admissible s r = true →
  exists_ s filename = true.
Proof.
  intros Hst Hadm. unfold exists_.
  pose proof (findFileRecord_finds _ _ Hst Hadm).
  by destruct (findFileRecord s filename).
Qed.
End Resolver.

End ResolverFacts.

(** ** Invariants of the reachable states *)

Module ReachableFacts.

Lemma with_records_id s : with_records (filenameToRecordMap s) s = s.
Proof. by destruct s. Qed.

Section Frames.
Context `{ABI}.

Lemma enumerate_unfold archivePath rootFolder e rest s :
  enumerate archivePath rootFolder e rest s
  = match z_filePos e with
    | None => (Throws, s)
    | Some zipFilePos =>
        match filenameToRecordMap s !! z_name e with
        | Some _ => (Throws, s)
        | None =>
            let s' :=
              if shouldAddRecord rootFolder (z_name e)
              then let kr :=
                     archiveRecord archivePath rootFolder s e zipFilePos in
                   push_back kr.1 kr.2 s
              else s in
            match rest with
            | ZEnd => (Returns (), s')
            | ZError => (Throws, s')
            | ZNext e' rest' =>
                enumerate archivePath rootFolder e' rest' s'
            end
        end
    end.
Proof. by destruct rest. Qed.

(** The indexers change the record store only. *)
Lemma enumerate_frame archivePath rootFolder rest :
  ∀ e s, ∃ m,
    (enumerate archivePath rootFolder e rest s).2 = with_records m s.
Proof.
  induction rest as [| |e' rest IH]; intros e s;
    rewrite enumerate_unfold;
    (destruct (z_filePos e) as [pos|];
     [|exists (filenameToRecordMap s); by rewrite with_records_id]);
    (destruct (filenameToRecordMap s !! z_name e);
     [exists (filenameToRecordMap s); by rewrite with_records_id|]);
    cbv zeta;
    match goal with
    | |- context [if ?b then ?x else s] =>
        assert (∃ m, (if b then x else s) = with_records m s)
          as [m1 Hm1]
          by (destruct b;
              [by eexists
              |exists (filenameToRecordMap s);
               by rewrite with_records_id]);
        rewrite Hm1
    end.
  - by exists m1.
  - by exists m1.
  - destruct (IH e' (with_records m1 s)) as [m Hm]. exists m. by rewrite Hm.
Qed.

Lemma addArchive_frame archivePath rootFolder w s :
  ∃ m, (addArchive archivePath rootFolder w s).1.2 = with_records m s.
Proof.
  unfold addArchive.
  destruct (unzOpen w archivePath) as [[| |e rest]|]; simpl;
    try (exists (filenameToRecordMap s); by rewrite with_records_id).
  destruct (enumerate_frame archivePath rootFolder rest e s) as [m Hm].
  exists m. rewrite <- Hm.
  by destruct (enumerate archivePath rootFolder e rest s) as [[[]|] s'].
Qed.

(** The stream operations change the table of open streams only, and
    file a record under the handle it carries. *)
Lemma getStream_frame w random s filename :
  let s' := (getStream w random s filename).1.2 in
  s' = s ∨
  ∃ streamRecord,
    randomValue streamRecord = to_int random ∧
    openStreams s !! to_int random = None ∧
    (getStream w random s filename).1.1 = Returns (Some (to_int random)) ∧
    s' = with_streams
           (<[to_int random := streamRecord]> (openStreams s)) s.
Proof.
  unfold getStream.
  destruct (findFileRecord s filename) as [fileRecord|]; [|by left].
  destruct (fileType fileRecord).
  - destruct (fopen w (filePath fileRecord)) as [content|]; [|by left].
    destruct (openStreams s !! to_int random) eqn:Hfree; [by left|].
    right. eexists. (split; [|split; [|split]]); [| | |reflexivity]; done.
  - destruct (unzOpen w (zipFilePath fileRecord)) as [entries|]; [|by left].
    destruct (unzGoToFilePos entries (zipFilePos fileRecord)) as [e|];
      [|by left].
    destruct (z_opens e); [|by left].
    destruct (openStreams s !! to_int random) eqn:Hfree; [by left|].
    right. eexists. (split; [|split; [|split]]); [| | |reflexivity]; done.
  - destruct (unzOpen w (zipFilePath fileRecord)) as [entries|]; [|by left].
    destruct (unzGoToFilePos entries (zipFilePos fileRecord)) as [e|];
      [|by left].
    destruct (z_opens e); [|by left].
    destruct (openStreams s !! to_int random) eqn:Hfree; [by left|].
    right. eexists. (split; [|split; [|split]]); [| | |reflexivity]; done.
Qed.

Lemma readDataHandle_frame s handle size :
  let s' := (readDataHandle s handle size).2 in
  s' = s ∨
  ∃ old new,
    openStreams s !! handle = Some old ∧
    randomValue new = randomValue old ∧
    s' = with_streams (<[handle := new]> (openStreams s)) s.
Proof.
  unfold readDataHandle, getStreamRecord.
  destruct (openStreams s !! handle) as [sr|] eqn:Hsr; [|by left].
  destruct (fileType (fileRecord sr)).
  - destruct (file sr); [|by left]. right. eexists _, _. (split; [|split]); [| |reflexivity]; done.
  - destruct (zipFile sr); [|by left]. right. eexists _, _. (split; [|split]); [| |reflexivity]; done.
  - destruct (zipFile sr); [|by left]. right. eexists _, _. (split; [|split]); [| |reflexivity]; done.
Qed.

Lemma seek_frame s handle offset whence :
  let s' := (seek s handle offset whence).2 in
  s' = s ∨
  ∃ old new,
    openStreams s !! handle = Some old ∧
    randomValue new = randomValue old ∧
    s' = with_streams (<[handle := new]> (openStreams s)) s.
Proof.
  unfold seek, getStreamRecord.
  destruct (openStreams s !! handle) as [sr|] eqn:Hsr; [|by left].
  destruct (fileType (fileRecord sr)); try by left.
  destruct (file sr) as [f|]; [|by left].
  destruct (fseek f offset whence) as [ret f'].
  right. eexists _, _. (split; [|split]); [| |reflexivity]; done.
Qed.

Lemma closeFile_frame s handle :
  let s' := (closeFile s handle).1.2 in
  s' = s ∨
  ∃ old,
    openStreams s !! handle = Some old ∧
    s' = with_streams (delete (randomValue old) (openStreams s)) s.
Proof.
  unfold closeFile, getStreamRecord.
  destruct (openStreams s !! handle) as [sr|] eqn:Hsr; [|by left].
  right. eexists. split; [|reflexivity]. done.
Qed.

Lemma step_well_formed s s' : step s s' → well_formed s → well_formed s'.
Proof.
  intros Hstep [Hroot Hhandles].
  destruct Hstep
    as [s|b s|w rootFolder s|l folder s|l s|c folder s|c s|c s|b s|r s
       |w path rootFolder s|w random name s|s handle size|s handle
       |s handle offset whence];
    try (split; [exact Hroot|exact Hhandles]).
  - split; [by left|exact Hhandles].
  - rewrite WalkFacts.addRootFolder_spec. by split.
  - split; [|exact Hhandles]. simpl. apply elem_of_app. by left.
  - destruct (addArchive_frame path rootFolder w s) as [m ->]. by split.
  - destruct (getStream_frame w random s name)
      as [->|(sr & Hsr & Hfree & _ & ->)]; [by split|].
    split; [exact Hroot|]. intros h sr'. simpl.
    destruct (decide (to_int random = h)) as [<-|Hne].
    + rewrite lookup_insert_eq. by intros [= <-].
    + rewrite lookup_insert_ne by done. apply Hhandles.
  - destruct (readDataHandle_frame s handle size)
      as [->|(old & new & Hold & Hnew & ->)]; [by split|].
    split; [exact Hroot|]. intros h sr'. simpl.
    destruct (decide (handle = h)) as [<-|Hne].
    + rewrite lookup_insert_eq. intros [= <-].
      rewrite Hnew. by apply Hhandles.
    + rewrite lookup_insert_ne by done. apply Hhandles.
  - destruct (closeFile_frame s handle) as [->|(old & Hold & ->)];
      [by split|].
    split; [exact Hroot|]. intros h sr'. simpl.
    intros [_ Hsr]%lookup_delete_Some. by apply Hhandles.
  - destruct (seek_frame s handle offset whence)
      as [->|(old & new & Hold & Hnew & ->)]; [by split|].
    split; [exact Hroot|]. intros h sr'. simpl.
    destruct (decide (handle = h)) as [<-|Hne].
    + rewrite lookup_insert_eq. intros [= <-].
      rewrite Hnew. by apply Hhandles.
    + rewrite lookup_insert_ne by done. apply Hhandles.
Qed.

Lemma reachable_well_formed s : reachable s → well_formed s.
Proof.
  induction 1 as [|s s' _ IH Hstep].
  - split; [by left|]. intros h sr. simpl. by rewrite lookup_empty.
  - by apply (step_well_formed s s').
Qed.
End Frames.

End ReachableFacts.

(** ** The resolver's filter *)

Section Admissibility.
Import ResolverFacts.

Lemma stored_for_disableCategory s c filename r :
  stored_for (disableCategory c s) filename r ↔ stored_for s filename r.
Proof. reflexivity. Qed.

(** C2.  A record stored under the looked-up key enters the candidate
    set exactly when the current language is empty or is the record's,
    and the record's category is empty or enabled.  What
    [findFileRecord] returns was stored under the looked-up key and
    passed this test, and it returns a record whenever one passes.
    After [disableCategory c] no record of the category [c] is
    returned, and a record without category that could be a candidate
    before still is one, so that the look-up still succeeds. *)
Theorem admissibility_filter (s : Impl) (filename c : string)
    (r : FileRecord) :
  (admissible s r = true ↔
   (currentLanguageId s = "" ∨ languageId r = currentLanguageId s) ∧
   (category r = "" ∨ category r ∈ enabledCategories s)) ∧
  (findFileRecord s filename = Some r →
   stored_for s filename r ∧ admissible s r = true) ∧
  (stored_for s filename r → admissible s r = true →
   ∃ r', findFileRecord s filename = Some r') ∧
  (c ≠ "" → category r = c →
   findFileRecord (disableCategory c s) filename ≠ Some r) ∧
  (category r = "" → stored_for s filename r → admissible s r = true →
   stored_for (disableCategory c s) filename r ∧
   admissible (disableCategory c s) r = true ∧
   exists_ (disableCategory c s) filename = true).
Proof.
  split; [apply admissible_iff|].
  split; [intros Hfind; split; by apply (findFileRecord_found s filename)|].
  split.
  { intros Hst Hadm. pose proof (findFileRecord_finds s _ _ Hst Hadm).
    destruct (findFileRecord s filename) as [r'|]; [by exists r'|done]. }
  split.
  - intros Hc Hr Hfind.
    apply findFileRecord_found in Hfind as [Hadm _].
    apply admissible_iff in Hadm. destruct Hadm as [_ [Hempty|Hin]].
    + congruence.
    + simpl in Hin. apply elem_of_difference in Hin as [_ Hin].
      apply Hin, elem_of_singleton. done.
  - intros Hcat Hst Hadm.
    assert (admissible (disableCategory c s) r = true) as Hadm'.
    { apply admissible_iff in Hadm as [Hlang _].
      apply admissible_iff. split; [exact Hlang|by left]. }
    split; [done|]. split; [done|].
    by apply (exists_finds (disableCategory c s) filename r).
Qed.
End Admissibility.

(** C2, on the installation: with "HD" disabled, "sprite.png" resolves,
    and not to the record of the "HD" folder. *)
Lemma admissibility_filter_witness :
  findFileRecord (disableCategory "HD" Scene.indexed_state) "sprite.png"
    ≠ Some Scene.sprite_hd ∧
  exists_ (disableCategory "HD" Scene.indexed_state) "sprite.png" = true.
Proof.
  split.
  - apply (admissibility_filter Scene.indexed_state "sprite.png" "HD"
             Scene.sprite_hd); [discriminate|reflexivity].
  - apply (admissibility_filter Scene.indexed_state "sprite.png" "HD"
             Scene.sprite_plain); [reflexivity| |reflexivity].
    exists "". split; [left|].
    exists [Scene.sprite_hd; Scene.sprite_plain].
    split; [vm_compute; reflexivity|]. right. left.
Defined.

(** ** Keys of the files of a root folder *)

Section RootFolder.
Context `{ABI}.
Import PathFacts WalkFacts ResolverFacts ReachableFacts.

Lemma key_folders_app s dirs1 dirs2 :
  key_folders s (dirs1 ++ dirs2) = key_folders s dirs1 ++ key_folders s dirs2.
Proof. apply List.filter_app. Qed.

Lemma key_folders_all s dirs :
  (∀ d, d ∈ dirs → relativeFolderToCategoryMap s !! d = None) →
  key_folders s dirs = dirs.
Proof.
  induction dirs as [|d dirs IH]; intros Hnone; [done|].
  unfold key_folders. simpl. rewrite is_category_folder_lookup.
  rewrite (Hnone d) by (by left). simpl. f_equal.
  apply IH. intros d' Hd'. apply Hnone. by right.
Qed.

(** C6, as the code has it.  [addRootFolder] appends one record for
    each file the walk visits, under the key [makeKey] makes of the path
    of the file without the directories that are category folders: these
    are left out, every other directory on the way stays in that path
    with its name.  The record keeps the full relative path.  With keys
    by relative path the key is that path in lower case with '/' for
    '\', so the names of the other directories are in the key; with keys
    by base name the key is the name of the file in lower case and no
    directory is in it.  Either way the key of a file is the same with
    and without a category folder on its way. *)
Theorem category_folders_are_transparent (w : World) (rootFolder : string)
    (s : Impl) (dirs : list string) (name : string) (st : option Z) :
  (dirs, name, st) ∈ visited (opendir w (combine [rootFolder; ""])) →
  filenameToRecordMap (addRootFolder w rootFolder s)
  = fold_left store_push
      (map (indexed s rootFolder)
           (visited (opendir w (combine [rootFolder; ""]))))
      (filenameToRecordMap s) ∧
  (indexed s rootFolder (dirs, name, st)).1
  = makeKey s
      (combine
         (List.filter
            (λ d, bool_decide (relativeFolderToCategoryMap s !! d = None))
            dirs ++ [name])) ∧
  relativePath (indexed s rootFolder (dirs, name, st)).2
  = combine (dirs ++ [name]) ∧
  stored (addRootFolder w rootFolder s)
    (indexed s rootFolder (dirs, name, st)).1
    (indexed s rootFolder (dirs, name, st)).2 ∧
  (searchByRelativePaths s = true →
   (indexed s rootFolder (dirs, name, st)).1
   = normalize (transform tolower (combine (key_folders s dirs ++ [name])))) ∧
  (searchByRelativePaths s = false → name ≠ "" →
   (indexed s rootFolder (dirs, name, st)).1
   = transform tolower (basename name)) ∧
  (∀ outer d inner st',
     dirs = outer ++ d :: inner →
     is_Some (relativeFolderToCategoryMap s !! d) →
     (indexed s rootFolder (dirs, name, st)).1
     = (indexed s rootFolder (outer ++ inner, name, st')).1).
Proof.
  intros Hv. split; [by rewrite addRootFolder_spec|].
  split.
  { simpl. do 2 f_equal. unfold key_folders. f_equal.
    apply List.filter_ext. intros d. rewrite is_category_folder_lookup.
    by destruct (relativeFolderToCategoryMap s !! d). }
  split; [done|].
  split; [by apply addRootFolder_stored|].
  split; [intros Hmode; simpl; by rewrite (makeKey_relative_mode s _ Hmode)|].
  split.
  { intros Hmode Hname. simpl. rewrite (makeKey_basename_mode s _ Hmode).
    by rewrite (basename_combine_snoc _ _ Hname). }
  intros outer d inner st' -> Hd. simpl. do 2 f_equal.
  rewrite !key_folders_app. do 2 f_equal.
  unfold key_folders. simpl.
  rewrite is_category_folder_lookup. by destruct Hd as [c ->].
Qed.

End RootFolder.

(** *** The installation *)

Lemma configured_reachable : reachable (H := LP64) Scene.configured.
Proof.
  unfold Scene.configured.
  eapply reachable_step; [|apply step_enableCategory].
  eapply reachable_step; [|apply step_addLanguageFolder].
  eapply reachable_step; [|apply step_addLanguageFolder].
  eapply reachable_step; [|apply step_addCategoryFolder].
  apply reachable_constructed.
Qed.

Lemma sprite_hd_visited :
  (["HD"], "Sprite.png", Some 10)
  ∈ visited (opendir Scene.world (combine ["root"; ""])).
Proof. vm_compute. repeat constructor. Qed.

Lemma broken_visited :
  ([], "broken.bin", None)
  ∈ visited (opendir Scene.world (combine ["root"; ""])).
Proof. vm_compute. repeat constructor. Qed.

(** C6, on the installation: "Sprite.png" in the category folder "HD"
    has the key of "Sprite.png" in the root folder. *)
Lemma category_folders_are_transparent_witness :
  (indexed (H := LP64) Scene.configured "root"
     (["HD"], "Sprite.png", Some 10)).1
  = (indexed (H := LP64) Scene.configured "root"
       ([], "Sprite.png", Some 7)).1.
Proof.
  destruct (category_folders_are_transparent (H := LP64) Scene.world "root"
              Scene.configured ["HD"] "Sprite.png" (Some 10)
              sprite_hd_visited) as (_ & _ & _ & _ & _ & _ & Hsame).
  apply (Hsame [] "HD" [] (Some 7)); [reflexivity|].
  exists "HD". vm_compute. reflexivity.
Defined.

(** C6 as stated fails: on the installation keys are made of base
    names; the walk visits "x.png" below the directory "fr", which is no
    category folder, and files it under "x.png", the key of an "x.png"
    in the root folder, with no trace of "fr". *)
Lemma plain_folder_not_in_key_counterexample :
  searchByRelativePaths Scene.configured = false ∧
  (["fr"], "x.png", Some 4)
  ∈ visited (opendir Scene.world (combine ["root"; ""])) ∧
  relativeFolderToCategoryMap Scene.configured !! "fr" = None ∧
  (indexed (H := LP64) Scene.configured "root" (["fr"], "x.png", Some 4)).2
  = Scene.x_fr ∧
  stored Scene.indexed_state "x.png" Scene.x_fr ∧
  (indexed (H := LP64) Scene.configured "root" (["fr"], "x.png", Some 4)).1
  = "x.png" ∧
  (indexed (H := LP64) Scene.configured "root" ([], "x.png", Some 4)).1
  = "x.png" ∧
  contains "fr" "x.png" = false.
Proof.
  split; [reflexivity|]. split; [vm_compute; repeat constructor|].
  split; [vm_compute; reflexivity|]. split; [vm_compute; reflexivity|].
  split.
  { exists [Scene.x_hd_en; Scene.x_fr]. split; [vm_compute; reflexivity|].
    right. left. }
  repeat split; vm_compute; reflexivity.
Qed.

(** C3 as stated fails: with keys made of relative paths, the sprite
    below the category folder "HD" is registered and passes the filter,
    and [exists] is false for its full relative path. *)
Lemma exists_full_relative_path_counterexample :
  reachable (H := LP64) (setSearchByRelativePaths true Scene.configured) ∧
  (["HD"], "Sprite.png", Some 10)
  ∈ visited (opendir Scene.world (combine ["root"; ""])) ∧
  (indexed (H := LP64) (setSearchByRelativePaths true Scene.configured)
     "root" (["HD"], "Sprite.png", Some 10)).2 = Scene.sprite_hd ∧
  searchByRelativePaths Scene.indexed_by_path = true ∧
  admissible Scene.indexed_by_path Scene.sprite_hd = true ∧
  relativePath Scene.sprite_hd = "HD/Sprite.png" ∧
  exists_ Scene.indexed_by_path "HD/Sprite.png" = false.
Proof.
  split.
  { eapply reachable_step;
      [apply configured_reachable|apply step_setSearchByRelativePaths]. }
  split; [apply sprite_hd_visited|].
  repeat split; vm_compute; reflexivity.
Qed.

(** ** The order of the candidates *)

Section Candidates.
Variable s : Impl.
Import ResolverFacts.

(** Of two admissible records stored under a key, the second is
    returned if it compares before the first, else the first. *)
Lemma collect_two r1 r2 :
  admissible s r1 = true → admissible s r2 = true →
  head (collect s [r1; r2] [])
  = Some (if candidate_before r2 r1 then r2 else r1).
Proof.
  intros H1 H2. unfold collect. simpl. rewrite H1, H2. simpl.
  destruct (candidate_before r2 r1); [done|].
  by destruct (candidate_before r1 r2).
Qed.

Lemma string_gt_iff a b : string_gt a b = true ↔ String.le b a ∧ a ≠ b.
Proof.
  unfold string_gt, String.ltb, String.le, String.leb.
  destruct (b ?= a)%string eqn:Hcmp.
  - apply String.compare_eq_iff in Hcmp as ->. split; [done|by intros [_ ?]].
  - split; [|done]. intros _. split; [done|]. intros ->.
    pose proof (String.compare_antisym b b) as Hanti.
    rewrite Hcmp in Hanti. done.
  - split; [done|]. by intros [[] _].
Qed.

Lemma string_gt_irrefl a : string_gt a a = false.
Proof.
  destruct (string_gt a a) eqn:Hgt; [|done].
  apply string_gt_iff in Hgt as [_ Hne]. done.
Qed.

Lemma string_gt_trans a b c :
  string_gt a b = true → string_gt b c = true → string_gt a c = true.
Proof.
  intros [Hba Hab]%string_gt_iff [Hcb Hbc]%string_gt_iff.
  apply string_gt_iff. split; [by etrans|].
  intros ->. apply Hbc. by apply (anti_symm String.le).
Qed.

Lemma string_gt_empty a : string_gt "" a = false.
Proof. by destruct a. Qed.

Lemma string_gt_nonempty a : a ≠ "" → string_gt a "" = true.
Proof. by destruct a. Qed.

(** Among records of one language the comparison is that of the
    categories, a strict order, and the head of the candidate set is a
    record of the greatest category offered. *)
Lemma collect_greatest (language : string) records :
  ∀ cands seen,
    (∀ y, y ∈ cands → languageId y = language) →
    (∀ y, y ∈ records → admissible s y = true → languageId y = language) →
    (∀ h y, head cands = Some h → y ∈ seen →
            string_gt (category y) (category h) = false) →
    (cands = [] → seen = []) →
    ∀ h y,
      head (collect s records cands) = Some h →
      y ∈ seen ∨ (y ∈ records ∧ admissible s y = true) →
      string_gt (category y) (category h) = false.
Proof.
  induction records as [|x records IH];
    intros cands seen Hcands Hrecords Hhead Hempty h y.
  - intros Hh [Hy|[Hy _]]; [by apply (Hhead h)|by apply elem_of_nil in Hy].
  - unfold collect. simpl. fold (collect s records).
    destruct (admissible s x) eqn:Hx.
    + intros Hh Hy.
      apply (IH (set_insert candidate_before x cands) (x :: seen)); try done.
      * intros z [->|Hz]%set_insert_elem; [|by apply Hcands].
        apply Hrecords; [by left|done].
      * intros z Hz Hadm. apply Hrecords; [by right|done].
      * assert (languageId x = language) as Hlx
          by (apply Hrecords; [by left|done]).
        intros h' z Hh' Hz.
        destruct cands as [|c cands'].
        { simpl in Hh'. injection Hh' as <-. rewrite (Hempty eq_refl) in Hz.
          apply list_elem_of_singleton in Hz as ->. apply string_gt_irrefl. }
        assert (languageId c = language) as Hlc by (apply Hcands; by left).
        simpl in Hh'. unfold candidate_before in Hh'.
        rewrite Hlx, Hlc, string_gt_irrefl, !orb_false_r in Hh'.
        destruct (string_gt (category x) (category c)) eqn:Hxc.
        -- simpl in Hh'. injection Hh' as <-.
           apply elem_of_cons in Hz as [->|Hz]; [apply string_gt_irrefl|].
           destruct (string_gt (category z) (category x)) eqn:Hzx; [|done].
           rewrite <- (Hhead c z eq_refl Hz). symmetry.
           by apply (string_gt_trans _ (category x)).
        -- assert (h' = c) as ->.
           { destruct (string_gt (category c) (category x));
               simpl in Hh'; by injection Hh'. }
           apply elem_of_cons in Hz as [->|Hz]; [done|].
           by apply (Hhead c).
      * intros Hnil. by destruct (set_insert_nonempty candidate_before x cands).
      * destruct Hy as [Hy|[Hy Hadm]]; [left; by right|].
        apply elem_of_cons in Hy as [->|Hy]; [left; by left|by right].
    + intros Hh Hy. apply (IH cands seen); try done.
      * intros z Hz Hadm. apply Hrecords; [by right|done].
      * destruct Hy as [Hy|[Hy Hadm]]; [by left|].
        apply elem_of_cons in Hy as [->|Hy]; [congruence|by right].
Qed.

(** What the search returns heads the candidates of the records stored
    under the key of one search root. *)
Lemma search_head key roots r :
  head (search s key roots []) = Some r →
  ∃ searchRoot records,
    searchRoot ∈ roots ∧
    filenameToRecordMap s !! makeKey s (combine [searchRoot; key])
    = Some records ∧
    head (collect s records []) = Some r.
Proof.
  induction roots as [|root roots IH]; simpl; [done|].
  destruct (filenameToRecordMap s !! makeKey s (combine [root; key]))
    as [records|] eqn:Hlook.
  - destruct records as [|x records].
    + intros Hr. destruct (IH Hr) as (root' & recs & Hin & Hst & Hh).
      exists root', recs. split; [by right|done].
    + destruct (collect s (x :: records) []) as [|c cands] eqn:Hcol.
      * intros Hr. destruct (IH Hr) as (root' & recs & Hin & Hst & Hh).
        exists root', recs. split; [by right|done].
      * intros Hr. exists root, (x :: records).
        split; [by left|]. split; [done|]. by rewrite Hcol.
  - intros Hr. destruct (IH Hr) as (root' & recs & Hin & Hst & Hh).
    exists root', recs. split; [by right|done].
Qed.

(** With a current language set, every candidate carries it, and the
    record returned is one of the greatest category among the admissible
    records under the key that answered: it has a category whenever one
    of them has. *)
Theorem findFileRecord_with_language_prefers_category filename r :
  currentLanguageId s ≠ "" →
  findFileRecord s filename = Some r →
  ∃ searchRoot records,
    searchRoot ∈ searchRootsList s ∧
    filenameToRecordMap s
      !! makeKey s (combine [searchRoot; makeKey s filename])
    = Some records ∧
    ∀ r', r' ∈ records → admissible s r' = true →
          string_gt (category r') (category r) = false ∧
          (category r' ≠ "" → category r ≠ "").
Proof.
  intros Hlang Hfind.
  destruct (search_head _ _ _ Hfind) as (root & records & Hroot & Hlook & Hh).
  exists root, records. split; [done|]. split; [done|].
  intros r' Hr' Hadm.
  assert (string_gt (category r') (category r) = false) as Hgt.
  { apply (collect_greatest (currentLanguageId s) records [] []); try done.
    - by intros y ?%elem_of_nil.
    - intros y _ [[Hy|Hy] _]%admissible_iff; done.
    - by right. }
  split; [done|]. intros Hne Hempty. rewrite Hempty in Hgt.
  by rewrite (string_gt_nonempty _ Hne) in Hgt.
Qed.
End Candidates.

(** C1, where the code departs from it.  Under the key "x.png" the
    installation holds the record of "HD/en/x.png", of category "HD"
    and language "en", and then the record of "fr/x.png", of no category
    and language "fr".  No language is set and "HD" is enabled, so both
    are candidates, both carry a language, and only the first carries a
    category: the rule prefers the first.  The comparison finds "fr"
    greater than "en" and puts the second in front. *)
Theorem findFileRecord_ignores_category :
  filenameToRecordMap Scene.indexed_state !! "x.png"
  = Some [Scene.x_hd_en; Scene.x_fr] ∧
  admissible Scene.indexed_state Scene.x_hd_en = true ∧
  admissible Scene.indexed_state Scene.x_fr = true ∧
  category Scene.x_hd_en = "HD" ∧ category Scene.x_fr = "" ∧
  languageId Scene.x_hd_en = "en" ∧ languageId Scene.x_fr = "fr" ∧
  candidate_before Scene.x_fr Scene.x_hd_en = true ∧
  candidate_before Scene.x_hd_en Scene.x_fr = true ∧
  findFileRecord Scene.indexed_state "x.png" = Some Scene.x_fr.
Proof. repeat split; vm_compute; reflexivity. Qed.

(** Had the walk met the two files in the other order, the same call
    would return the record of the category "HD". *)
Lemma findFileRecord_depends_on_discovery_order :
  head (collect Scene.indexed_state [Scene.x_fr; Scene.x_hd_en] [])
  = Some Scene.x_hd_en ∧
  head (collect Scene.indexed_state [Scene.x_hd_en; Scene.x_fr] [])
  = Some Scene.x_fr.
Proof. split; by rewrite collect_two. Qed.

(** ** Archives *)

(** C4, where the code departs from it.  The archive "twice.zip" lists
    the entry "Dir/A.png" twice.  [addArchive] looks the raw name up
    among the keys of the store, where the first entry was filed under
    "a.png"; the call returns and the store holds both records. *)
Theorem addArchive_accepts_repeated_entry :
  unzOpen Scene.world "twice.zip"
  = Some (ZNext (Scene.entry "Dir/A.png" 0)
            (ZNext (Scene.entry "Dir/A.png" 1) ZEnd)) ∧
  (addArchive (H := LP64) "twice.zip" "" Scene.world constructed).1.1
  = Returns () ∧
  map filename
    (default []
       (filenameToRecordMap
          (addArchive (H := LP64) "twice.zip" "" Scene.world constructed).1.2
        !! "a.png"))
  = ["Dir/A.png"; "Dir/A.png"].
Proof. repeat split; vm_compute; reflexivity. Qed.

(** The check does stop an archive whose repeated name is its own key. *)
Lemma addArchive_rejects_repeated_key :
  (addArchive (H := LP64) "lower.zip" "" Scene.world constructed).1.1 = Throws.
Proof. vm_compute. reflexivity. Qed.

(** C5, where the code departs from it.  Whatever the archive and the
    way the call ends, [addArchive] never calls [unzClose]: once
    [unzOpen] has succeeded the call leaves the handle open.  On
    "empty.zip", whose first entry cannot be reached, the call throws
    with the archive opened and not closed. *)
Theorem addArchive_leaves_archive_open :
  (∀ (abi : ABI) archivePath rootFolder w s zl,
     unzOpen w archivePath = Some zl →
     (addArchive (H := abi) archivePath rootFolder w s).2
     = [EvUnzOpen archivePath]) ∧
  unzOpen Scene.world "empty.zip" = Some ZEnd ∧
  (addArchive (H := LP64) "empty.zip" "" Scene.world constructed).1.1
  = Throws ∧
  (addArchive (H := LP64) "empty.zip" "" Scene.world constructed).2
  = [EvUnzOpen "empty.zip"].
Proof.
  split; [|repeat split; vm_compute; reflexivity].
  intros abi archivePath rootFolder w s zl Hopen. unfold addArchive.
  rewrite Hopen. destruct zl as [| |e rest]; try done.
  by destruct (enumerate archivePath rootFolder e rest s) as [[[]|] s'].
Qed.

(** ** Streams *)

Module StreamFacts.

(** A successful [getStream] files a record that carries the handle
    under a handle that was free. *)
Lemma getStream_returns w random s filename handle :
  (getStream w random s filename).1.1 = Returns (Some handle) →
  handle = to_int random ∧
  openStreams s !! handle = None ∧
  ∃ streamRecord,
    randomValue streamRecord = handle ∧
    (getStream w random s filename).1.2
    = with_streams (<[handle := streamRecord]> (openStreams s)) s.
Proof.
  unfold getStream.
  destruct (findFileRecord s filename) as [fileRecord|]; [|done].
  destruct (fileType fileRecord).
  - destruct (fopen w (filePath fileRecord)) as [content|]; [|done].
    destruct (openStreams s !! to_int random) eqn:Hfree; [done|].
    simpl. intros [= <-]. split; [done|]. split; [done|].
    eexists. split; [|reflexivity]. done.
  - destruct (unzOpen w (zipFilePath fileRecord)) as [entries|]; [|done].
    destruct (unzGoToFilePos entries (zipFilePos fileRecord)) as [e|];
      [|done].
    destruct (z_opens e); [|done].
    destruct (openStreams s !! to_int random) eqn:Hfree; [done|].
    simpl. intros [= <-]. split; [done|]. split; [done|].
    eexists. split; [|reflexivity]. done.
  - destruct (unzOpen w (zipFilePath fileRecord)) as [entries|]; [|done].
    destruct (unzGoToFilePos entries (zipFilePos fileRecord)) as [e|];
      [|done].
    destruct (z_opens e); [|done].
    destruct (openStreams s !! to_int random) eqn:Hfree; [done|].
    simpl. intros [= <-]. split; [done|]. split; [done|].
    eexists. split; [|reflexivity]. done.
Qed.

(** When the random value is the handle of an open stream, the table
    is left as it is, and the call throws unless it returned before it
    opened anything. *)
Lemma getStream_collision w random s filename :
  is_Some (openStreams s !! to_int random) →
  (getStream w random s filename).1.2 = s ∧
  ((getStream w random s filename).1.1 = Throws ∨
   (getStream w random s filename).1.1 = Returns None ∧
   (getStream w random s filename).2 = []).
Proof.
  intros [sr Hsr]. unfold getStream.
  destruct (findFileRecord s filename) as [fileRecord|];
    [|split; [done|by right]].
  destruct (fileType fileRecord).
  - destruct (fopen w (filePath fileRecord)) as [content|];
      [|split; [done|by right]].
    rewrite Hsr. split; [done|by left].
  - destruct (unzOpen w (zipFilePath fileRecord)) as [entries|];
      [|split; [done|by left]].
    destruct (unzGoToFilePos entries (zipFilePos fileRecord)) as [e|];
      [|split; [done|by left]].
    destruct (z_opens e); [|split; [done|by left]].
    rewrite Hsr. split; [done|by left].
  - destruct (unzOpen w (zipFilePath fileRecord)) as [entries|];
      [|split; [done|by left]].
    destruct (unzGoToFilePos entries (zipFilePos fileRecord)) as [e|];
      [|split; [done|by left]].
    destruct (z_opens e); [|split; [done|by left]].
    rewrite Hsr. split; [done|by left].
Qed.

Section Reads.
Context `{ABI}.

Lemma readDataHandle_absent s handle size :
  openStreams s !! handle = None →
  readDataHandle s handle size = (0, [], s).
Proof.
  intros Hnone. unfold readDataHandle, getStreamRecord. by rewrite Hnone.
Qed.

Lemma closeFile_absent s handle :
  openStreams s !! handle = None → closeFile s handle = (0, s, []).
Proof.
  intros Hnone. unfold closeFile, getStreamRecord. by rewrite Hnone.
Qed.

(** Reading keeps the stream filed under its own handle. *)
Lemma readDataHandle_keeps s handle size :
  (∃ sr, openStreams s !! handle = Some sr ∧ randomValue sr = handle) →
  ∃ sr, openStreams (readDataHandle s handle size).2 !! handle = Some sr ∧
        randomValue sr = handle.
Proof.
  intros (sr & Hsr & Hrv).
  destruct (ReachableFacts.readDataHandle_frame s handle size)
    as [->|(old & new & Hold & Hnew & ->)]; [by exists sr|].
  exists new. simpl. rewrite lookup_insert_eq. split; [done|].
  rewrite Hnew. rewrite Hsr in Hold. by injection Hold as <-.
Qed.

Lemma read_all_keeps sizes :
  ∀ s handle,
    (∃ sr, openStreams s !! handle = Some sr ∧ randomValue sr = handle) →
    ∃ sr, openStreams (read_all s handle sizes) !! handle = Some sr ∧
          randomValue sr = handle.
Proof.
  induction sizes as [|size sizes IH]; intros s handle Hs; [done|].
  apply IH. by apply readDataHandle_keeps.
Qed.

(** Closing a stream filed under its own handle frees the handle. *)
Lemma closeFile_frees s handle :
  (∀ sr, openStreams s !! handle = Some sr → randomValue sr = handle) →
  openStreams (closeFile s handle).1.2 !! handle = None.
Proof.
  intros Hsr. unfold closeFile, getStreamRecord.
  destruct (openStreams s !! handle) as [sr|] eqn:Hlook; [|done].
  simpl. rewrite (Hsr sr eq_refl). apply lookup_delete_eq.
Qed.
End Reads.

End StreamFacts.

Section Streams.
Context `{ABI}.
Import StreamFacts ReachableFacts.

(** C7.  In a reachable state the streams in the table carry pairwise
    different handles.  A [getStream] that returns a handle returns one
    that was not in the table and adds the stream under it, leaving the
    others in place.  When the random value is in the table already the
    table stays as it is and the call throws, unless it had returned
    before opening anything. *)
Theorem open_streams_have_distinct_handles (s : Impl) :
  reachable s →
  (∀ h1 h2 sr1 sr2,
     openStreams s !! h1 = Some sr1 → openStreams s !! h2 = Some sr2 →
     h1 ≠ h2 → randomValue sr1 ≠ randomValue sr2) ∧
  (∀ w random filename handle,
     (getStream w random s filename).1.1 = Returns (Some handle) →
     openStreams s !! handle = None ∧
     ∃ sr, randomValue sr = handle ∧
           openStreams (getStream w random s filename).1.2
           = <[handle := sr]> (openStreams s)) ∧
  (∀ w random filename,
     is_Some (openStreams s !! to_int random) →
     (getStream w random s filename).1.2 = s ∧
     ((getStream w random s filename).1.1 = Throws ∨
      (getStream w random s filename).1.1 = Returns None ∧
      (getStream w random s filename).2 = [])).
Proof.
  intros [_ Hhandles]%reachable_well_formed. split; [|split].
  - intros h1 h2 sr1 sr2 H1 H2 Hne.
    by rewrite (Hhandles _ _ H1), (Hhandles _ _ H2).
  - intros w random filename handle Hret.
    destruct (getStream_returns _ _ _ _ _ Hret)
      as (_ & Hfree & sr & Hsr & ->).
    split; [done|]. by exists sr.
  - intros w random filename. apply getStream_collision.
Qed.

(** C8, as the code has it.  [reset] returns every field of the
    manager to its value after construction, the search roots to the
    single root "", except the table of open streams, which it does not
    touch: a stream that was open is in the table after [reset], and
    the record it refers to is in the record store no more. *)
Theorem reset_clears_all_but_streams (s : Impl) :
  reset s = with_streams (openStreams s) constructed ∧
  enableTrace (reset s) = false ∧
  rootFoldersList (reset s) = [] ∧
  filenameToRecordMap (reset s) = ∅ ∧
  currentLanguageId (reset s) = "" ∧
  relativeFolderToLanguageIdMap (reset s) = ∅ ∧
  relativeFolderToCategoryMap (reset s) = ∅ ∧
  enabledCategories (reset s) = ∅ ∧
  searchByRelativePaths (reset s) = false ∧
  searchRootsList (reset s) = [""] ∧
  openStreams (reset s) = openStreams s ∧
  (∀ handle streamRecord,
     openStreams s !! handle = Some streamRecord →
     openStreams (reset s) !! handle = Some streamRecord ∧
     ∀ key, ¬ stored (reset s) key (fileRecord streamRecord)).
Proof.
  do 11 (split; [done|]). intros handle streamRecord Hsr.
  split; [exact Hsr|]. intros key (records & Hlook & _).
  simpl in Hlook. by rewrite lookup_empty in Hlook.
Qed.

(** C9.  On a handle that is not in the table, [readData] returns 0
    and stores nothing, [closeFile] returns 0, and neither changes the
    manager or throws.  A handle [getStream] returned is not in the
    table after any reads and [closeFile], so a read or a second
    [closeFile] on it returns 0; the same holds after [closeFile] in
    any reachable state. *)
Theorem closed_handle_reads_nothing (s : Impl) (handle size : Z) :
  (openStreams s !! handle = None →
   readDataHandle s handle size = (0, [], s) ∧
   closeFile s handle = (0, s, [])) ∧
  (∀ w random filename sizes,
     (getStream w random s filename).1.1 = Returns (Some handle) →
     ∀ closed,
       closed
       = (closeFile
            (read_all (getStream w random s filename).1.2 handle sizes)
            handle).1.2 →
       openStreams closed !! handle = None ∧
       readDataHandle closed handle size = (0, [], closed) ∧
       closeFile closed handle = (0, closed, [])) ∧
  (reachable s →
   readDataHandle (closeFile s handle).1.2 handle size
   = (0, [], (closeFile s handle).1.2)).
Proof.
  split; [|split].
  - intros Hnone. split.
    + by apply readDataHandle_absent.
    + by apply closeFile_absent.
  - intros w random filename sizes Hret closed ->.
    destruct (getStream_returns _ _ _ _ _ Hret)
      as (_ & _ & sr & Hsr & ->).
    assert (openStreams
              (closeFile
                 (read_all
                    (with_streams (<[handle:=sr]> (openStreams s)) s)
                    handle sizes) handle).1.2 !! handle = None) as Hnone.
    { apply closeFile_frees.
      destruct (read_all_keeps sizes
                  (with_streams (<[handle:=sr]> (openStreams s)) s) handle)
        as (sr' & Hsr' & Hrv').
      - exists sr. simpl. by rewrite lookup_insert_eq.
      - intros sr''. rewrite Hsr'. by intros [= <-]. }
    split; [done|]. split.
    + by apply readDataHandle_absent.
    + by apply closeFile_absent.
  - intros [_ Hhandles]%reachable_well_formed.
    apply readDataHandle_absent, closeFile_frees. apply Hhandles.
Qed.
End Streams.

Lemma indexed_state_reachable : reachable (H := LP64) Scene.indexed_state.
Proof.
  eapply reachable_step;
    [apply configured_reachable|apply step_addRootFolder].
Qed.

Lemma streaming_reachable : reachable (H := LP64) Scene.streaming.
Proof.
  eapply reachable_step;
    [apply indexed_state_reachable
    |apply (step_getStream Scene.world 77 "Sprite.png")].
Qed.

(** C7, on the installation: with the stream 77 open, [getStream] with
    the random value 77 throws and leaves the table as it is. *)
Lemma open_streams_have_distinct_handles_witness :
  (getStream Scene.world 77 Scene.streaming "Sprite.png").1.1 = Throws ∧
  (getStream Scene.world 77 Scene.streaming "Sprite.png").1.2
  = Scene.streaming.
Proof.
  destruct (open_streams_have_distinct_handles (H := LP64) Scene.streaming
              streaming_reachable) as (_ & _ & Hcollision).
  destruct (Hcollision Scene.world 77 "Sprite.png") as [Hsame Hthrows].
  - eexists. vm_compute. reflexivity.
  - split; [vm_compute; reflexivity|exact Hsame].
Defined.

(** C8, on the installation with the stream 77 open, which is
    reachable: after [reset] the table of open streams still holds the
    stream, where the constructed manager has none, and the record the
    stream refers to is stored under no key. *)
Lemma reset_clears_all_but_streams_witness :
  reachable (H := LP64) Scene.streaming ∧
  openStreams constructed !! 77 = None ∧
  openStreams (reset Scene.streaming) !! 77 = Some Scene.hd_stream ∧
  (∀ key, ¬ stored (reset Scene.streaming) key
              (fileRecord Scene.hd_stream)) ∧
  openStreams (reset Scene.streaming) ≠ openStreams constructed.
Proof.
  split; [apply streaming_reachable|].
  split; [reflexivity|].
  assert (openStreams Scene.streaming !! 77 = Some Scene.hd_stream) as Hopen
    by (vm_compute; reflexivity).
  destruct (reset_clears_all_but_streams Scene.streaming)
    as (_ & _ & _ & _ & _ & _ & _ & _ & _ & _ & _ & Hkept).
  destruct (Hkept 77 Scene.hd_stream Hopen) as [Hstill Hgone].
  split; [exact Hstill|]. split; [exact Hgone|].
  intros Heq. rewrite Heq in Hstill. done.
Defined.

(** C9, on the installation: the stream 77 is read to its end and
    closed; a read on the handle then returns 0. *)
Lemma closed_handle_reads_nothing_witness :
  Scene.streaming = (getStream Scene.world 77 Scene.indexed_state
                       "Sprite.png").1.2 ∧
  (readDataHandle (H := LP64) Scene.streaming 77 8).1.1 = 8 ∧
  (readDataHandle (H := LP64)
     (read_all (H := LP64) Scene.streaming 77 [8]) 77 8).1.1 = 2 ∧
  (readDataHandle (H := LP64)
     (read_all (H := LP64) Scene.streaming 77 [8; 8]) 77 8).1.1 = 0 ∧
  readDataHandle (H := LP64)
    (closeFile (read_all (H := LP64) Scene.streaming 77 [8; 8; 8]) 77).1.2
    77 8
  = (0, [],
     (closeFile (read_all (H := LP64) Scene.streaming 77 [8; 8; 8]) 77).1.2).
Proof.
  split; [reflexivity|]. split; [vm_compute; reflexivity|].
  split; [vm_compute; reflexivity|]. split; [vm_compute; reflexivity|].
  destruct (closed_handle_reads_nothing (H := LP64) Scene.indexed_state 77 8)
    as (_ & Hclosed & _).
  apply (Hclosed Scene.world 77 "Sprite.png" [8; 8; 8]
           ltac:(vm_compute; reflexivity) _ eq_refl).
Defined.

(** * Further properties of the code *)

(** ** Path utilities *)

Section PathUtilities.
Import PathFacts.

Lemma drop_last_app a b : b ≠ "" → drop_last (a +:+ b) = a +:+ drop_last b.
Proof.
  intros Hb. induction a as [|c a IH]; [done|].
  rewrite !append_cons. simpl. rewrite IH.
  destruct (a +:+ b) eqn:Hab; [|done].
  destruct a; [|done]. simpl in Hab. by subst.
Qed.

(** What the loop of [combine] has written after the components [l]. *)
Lemma combine_out_from l :
  ∀ out,
    fold_left
      (λ out c, if String.eqb c "" then out else out +:+ c +:+ "/") l out
    = out +:+ combine_out l.
Proof.
  unfold combine_out.
  induction l as [|c l IH] using rev_ind; intros out.
  - by rewrite append_empty_r.
  - rewrite !fold_left_app. simpl. rewrite IH.
    destruct (String.eqb c ""); [done|]. by rewrite append_assoc.
Qed.

Lemma combine_out_cons c l :
  combine_out (c :: l) = component c +:+ combine_out l.
Proof.
  unfold combine_out at 1. simpl. rewrite combine_out_from.
  unfold component. by destruct (String.eqb c "").
Qed.

Lemma combine_cons_nonempty c l :
  c ≠ "" →
  combine (c :: l)
  = if String.eqb (combine l) "" then c else c +:+ "/" +:+ combine l.
Proof.
  intros Hc. rewrite (combine_drop_last (c :: l)), combine_out_cons.
  unfold component. apply String.eqb_neq in Hc. rewrite Hc.
  destruct (combine_out_cases l) as [[-> ->]|[Hne ->]].
  - rewrite append_empty_r. simpl. apply drop_last_snoc.
  - apply String.eqb_neq in Hne. rewrite Hne.
    rewrite <- !append_assoc, drop_last_snoc. by rewrite !append_assoc.
Qed.

Lemma combine_cons_empty l : combine ("" :: l) = combine l.
Proof. by rewrite !combine_drop_last, combine_out_cons. Qed.

Lemma concat_nonempty l :
  Forall (λ c, c ≠ "") l → l ≠ [] → String.concat "/" l ≠ "".
Proof.
  intros Hl Hne. destruct l as [|c l]; [done|].
  apply Forall_cons in Hl as [Hc _]. simpl.
  destruct l; [done|]. by destruct c.
Qed.

(** X1.  [combine] joins the components that are not empty with "/":
    empty components leave no trace, and no "/" is written at either
    end.  Joining a joined path with one more component is joining them
    all. *)
Theorem combine_joins_nonempty_components (l : list string) :
  combine l
  = String.concat "/" (List.filter (λ c, negb (String.eqb c "")) l) ∧
  (∀ x, combine [combine l; x] = combine (l ++ [x])) ∧
  (Forall (λ c, c = "") l → combine l = "").
Proof.
  split; [|split].
  - induction l as [|c l IH]; [done|].
    simpl. destruct (String.eqb_spec c "") as [->|Hc]; simpl.
    + by rewrite combine_cons_empty.
    + rewrite (combine_cons_nonempty c l Hc), IH.
      destruct (List.filter _ l) as [|d l'] eqn:Hfilter; [done|].
      assert (String.concat "/" (d :: l') ≠ "") as Hne.
      { apply concat_nonempty; [|done]. rewrite <- Hfilter.
        apply Forall_forall. intros x [_ Hx]%list_elem_of_In%filter_In.
        apply negb_true_iff in Hx. by apply String.eqb_neq. }
      apply String.eqb_neq in Hne. by rewrite Hne.
  - apply combine_nested.
  - induction 1 as [|c l -> _ IH]; [done|]. by rewrite combine_cons_empty.
Qed.

Lemma basename_from_suffix whole s :
  ∀ acc,
    (∃ d, whole = d +:+ acc) → (∃ d, whole = d +:+ s) →
    ∃ d, whole = d +:+ basename_from acc s.
Proof.
  induction s as [|c s IH]; intros acc Hacc Hs; [done|].
  assert (∃ d, whole = d +:+ s) as Hs'.
  { destruct Hs as [d ->]. exists (d +:+ String c "").
    by rewrite append_assoc. }
  simpl. destruct (is_sep c); by apply IH.
Qed.

(** X2.  [basename] returns the end of the path behind its last '/' or
    '\': a suffix of the path without separator, the whole path when it
    has no separator, and the name when a path without separator at its
    end is followed by "/" and a name. *)
Theorem basename_is_last_component (path : string) :
  (∃ dir, path = dir +:+ basename path) ∧
  sep_free (basename path) = true ∧
  basename (basename path) = basename path ∧
  (sep_free path = true → basename path = path) ∧
  (∀ dir, basename (dir +:+ "/" +:+ path) = basename path) ∧
  (∀ dir, basename (dir +:+ "\" +:+ path) = basename path).
Proof.
  split; [apply basename_from_suffix; by exists ""|].
  split; [apply basename_sep_free|].
  split; [apply basename_id, basename_sep_free|].
  split; [apply basename_id|].
  split; [intros dir; apply (basename_behind_slash dir path)|].
  intros dir. unfold basename.
  assert (∀ acc, basename_from acc (dir +:+ "\" +:+ path)
                 = basename_from path path) as Hany; [|apply Hany].
  induction dir as [|d dir IH]; intros acc; [done|].
  rewrite append_cons. simpl. destruct (is_sep d); apply IH.
Qed.

Lemma contains_cons sub c r :
  contains sub (String c r) = String.prefix sub (String c r) || contains sub r.
Proof. reflexivity. Qed.

(** X3.  [replaceAll] returns the string as it is when [search] does not
    occur in it. *)
Theorem replaceAll_without_occurrence (s search replace : string) :
  contains search s = false → replaceAll s search replace = s.
Proof.
  unfold replaceAll. destruct (String.eqb search ""); [done|].
  induction s as [|c s IH]; [done|].
  rewrite contains_cons. intros [Hhere Hlater]%orb_false_elim.
  by rewrite replaceAll_from_here, Hhere, IH.
Qed.

Lemma replaceAll_without_occurrence_witness :
  replaceAll "res/textures" "\\" "/" = "res/textures".
Proof. apply replaceAll_without_occurrence. reflexivity. Defined.

Lemma no_upper_lower s : no_upper (transform tolower s) = true.
Proof.
  induction s as [|c s IH]; [done|]. simpl. rewrite IH, andb_true_r.
  by_cases_on_char c.
Qed.

(** X4.  [makeKey] yields a canonical key: making the key of a key
    changes nothing, a key holds no '\' and no capital letter, with keys
    by base name it holds no '/' either, and names that differ in the
    case of their letters only have the same key. *)
Theorem makeKey_is_canonical (s : Impl) (filename : string) :
  makeKey s (makeKey s filename) = makeKey s filename ∧
  backslash_free (makeKey s filename) = true ∧
  no_upper (makeKey s filename) = true ∧
  (searchByRelativePaths s = false → sep_free (makeKey s filename) = true) ∧
  (searchByRelativePaths s = false →
   ∀ dir, makeKey s (dir +:+ "/" +:+ filename) = makeKey s filename) ∧
  (∀ other, same_modulo_case filename other →
            makeKey s filename = makeKey s other).
Proof.
  split; [apply makeKey_idemp|].
  split; [apply replace_char_is_backslash_free|].
  split.
  { unfold makeKey. rewrite <- normalize_lower. apply no_upper_lower. }
  split.
  { intros Hmode. rewrite (makeKey_basename_mode s _ Hmode).
    rewrite sep_free_lower. apply basename_sep_free. }
  split.
  { intros Hmode dir. rewrite !(makeKey_basename_mode s _ Hmode).
    change ("/" +:+ filename) with (String "/" filename).
    by rewrite basename_behind_slash. }
  intros other. apply makeKey_modulo_case.
Qed.

Lemma has_dot_app a b : has_dot (a +:+ b) = has_dot a || has_dot b.
Proof.
  induction a as [|c a IH]; [done|].
  rewrite append_cons. simpl. by rewrite IH, orb_assoc.
Qed.

Lemma removeExtension_no_dot s : has_dot s = false → removeExtension s = s.
Proof.
  destruct s as [|c s]; [done|]. simpl.
  intros [Hc ->]%orb_false_elim. by rewrite Hc.
Qed.

Lemma removeExtension_prefix name :
  ∃ tail, name = removeExtension name +:+ tail.
Proof.
  induction name as [|c name [tail IH]]; [by exists ""|]. simpl.
  destruct (has_dot name).
  - exists tail. by rewrite append_cons, <- IH.
  - destruct (Ascii.eqb c "."); [by exists (String c name)|].
    exists "". by rewrite append_empty_r.
Qed.

(** X5.  [removeExtension] cuts a name at its last '.': it returns the
    stem of a stem followed by '.' and an extension without '.', a name
    without '.' as it is, and always a prefix of the name. *)
Theorem removeExtension_removes_last_extension (stem ext : string) :
  has_dot ext = false →
  removeExtension (stem +:+ "." +:+ ext) = stem ∧
  removeExtension ext = ext ∧
  (∀ name, ∃ tail, name = removeExtension name +:+ tail).
Proof.
  intros Hext. split; [|split].
  - induction stem as [|c stem IH].
    + simpl. by rewrite append_empty_l, Hext.
    + rewrite append_cons. simpl. rewrite IH.
      rewrite has_dot_app. simpl. by rewrite orb_true_r.
  - by apply removeExtension_no_dot.
  - apply removeExtension_prefix.
Qed.

Lemma removeExtension_removes_last_extension_witness :
  removeExtension "res.v2/Demo.tar.gz" = "res.v2/Demo.tar".
Proof.
  apply (removeExtension_removes_last_extension "res.v2/Demo.tar" "gz").
  reflexivity.
Defined.

(** X6.  [getRootFolder] returns the start of the path before its first
    '/' or '\': text without separator, the root of a root without
    separator followed by a separator and anything, the whole path when
    it has no separator, and nothing for a path that starts with a
    separator. *)
Theorem getRootFolder_is_first_component (root rest : string) :
  sep_free (getRootFolder rest) = true ∧
  (∃ tail, rest = getRootFolder rest +:+ tail) ∧
  (sep_free root = true →
   getRootFolder root = root ∧
   getRootFolder (root +:+ "/" +:+ rest) = root ∧
   getRootFolder (root +:+ "\" +:+ rest) = root) ∧
  getRootFolder ("/" +:+ rest) = "".
Proof.
  split; [|split; [|split; [|done]]].
  - induction rest as [|c r IH]; [done|]. simpl.
    destruct (is_sep c) eqn:Hc; [done|]. simpl. by rewrite Hc.
  - induction rest as [|c r [tail IH]]; [by exists ""|]. simpl.
    destruct (is_sep c).
    + by exists (String c r).
    + exists tail. by rewrite append_cons, <- IH.
  - intros Hroot. induction root as [|c root IH]; [done|].
    simpl in Hroot. apply andb_prop in Hroot as [Hc Hroot].
    apply negb_true_iff in Hc. destruct (IH Hroot) as (H1 & H2 & H3).
    rewrite (append_cons c root ("/" +:+ rest)),
      (append_cons c root ("\" +:+ rest)).
    assert (∀ r, getRootFolder (String c r) = String c (getRootFolder r))
      as Hcons by (intros r; simpl; by rewrite Hc).
    by rewrite !Hcons, H1, H2, H3.
Qed.

Lemma getRootFolder_is_first_component_witness :
  getRootFolder "res/textures/Demo.png" = "res".
Proof.
  destruct (getRootFolder_is_first_component "res" "textures/Demo.png")
    as (_ & _ & Hroot & _).
  exact (proj1 (proj2 (Hroot eq_refl))).
Defined.
End PathUtilities.

(** ** The walk over a root folder, continued *)

Section WalkProperties.
Context `{ABI}.
Import PathFacts WalkFacts.

Lemma combine_root rootFolder : combine [rootFolder; ""] = rootFolder.
Proof.
  rewrite combine_drop_last. unfold combine_out. simpl.
  destruct (String.eqb_spec rootFolder "") as [->|Hne]; [done|].
  apply drop_last_snoc.
Qed.

Lemma fold_store_push_origin l :
  ∀ m key r,
    r ∈ default [] (fold_left store_push l m !! key) →
    r ∈ default [] (m !! key) ∨ (key, r) ∈ l.
Proof.
  induction l as [|e l IH]; intros m key r Hr; [by left|].
  simpl in Hr. destruct (IH _ _ _ Hr) as [Hm|Hl]; [|right; by right].
  unfold store_push in Hm.
  destruct (decide (e.1 = key)) as [<-|Hne].
  - rewrite lookup_insert_eq in Hm. simpl in Hm.
    apply elem_of_app in Hm as [Hm|Hm]; [by left|].
    apply list_elem_of_singleton in Hm as ->. right. destruct e. by left.
  - rewrite lookup_insert_ne in Hm by done. by left.
Qed.

(** The walk passes by every entry whose name starts with '.'. *)
Lemma visited_entry_visible ep :
  ∀ v, v ∈ visited_entry ep →
       hidden v.1.2 = false ∧ Forall (λ d, hidden d = false) v.1.1.
Proof.
  induction ep as [d_name st|d_name|d_name entries IH] using dirent_tree_ind;
    intros v; simpl.
  - destruct (hidden d_name) eqn:Hd; [by intros ?%elem_of_nil|].
    intros ->%list_elem_of_singleton. by split.
  - destruct (hidden d_name); by intros ?%elem_of_nil.
  - destruct (hidden d_name) eqn:Hd; [by intros ?%elem_of_nil|].
    intros (v' & -> & Hv')%list_elem_of_fmap. simpl.
    apply list_elem_of_In, in_concat in Hv' as (l & Hl & Hv').
    apply in_map_iff in Hl as (ep & <- & Hep).
    apply list_elem_of_In in Hep, Hv'.
    rewrite Forall_forall in IH.
    destruct (IH ep Hep v' Hv') as [Hname Hdirs].
    split; [done|]. by constructor.
Qed.

Lemma visited_visible dp v :
  v ∈ visited dp →
  hidden v.1.2 = false ∧ Forall (λ d, hidden d = false) v.1.1.
Proof.
  destruct dp as [entries|]; simpl; [|by intros ?%elem_of_nil].
  intros Hv. apply list_elem_of_In, in_concat in Hv as (l & Hl & Hv).
  apply in_map_iff in Hl as (ep & <- & Hep).
  apply list_elem_of_In in Hv. by apply (visited_entry_visible ep).
Qed.

(** X7.  [addRootFolder] appends the root to the list of root folders
    and records to the store, and changes nothing else; no record is
    removed.  Each record it adds belongs to a file the walk visited,
    whose name and directories do not start with '.': it is a regular
    file with the name of the entry and the path made of the root and
    its relative path.  A root that cannot be opened adds no record. *)
Theorem addRootFolder_indexes_visible_files (w : World) (rootFolder : string)
    (s : Impl) :
  (∃ m, addRootFolder w rootFolder s
        = with_records m
            (with_rootFolders (rootFoldersList s ++ [rootFolder]) s)) ∧
  (∀ key r, stored s key r → stored (addRootFolder w rootFolder s) key r) ∧
  (∀ key r,
     stored (addRootFolder w rootFolder s) key r →
     stored s key r ∨
     ∃ dirs name st,
       (dirs, name, st) ∈ visited (opendir w rootFolder) ∧
       (key, r) = indexed s rootFolder (dirs, name, st) ∧
       hidden name = false ∧
       Forall (λ d, hidden d = false) dirs ∧
       fileType r = RegularFile ∧
       filename r = name ∧
       filePath r = combine [rootFolder; relativePath r]) ∧
  (opendir w rootFolder = None →
   filenameToRecordMap (addRootFolder w rootFolder s) = filenameToRecordMap s).
Proof.
  split; [eexists; apply addRootFolder_spec|].
  split; [intros key r; apply addRootFolder_keeps|].
  split.
  - intros key r Hst. apply stored_default in Hst.
    rewrite addRootFolder_spec, combine_root in Hst. simpl in Hst.
    apply fold_store_push_origin in Hst as [Hold|Hnew].
    + left. by apply stored_default.
    + right. apply list_elem_of_fmap in Hnew as ([[dirs name] st] & Hkr & Hv).
      exists dirs, name, st. split; [done|]. split; [done|].
      destruct (visited_visible _ _ Hv) as [Hname Hdirs].
      split; [done|]. split; [done|].
      by injection Hkr as -> ->.
  - intros Hnone. rewrite addRootFolder_spec, combine_root, Hnone. done.
Qed.

(** *** Overlays along the path *)

Lemma language_below_snoc s pre dirs :
  ∀ d languageId,
    language_below s (combine pre) (dirs ++ [d]) languageId
    = default (language_below s (combine pre) dirs languageId)
        (relativeFolderToLanguageIdMap s !! combine (pre ++ dirs ++ [d])).
Proof.
  revert pre. induction dirs as [|x dirs IH]; intros pre d languageId.
  - simpl. by rewrite combine_nested.
  - simpl. rewrite combine_nested, IH. by rewrite <- !app_assoc.
Qed.

Lemma language_below_app s pre outer inner languageId :
  language_below s (combine pre) (outer ++ inner) languageId
  = language_below s (combine (pre ++ outer)) inner
      (language_below s (combine pre) outer languageId).
Proof.
  revert pre languageId.
  induction outer as [|x outer IH]; intros pre languageId.
  - by rewrite app_nil_r.
  - simpl. rewrite combine_nested, IH. by rewrite <- !app_assoc.
Qed.

Lemma language_below_none s pre inner languageId :
  (∀ k, (0 < k ≤ length inner)%nat →
        relativeFolderToLanguageIdMap s !! combine (pre ++ take k inner)
        = None) →
  language_below s (combine pre) inner languageId = languageId.
Proof.
  induction inner as [|d inner IH] using rev_ind; intros Hnone; [done|].
  rewrite language_below_snoc.
  pose proof (Hnone (length (inner ++ [d]))) as Hlast.
  rewrite take_ge in Hlast by done.
  rewrite Hlast by (rewrite length_app; simpl; lia). simpl.
  apply IH. intros k Hk.
  rewrite <- (Hnone k) by (rewrite length_app; simpl; lia).
  by rewrite take_app_le by lia.
Qed.

(** X8.  A file takes the language of the innermost directory above it
    whose path from the root, category folders included, is a language
    folder, and no language when there is none. *)
Theorem language_of_innermost_language_folder (s : Impl)
    (rootFolder : string) (outer inner : list string) (name : string)
    (st : option Z) :
  (∀ k, (0 < k ≤ length inner)%nat →
        relativeFolderToLanguageIdMap s !! combine (outer ++ take k inner)
        = None) →
  (∀ language,
     outer ≠ [] →
     relativeFolderToLanguageIdMap s !! combine outer = Some language →
     languageId (indexed s rootFolder (outer ++ inner, name, st)).2
     = language) ∧
  (outer = [] →
   languageId (indexed s rootFolder (outer ++ inner, name, st)).2 = "").
Proof.
  intros Hnone. split.
  - intros language Houter Hlang. simpl.
    rewrite (language_below_app s [] outer inner). simpl.
    rewrite (language_below_none s outer inner) by done.
    destruct outer as [|x outer _] using rev_ind; [done|].
    rewrite (language_below_snoc s [] outer). simpl. by rewrite Hlang.
  - intros ->. simpl. by apply (language_below_none s [] inner).
Qed.

(** X9.  A file takes the category of the innermost directory above it
    whose name is a category folder, and no category when there is
    none. *)
Theorem category_of_innermost_category_folder (s : Impl)
    (rootFolder : string) (outer inner : list string) (name : string)
    (st : option Z) :
  Forall (λ d, relativeFolderToCategoryMap s !! d = None) inner →
  (∀ d tag,
     relativeFolderToCategoryMap s !! d = Some tag →
     category (indexed s rootFolder (outer ++ d :: inner, name, st)).2
     = tag) ∧
  category (indexed s rootFolder (inner, name, st)).2 = "".
Proof.
  intros Hinner.
  assert (∀ c, category_below s inner c = c) as Hnone.
  { unfold category_below. induction Hinner as [|d inner Hd _ IH]; [done|].
    intros c. simpl. rewrite Hd. apply IH. }
  split.
  - intros d c Hd. simpl. unfold category_below.
    rewrite fold_left_app. simpl. rewrite Hd. apply Hnone.
  - apply Hnone.
Qed.

End WalkProperties.

Lemma addRootFolder_indexes_visible_files_witness :
  filenameToRecordMap
    (addRootFolder (H := LP64) Scene.world "nowhere" Scene.configured)
  = filenameToRecordMap Scene.configured.
Proof.
  by apply (addRootFolder_indexes_visible_files (H := LP64) Scene.world
              "nowhere" Scene.configured).
Defined.

Lemma language_of_innermost_language_folder_witness :
  languageId
    (indexed (H := LP64) Scene.configured "root"
       (["HD"; "en"] ++ ["deep"], "x.png", None)).2 = "en".
Proof.
  apply (language_of_innermost_language_folder Scene.configured "root"
           ["HD"; "en"] ["deep"] "x.png" None); [|done|reflexivity].
  intros [|[|k]] Hk; simpl in *; [lia|reflexivity|lia].
Defined.

Lemma category_of_innermost_category_folder_witness :
  category
    (indexed (H := LP64) Scene.configured "root"
       (["fr"] ++ "HD" :: ["en"], "x.png", None)).2 = "HD".
Proof.
  apply (category_of_innermost_category_folder Scene.configured "root"
           ["fr"] ["en"] "x.png" None); [|reflexivity].
  repeat constructor.
Defined.

(** ** Archives, continued *)

Section ArchiveProperties.
Context `{ABI}.
Import PathFacts WalkFacts ReachableFacts.
Variables (archivePath rootFolder : string) (s : Impl).

Lemma stored_with_records m key r :
  stored (with_records m s) key r ↔ r ∈ default [] (m !! key).
Proof. apply stored_default. Qed.

Lemma store_push_lookup_none m e key :
  store_push m e !! key = None → m !! key = None.
Proof.
  unfold store_push. destruct (decide (e.1 = key)) as [<-|Hne].
  - by rewrite lookup_insert_eq.
  - by rewrite lookup_insert_ne.
Qed.

(** The state after one entry, as a store over the manager [s]. *)
Lemma enumerate_step e rest m :
  enumerate archivePath rootFolder e rest (with_records m s)
  = match z_filePos e with
    | None => (Throws, with_records m s)
    | Some zipFilePos =>
        match m !! z_name e with
        | Some _ => (Throws, with_records m s)
        | None =>
            let m' :=
              if shouldAddRecord rootFolder (z_name e)
              then store_push m (archiveRecord archivePath rootFolder s e
                                   zipFilePos)
              else m in
            match rest with
            | ZEnd => (Returns (), with_records m' s)
            | ZError => (Throws, with_records m' s)
            | ZNext e' rest' =>
                enumerate archivePath rootFolder e' rest' (with_records m' s)
            end
        end
    end.
Proof.
  rewrite enumerate_unfold. simpl.
  destruct (z_filePos e) as [pos|]; [|done].
  destruct (m !! z_name e); [done|].
  destruct (shouldAddRecord rootFolder (z_name e)); [|done].
  destruct rest; reflexivity.
Qed.

Lemma enumerate_keeps rest :
  ∀ e m key r,
    r ∈ default [] (m !! key) →
    stored (enumerate archivePath rootFolder e rest (with_records m s)).2
      key r.
Proof.
  induction rest as [| |e' rest IH]; intros e m key r Hr;
    rewrite enumerate_step;
    (destruct (z_filePos e) as [pos|]; [|by apply stored_with_records]);
    (destruct (m !! z_name e) eqn:Hname; [by apply stored_with_records|]);
    cbv zeta;
    assert (r ∈ default []
              ((if shouldAddRecord rootFolder (z_name e)
                then store_push m
                       (archiveRecord archivePath rootFolder s e pos)
                else m) !! key)) as Hr'
      by (destruct (shouldAddRecord rootFolder (z_name e));
          [by apply store_push_keeps|done]).
  - by apply stored_with_records.
  - by apply stored_with_records.
  - by apply IH.
Qed.

Lemma enumerate_origin rest :
  ∀ e m key r,
    stored (enumerate archivePath rootFolder e rest (with_records m s)).2
      key r →
    r ∈ default [] (m !! key) ∨
    ∃ e' pos,
      e' ∈ e :: entries_of rest ∧
      z_filePos e' = Some pos ∧
      shouldAddRecord rootFolder (z_name e') = true ∧
      (key, r) = archiveRecord archivePath rootFolder s e' pos.
Proof.
  assert (∀ e m pos key r,
            z_filePos e = Some pos →
            r ∈ default []
                  ((if shouldAddRecord rootFolder (z_name e)
                    then store_push m
                           (archiveRecord archivePath rootFolder s e pos)
                    else m) !! key) →
            r ∈ default [] (m !! key) ∨
            (shouldAddRecord rootFolder (z_name e) = true ∧
             (key, r) = archiveRecord archivePath rootFolder s e pos))
    as Hpush.
  { intros e m pos key r Hpos Hr.
    destruct (shouldAddRecord rootFolder (z_name e)); [|by left].
    destruct (fold_store_push_origin
                [archiveRecord archivePath rootFolder s e pos] m key r Hr)
      as [Hold|Hnew]; [by left|].
    right. split; [done|]. by apply list_elem_of_singleton in Hnew. }
  induction rest as [| |e' rest IH]; intros e m key r;
    rewrite enumerate_step;
    (destruct (z_filePos e) as [pos|] eqn:Hpos;
     [|intros Hr%stored_with_records; by left]);
    (destruct (m !! z_name e) eqn:Hname;
     [intros Hr%stored_with_records; by left|]);
    cbv zeta.
  - intros Hr%stored_with_records.
    destruct (Hpush _ _ _ _ _ Hpos Hr) as [Hold|[Hadd Hnew]]; [by left|].
    right. exists e, pos. split; [by left|done].
  - intros Hr%stored_with_records.
    destruct (Hpush _ _ _ _ _ Hpos Hr) as [Hold|[Hadd Hnew]]; [by left|].
    right. exists e, pos. split; [by left|done].
  - intros Hr. destruct (IH _ _ _ _ Hr) as [Hm|(e0 & pos0 & Hin & Hrest)].
    + destruct (Hpush _ _ _ _ _ Hpos Hm) as [Hold|[Hadd Hnew]]; [by left|].
      right. exists e, pos. split; [by left|done].
    + right. exists e0, pos0. split; [by right|done].
Qed.

Lemma enumerate_returns rest :
  ∀ e m,
    (enumerate archivePath rootFolder e rest (with_records m s)).1
    = Returns () →
    ends_well rest = true ∧
    ∀ e', e' ∈ e :: entries_of rest →
      m !! z_name e' = None ∧
      ∃ pos,
        z_filePos e' = Some pos ∧
        (shouldAddRecord rootFolder (z_name e') = true →
         stored
           (enumerate archivePath rootFolder e rest (with_records m s)).2
           (archiveRecord archivePath rootFolder s e' pos).1
           (archiveRecord archivePath rootFolder s e' pos).2).
Proof.
  induction rest as [| |e' rest IH]; intros e m;
    rewrite enumerate_step;
    (destruct (z_filePos e) as [pos|] eqn:Hpos; [|done]);
    (destruct (m !! z_name e) eqn:Hname; [done|]);
    cbv zeta.
  - intros _. split; [done|]. intros e0 ->%list_elem_of_singleton.
    split; [done|]. exists pos. split; [done|]. intros ->.
    apply stored_with_records.
    destruct (archiveRecord archivePath rootFolder s e pos) as [k r] eqn:Hkr.
    apply store_push_adds.
  - done.
  - set (m' := if shouldAddRecord rootFolder (z_name e) then _ else m).
    intros Hret. destruct (IH e' m' Hret) as [Hend Hall].
    split; [done|]. intros e0 [->|Hin]%elem_of_cons.
    + split; [done|]. exists pos. split; [done|]. intros Hadd.
      apply enumerate_keeps. subst m'. rewrite Hadd.
      destruct (archiveRecord archivePath rootFolder s e pos) as [k r] eqn:Hkr.
      apply store_push_adds.
    + destruct (Hall e0 Hin) as [Hnone Hrest]. split; [|done].
      subst m'. destruct (shouldAddRecord rootFolder (z_name e)); [|done].
      by apply store_push_lookup_none in Hnone.
Qed.

Lemma prefix_split p :
  ∀ t, String.prefix p t = true →
       t = p +:+ substr_from (String.length p) t.
Proof.
  induction p as [|a p IH]; intros t; [done|].
  destruct t as [|b t]; [done|].
  rewrite prefix_cons. destruct (Ascii.eqb_spec a b) as [->|]; [|done].
  intros Hp. rewrite append_cons. simpl. by rewrite <- (IH t Hp).
Qed.

Lemma addArchive_state w :
  (addArchive archivePath rootFolder w s).1.2 = s ∧
  (addArchive archivePath rootFolder w s).1.1 = Throws ∨
  ∃ e rest,
    unzOpen w archivePath = Some (ZNext e rest) ∧
    (addArchive archivePath rootFolder w s).1.2
    = (enumerate archivePath rootFolder e rest
         (with_records (filenameToRecordMap s) s)).2 ∧
    (addArchive archivePath rootFolder w s).1.1
    = (enumerate archivePath rootFolder e rest
         (with_records (filenameToRecordMap s) s)).1.
Proof.
  unfold addArchive.
  destruct (unzOpen w archivePath) as [[| |e rest]|] eqn:Hopen;
    try (by left).
  right. exists e, rest. split; [done|]. rewrite with_records_id.
  by destruct (enumerate archivePath rootFolder e rest s) as [[[]|] s'].
Qed.

Lemma addArchive_opened w e rest :
  unzOpen w archivePath = Some (ZNext e rest) →
  (addArchive archivePath rootFolder w s).1.2
  = (enumerate archivePath rootFolder e rest
       (with_records (filenameToRecordMap s) s)).2.
Proof.
  intros Hopen. unfold addArchive. rewrite Hopen, with_records_id.
  by destruct (enumerate archivePath rootFolder e rest s) as [[[]|] s'].
Qed.

Lemma addArchive_keeps w key r :
  stored s key r → stored (addArchive archivePath rootFolder w s).1.2 key r.
Proof.
  destruct (addArchive_state w) as [[-> _]|(e & rest & Hopen & -> & _)];
    [done|].
  intros Hst. by apply enumerate_keeps, stored_default.
Qed.

(** What the enumeration stores for the first entries of a list it
    stores for the whole list. *)
Lemma enumerate_prefix short :
  ∀ long e m key r,
    starts_with short long →
    stored (enumerate archivePath rootFolder e short (with_records m s)).2
      key r →
    stored (enumerate archivePath rootFolder e long (with_records m s)).2
      key r.
Proof.
  induction short as [| |e' short IH]; intros long e m key r Hstarts;
    rewrite !enumerate_step;
    (destruct (z_filePos e) as [pos|]; [|done]);
    (destruct (m !! z_name e); [done|]);
    cbv zeta.
  - intros Hr%stored_with_records.
    destruct long; [by apply stored_with_records..|by apply enumerate_keeps].
  - intros Hr%stored_with_records.
    destruct long; [by apply stored_with_records..|by apply enumerate_keeps].
  - destruct long as [| |e'' long]; [done..|].
    destruct Hstarts as [<- Hstarts]. by apply IH.
Qed.

(** X10.  [addArchive] changes the record store only, whether it
    returns or throws, and removes no record.  Nothing is rolled back:
    what the call stores for the first entries of a list is in the
    store after the call on the whole list, however the enumeration of
    the rest ends.  Each record it adds belongs to an entry of the
    archive that is no directory and, when a root folder is given, lies
    below it: a compressed file of this archive that carries the name of
    the entry, with the root folder and "/" cut from its relative
    path. *)
Theorem addArchive_only_adds_entries (w : World) (key : string)
    (r : FileRecord) :
  (∃ m, (addArchive archivePath rootFolder w s).1.2 = with_records m s) ∧
  (stored s key r →
   stored (addArchive archivePath rootFolder w s).1.2 key r) ∧
  (∀ w' short long,
     unzOpen w' archivePath = Some short →
     unzOpen w archivePath = Some long →
     starts_with short long →
     stored (addArchive archivePath rootFolder w' s).1.2 key r →
     stored (addArchive archivePath rootFolder w s).1.2 key r) ∧
  (stored (addArchive archivePath rootFolder w s).1.2 key r →
   stored s key r ∨
   ∃ entries e position,
     unzOpen w archivePath = Some entries ∧
     e ∈ entries_of entries ∧
     z_filePos e = Some position ∧
     (key, r) = archiveRecord archivePath rootFolder s e position ∧
     fileType r = CompressedFile ∧
     zipFilePath r = archivePath ∧
     zipFilePos r = position ∧
     filename r = z_name e ∧
     ends_with_slash (filename r) = false ∧
     (rootFolder = "" → relativePath r = filename r) ∧
     (rootFolder ≠ "" →
      filename r = rootFolder +:+ "/" +:+ relativePath r)).
Proof.
  split; [apply addArchive_frame|].
  split; [apply addArchive_keeps|].
  split.
  { intros w' short long Hshort Hlong Hstarts.
    destruct short as [| |e short].
    - unfold addArchive at 1. rewrite Hshort. apply addArchive_keeps.
    - unfold addArchive at 1. rewrite Hshort. apply addArchive_keeps.
    - destruct long as [| |e' long]; [done..|].
      destruct Hstarts as [<- Hstarts].
      rewrite (addArchive_opened w' e short Hshort),
        (addArchive_opened w e long Hlong).
      by apply enumerate_prefix. }
  destruct (addArchive_state w) as [[-> _]|(e & rest & Hopen & -> & _)];
    [by left|].
  intros Hst.
  apply enumerate_origin in Hst as [Hold|(e0 & pos & Hin & Hpos & Hadd & Hkr)].
  - left. by apply stored_default.
  - right. exists (ZNext e rest), e0, pos.
    split; [done|]. split; [done|]. split; [done|]. split; [done|].
    injection Hkr as -> ->. simpl.
    unfold shouldAddRecord in Hadd.
    apply negb_true_iff, orb_false_elim in Hadd as [Hslash Hroot].
    do 5 (split; [done|]). split.
    + intros ->. done.
    + intros Hne. apply String.eqb_neq in Hne. rewrite Hne in Hroot |- *.
      simpl in Hroot. apply negb_false_iff in Hroot.
      rewrite <- append_assoc. by apply prefix_split.
Qed.

(** X11.  When [addArchive] returns, the archive was opened, has a first
    entry and was read to the end of its list; no entry had a raw name
    that was a key of the store before the call; and the record of each
    entry that is no directory and lies below the root folder is in the
    store, under the key of its path. *)
Theorem addArchive_returns_after_all_entries (w : World) :
  (addArchive archivePath rootFolder w s).1.1 = Returns () →
  ∃ e rest,
    unzOpen w archivePath = Some (ZNext e rest) ∧
    ends_well rest = true ∧
    ∀ e', e' ∈ e :: entries_of rest →
      filenameToRecordMap s !! z_name e' = None ∧
      ∃ zipFilePos,
        z_filePos e' = Some zipFilePos ∧
        (shouldAddRecord rootFolder (z_name e') = true →
         stored (addArchive archivePath rootFolder w s).1.2
           (archiveRecord archivePath rootFolder s e' zipFilePos).1
           (archiveRecord archivePath rootFolder s e' zipFilePos).2).
Proof.
  destruct (addArchive_state w) as [[_ ->]|(e & rest & Hopen & -> & ->)];
    [done|].
  intros Hret. exists e, rest. split; [done|].
  by apply enumerate_returns.
Qed.
End ArchiveProperties.

(** X10, on an archive that fails behind its first entry: the call
    throws and the record of the first entry is in the store. *)
Lemma addArchive_only_adds_entries_witness :
  (addArchive (H := LP64) "pack.zip" "" Scene.torn_world constructed).1.1
  = Throws ∧
  stored
    (addArchive (H := LP64) "pack.zip" "" Scene.torn_world constructed).1.2
    "a.png"
    (archiveRecord (H := LP64) "pack.zip" "" constructed (Scene.entry "a.png" 0)
       {| pos_in_zip_directory := 0; num_of_file := 0 |}).2.
Proof.
  split; [vm_compute; reflexivity|].
  destruct (addArchive_only_adds_entries (H := LP64) "pack.zip" ""
              constructed Scene.torn_world "a.png"
              (archiveRecord (H := LP64) "pack.zip" "" constructed (Scene.entry "a.png" 0)
                 {| pos_in_zip_directory := 0; num_of_file := 0 |}).2)
    as (_ & _ & Hprefix & _).
  apply (Hprefix Scene.short_world
           (ZNext (Scene.entry "a.png" 0) ZEnd)
           (ZNext (Scene.entry "a.png" 0) ZError));
    [reflexivity|reflexivity|by split|].
  eexists. split; [vm_compute; reflexivity|]. left.
Defined.

Lemma addArchive_returns_after_all_entries_witness :
  ∃ e rest,
    unzOpen Scene.world "twice.zip" = Some (ZNext e rest) ∧
    ends_well rest = true.
Proof.
  destruct (addArchive_returns_after_all_entries (H := LP64) "twice.zip" ""
              constructed Scene.world) as (e & rest & Hopen & Hend & _).
  - vm_compute. reflexivity.
  - by exists e, rest.
Defined.

(** ** Files that stay registered *)

Section Registered.
Context `{ABI}.
Import PathFacts WalkFacts ResolverFacts ReachableFacts.

Lemma later_call_frame s s' :
  later_call s s' →
  searchByRelativePaths s' = searchByRelativePaths s ∧
  (∀ key r, stored s key r → stored s' key r) ∧
  ("" ∈ searchRootsList s → "" ∈ searchRootsList s').
Proof.
  intros Hcall.
  destruct Hcall
    as [b s|w rootFolder s|l folder s|l s|c folder s|c s|c s|s|root s
       |w path rootFolder s|w random name s];
    try (split; [reflexivity|split; [intros key r Hst; exact Hst|]];
         intros Hroot; exact Hroot).
  - split; [by rewrite addRootFolder_spec|].
    split; [intros key r; apply addRootFolder_keeps|].
    by rewrite addRootFolder_spec.
  - split; [reflexivity|]. split; [intros key r Hst; exact Hst|].
    intros Hroot. simpl. apply elem_of_app. by left.
  - split; [by destruct (addArchive_frame path rootFolder w s) as [m ->]|].
    split; [intros key r; apply addArchive_keeps|].
    by destruct (addArchive_frame path rootFolder w s) as [m ->].
  - destruct (getStream_frame w random s name)
      as [->|(sr & _ & _ & _ & ->)]; by repeat split.
Qed.

Lemma since_frame s s' :
  since s s' →
  searchByRelativePaths s' = searchByRelativePaths s ∧
  (∀ key r, stored s key r → stored s' key r) ∧
  ("" ∈ searchRootsList s → "" ∈ searchRootsList s').
Proof.
  induction 1 as [s|s s' s'' _ (IHmode & IHstore & IHroot) Hcall];
    [done|].
  destruct (later_call_frame _ _ Hcall) as (Hmode & Hstore & Hroot).
  split; [by rewrite Hmode|]. split.
  - intros key r Hst. by apply Hstore, IHstore.
  - intros Hs. by apply Hroot, IHroot.
Qed.

Lemma since_select ops : ∀ s, since s (fold_left select ops s).
Proof.
  induction ops as [|op ops IH] using rev_ind; intros s; [apply since_now|].
  rewrite fold_left_app. simpl. eapply since_call; [apply IH|].
  destruct op; constructor.
Qed.

Section File.
Variables (w : World) (rootFolder : string) (s0 s : Impl).
Variables (dirs : list string) (name : string) (st : option Z).
Hypothesis Hreach : reachable s0.
Hypothesis Hvisited :
  (dirs, name, st) ∈ visited (opendir w (combine [rootFolder; ""])).
Hypothesis Hsince : since (addRootFolder w rootFolder s0) s.

Lemma registered_mode : searchByRelativePaths s = searchByRelativePaths s0.
Proof.
  destruct (since_frame _ _ Hsince) as (-> & _ & _).
  by rewrite addRootFolder_spec.
Qed.

(** The queries that denote the file: its name in any case with keys by
    base name, its key path in any case with keys by relative path. *)
Lemma registered_query query :
  searchByRelativePaths s0 = false ∧ name ≠ "" ∧
  same_modulo_case query name ∨
  searchByRelativePaths s0 = true ∧
  same_modulo_case query (key_path s0 dirs name) →
  makeKey s query = (indexed s0 rootFolder (dirs, name, st)).1.
Proof.
  pose proof registered_mode as Hmode.
  change ((indexed s0 rootFolder (dirs, name, st)).1)
    with (makeKey s0 (key_path s0 dirs name)).
  rewrite <- (makeKey_same_mode s s0 _ Hmode).
  intros [(Hbase & Hname & Hquery)|(_ & Hquery)].
  - rewrite Hbase in Hmode. rewrite !(makeKey_basename_mode s _ Hmode).
    unfold key_path. rewrite (basename_combine_snoc _ _ Hname).
    by rewrite <- !basename_lower, Hquery.
  - by apply makeKey_modulo_case.
Qed.

Lemma registered_stored_for query :
  makeKey s query = (indexed s0 rootFolder (dirs, name, st)).1 →
  stored_for s query (indexed s0 rootFolder (dirs, name, st)).2.
Proof.
  intros Hkey. destruct (since_frame _ _ Hsince) as (_ & Hstore & Hroot).
  exists "". split.
  - apply Hroot. rewrite addRootFolder_spec. simpl.
    by apply (reachable_well_formed s0).
  - rewrite makeKey_at_empty_root, Hkey.
    by apply Hstore, addRootFolder_stored.
Qed.
End File.

(** C3, as the code has it.  A file the walk of [addRootFolder]
    visited stays registered through every later call but [reset] and a
    change of the mode of the keys: further root folders and archives,
    search roots, overlays, streams.  Whenever its record passes the
    filter of the current language and categories, it exists under its
    bare name in any case when keys are made of base names, and under
    its key path in any case when keys are made of relative paths.  The
    key path is the relative path without the category folders; the two
    are the same when no directory on the way is a category folder. *)
Theorem exists_registered_file (w : World) (rootFolder : string)
    (s0 s : Impl) (dirs : list string) (name : string)
    (st : option Z) (query : string) :
  reachable s0 →
  (dirs, name, st) ∈ visited (opendir w (combine [rootFolder; ""])) →
  since (addRootFolder w rootFolder s0) s →
  admissible s (indexed s0 rootFolder (dirs, name, st)).2 = true →
  (searchByRelativePaths s0 = false → name ≠ "" →
   same_modulo_case query name →
   exists_ s query = true) ∧
  (searchByRelativePaths s0 = true →
   same_modulo_case query (key_path s0 dirs name) →
   exists_ s query = true) ∧
  ((∀ d, d ∈ dirs → relativeFolderToCategoryMap s0 !! d = None) →
   key_path s0 dirs name
   = relativePath (indexed s0 rootFolder (dirs, name, st)).2) ∧
  (∀ ops, since (addRootFolder w rootFolder s0)
            (fold_left select ops (addRootFolder w rootFolder s0))).
Proof.
  intros Hreach Hv Hsince Hadm.
  assert (∀ q, makeKey s q = (indexed s0 rootFolder (dirs, name, st)).1 →
               exists_ s q = true) as Hexists.
  { intros q Hq.
    apply (exists_finds s q (indexed s0 rootFolder (dirs, name, st)).2);
      [|done].
    by apply (registered_stored_for w rootFolder s0 s dirs name st). }
  split; [|split; [|split]].
  - intros Hbase Hname Hquery. apply Hexists.
    apply (registered_query w rootFolder s0 s dirs name st Hsince). by left.
  - intros Hrel Hquery. apply Hexists.
    apply (registered_query w rootFolder s0 s dirs name st Hsince). by right.
  - intros Hnone. unfold key_path. simpl. by rewrite key_folders_all.
  - intros ops. apply since_select.
Qed.

(** C10, as the code has it.  The record of a visited file on which
    [stat] failed holds the greatest value of [size_t], which is neither
    0 nor negative.  Wherever a name resolves to the record, [getSize]
    returns that value and the variant of [readData] that owns its
    buffer asks [new] for that many bytes.  A query that denotes the
    file resolves so while the record passes the filter and every
    record that is stored for the query and passes the filter is one of
    a file on which [stat] failed, as when the file is the only one of
    its name. *)
Theorem size_of_file_without_stat (w : World) (rootFolder : string)
    (s0 : Impl) (dirs : list string) (name : string) :
  (dirs, name, None) ∈ visited (opendir w (combine [rootFolder; ""])) →
  stored (addRootFolder w rootFolder s0)
    (indexed s0 rootFolder (dirs, name, None)).1
    (indexed s0 rootFolder (dirs, name, None)).2 ∧
  size (indexed s0 rootFolder (dirs, name, None)).2 = size_max ∧
  size_max = 2 ^ Z.pos size_t_bits - 1 ∧
  0 < size_max ∧
  (∀ s query w',
     findFileRecord s query
     = Some (indexed s0 rootFolder (dirs, name, None)).2 →
     getSize s query = size_max ∧
     ∃ evs, (readDataOwned w' s query).2 = EvNew size_max :: evs) ∧
  (∀ s query w',
     reachable s0 →
     since (addRootFolder w rootFolder s0) s →
     (searchByRelativePaths s0 = false ∧ name ≠ "" ∧
      same_modulo_case query name ∨
      searchByRelativePaths s0 = true ∧
      same_modulo_case query (key_path s0 dirs name)) →
     admissible s (indexed s0 rootFolder (dirs, name, None)).2 = true →
     (∀ r', stored_for s query r' → admissible s r' = true →
            size r' = size_max) →
     getSize s query = size_max ∧
     ∃ evs, (readDataOwned w' s query).2 = EvNew size_max :: evs).
Proof.
  intros Hv. split; [by apply addRootFolder_stored|].
  assert (1 < 2 ^ Z.pos size_t_bits) as Hpow.
  { apply (Z.pow_gt_1 2); lia. }
  assert (to_size_t (-1) = size_max) as Hsize.
  { unfold to_size_t, size_max. symmetry.
    apply (Z.mod_unique_pos _ _ (-1)); lia. }
  split; [exact Hsize|]. split; [done|]. split; [unfold size_max; lia|].
  assert (∀ s query w' r,
            findFileRecord s query = Some r → size r = size_max →
            getSize s query = size_max ∧
            ∃ evs, (readDataOwned w' s query).2 = EvNew size_max :: evs)
    as Hresolved.
  { intros s query w' r Hfind Hr. unfold getSize, readDataOwned.
    rewrite Hfind, Hr. split; [done|].
    destruct (operator_new w' size_max); [|by eexists].
    destruct (readRecord w' _ _) as [[[n bytes]|] evs]; [|by eexists].
    destruct (n =? size_max); by eexists. }
  split.
  - intros s query w' Hfind. by apply (Hresolved s query w' _ Hfind).
  - intros s query w' Hreach Hsince Hquery Hadm Hall.
    pose proof (registered_query w rootFolder s0 s dirs name None Hsince
                  query Hquery) as Hkey.
    pose proof (registered_stored_for w rootFolder s0 s dirs name None
                  Hreach Hv Hsince query Hkey) as Hst.
    pose proof (findFileRecord_finds s query _ Hst Hadm) as Hsome.
    destruct (findFileRecord s query) as [r'|] eqn:Hfind; [|done].
    apply (Hresolved s query w' r' Hfind).
    apply findFileRecord_found in Hfind as [Hadm' Hst'].
    by apply Hall.
Qed.
End Registered.

(** C3, on the installation after further calls: the sprite of the
    folder "HD" is found under its name in capitals. *)
Lemma exists_registered_file_witness :
  exists_ Scene.extended "SPRITE.PNG" = true.
Proof.
  destruct (exists_registered_file (H := LP64) Scene.world "root"
              Scene.configured Scene.extended ["HD"] "Sprite.png" (Some 10)
              "SPRITE.PNG" configured_reachable sprite_hd_visited)
    as (Hbase & _ & _).
  - unfold Scene.extended.
    eapply since_call; [|apply later_addSearchRoot].
    eapply since_call; [|apply later_addRootFolder].
    eapply since_call; [|apply later_addArchive].
    apply since_now.
  - vm_compute. reflexivity.
  - apply Hbase; [reflexivity|discriminate|reflexivity].
Defined.

(** C10, on the installation: [stat] failed on "broken.bin", the only
    file of its name, and [getSize] returns 2^64 - 1 for it. *)
Lemma size_of_file_without_stat_witness :
  getSize Scene.indexed_state "broken.bin" = 18446744073709551615.
Proof.
  destruct (size_of_file_without_stat (H := LP64) Scene.world "root"
              Scene.configured [] "broken.bin" broken_visited)
    as (_ & _ & _ & _ & _ & Hsize).
  apply (Hsize Scene.indexed_state "broken.bin" Scene.world).
  - apply configured_reachable.
  - apply since_now.
  - left. split; [reflexivity|]. split; [discriminate|reflexivity].
  - vm_compute. reflexivity.
  - intros r' (root & Hroot & records & Hlook & Hin) _.
    apply list_elem_of_singleton in Hroot as ->.
    vm_compute in Hlook. injection Hlook as <-.
    apply list_elem_of_singleton in Hin as ->. vm_compute. reflexivity.
Defined.

(** C10 as stated fails: [stat] failed on "broken.bin" in the root
    folder, its record holds the greatest [size_t] and passes the
    filter, and [getSize] returns 5 for its name, the size of the
    "broken.bin" in "sub" that the walk met first. *)
Lemma size_of_shadowed_file_counterexample :
  ([], "broken.bin", None)
  ∈ visited (opendir Scene.shadow_world (combine ["root"; ""])) ∧
  stored (addRootFolder (H := LP64) Scene.shadow_world "root" constructed)
    "broken.bin"
    (indexed (H := LP64) constructed "root" ([], "broken.bin", None)).2 ∧
  size (indexed (H := LP64) constructed "root" ([], "broken.bin", None)).2
  = size_max (H := LP64) ∧
  admissible (addRootFolder (H := LP64) Scene.shadow_world "root" constructed)
    (indexed (H := LP64) constructed "root" ([], "broken.bin", None)).2
  = true ∧
  getSize (addRootFolder (H := LP64) Scene.shadow_world "root" constructed)
    "broken.bin" = 5 ∧
  size_max (H := LP64) ≠ 5.
Proof.
  split; [vm_compute; repeat constructor|].
  split.
  { eexists. split; [vm_compute; reflexivity|]. right. left. }
  repeat split; try (vm_compute; reflexivity). vm_compute. discriminate.
Qed.

(** ** The resolver, continued *)

(** The resolver reads the record store, the mode of the keys, the
    current language, the enabled categories and the search roots, and
    nothing else of the manager. *)
Lemma search_same s s' key :
  filenameToRecordMap s' = filenameToRecordMap s →
  searchByRelativePaths s' = searchByRelativePaths s →
  currentLanguageId s' = currentLanguageId s →
  enabledCategories s' = enabledCategories s →
  ∀ roots cands, search s' key roots cands = search s key roots cands.
Proof.
  intros Hstore Hmode Hlanguage Hcategories.
  assert (∀ records cands,
            collect s' records cands = collect s records cands) as Hcollect.
  { unfold collect, admissible. by rewrite Hlanguage, Hcategories. }
  induction roots as [|root roots IH]; intros cands; [done|].
  simpl. rewrite Hstore, (PathFacts.makeKey_same_mode s' s _ Hmode).
  destruct (filenameToRecordMap s !! _) as [[|x records]|]; [apply IH| |apply IH].
  rewrite Hcollect. by destruct (collect s (x :: records) cands).
Qed.

Lemma findFileRecord_same s s' filename :
  filenameToRecordMap s' = filenameToRecordMap s →
  searchByRelativePaths s' = searchByRelativePaths s →
  currentLanguageId s' = currentLanguageId s →
  enabledCategories s' = enabledCategories s →
  findFileRecord s' filename
  = head (search s (makeKey s filename) (searchRootsList s') []).
Proof.
  intros Hstore Hmode Hlanguage Hcategories. unfold findFileRecord.
  rewrite (PathFacts.makeKey_same_mode s' s _ Hmode).
  by rewrite (search_same s s' _ Hstore Hmode Hlanguage Hcategories).
Qed.

Section ResolverProperties.
Import PathFacts ResolverFacts.
Variable s : Impl.

Lemma findFileRecord_none filename :
  (∀ r, stored_for s filename r → admissible s r = false) →
  findFileRecord s filename = None.
Proof.
  intros Hnone. destruct (findFileRecord s filename) as [r|] eqn:Hfind; [|done].
  apply findFileRecord_found in Hfind as [Hadm Hst].
  rewrite (Hnone r Hst) in Hadm. done.
Qed.

(** X12.  With a current language set, [findFileRecord] returns records
    of that language only: a record of no language is no fallback, and a
    name that has only such records is not found. *)
Theorem findFileRecord_has_no_generic_fallback (filename : string) :
  currentLanguageId s ≠ "" →
  (∀ r, findFileRecord s filename = Some r →
        languageId r = currentLanguageId s) ∧
  ((∀ r, stored_for s filename r → languageId r = "") →
   findFileRecord s filename = None ∧ exists_ s filename = false).
Proof.
  intros Hlang. split.
  - intros r [[[Hno|Hyes] _]%admissible_iff _]%findFileRecord_found; done.
  - intros Hgeneric.
    assert (findFileRecord s filename = None) as Hnone.
    { apply findFileRecord_none. intros r Hst.
      destruct (admissible s r) eqn:Hadm; [|done].
      apply admissible_iff in Hadm as [[Hno|Hyes] _]; [done|].
      rewrite (Hgeneric r Hst) in Hyes. by destruct Hlang. }
    split; [done|]. unfold exists_. by rewrite Hnone.
Qed.

Lemma collect_empty records :
  collect s records [] = [] →
  ∀ r, r ∈ records → admissible s r = false.
Proof.
  intros Hcol r Hr. destruct (admissible s r) eqn:Hadm; [|done].
  by destruct (collect_nonempty s records [] r Hr Hadm).
Qed.

Lemma search_first key roots r :
  head (search s key roots []) = Some r →
  ∃ before searchRoot after records,
    roots = before ++ searchRoot :: after ∧
    filenameToRecordMap s !! makeKey s (combine [searchRoot; key])
    = Some records ∧
    head (collect s records []) = Some r ∧
    Forall (silent_root s key) before.
Proof.
  induction roots as [|root roots IH]; simpl; [done|].
  assert (silent_root s key root →
          head (search s key roots []) = Some r →
          ∃ before searchRoot after records,
            root :: roots = before ++ searchRoot :: after ∧
            filenameToRecordMap s !! makeKey s (combine [searchRoot; key])
            = Some records ∧
            head (collect s records []) = Some r ∧
            Forall (silent_root s key) before) as Hskip.
  { intros Hsilent Hr.
    destruct (IH Hr) as (before & root' & after & recs & -> & Hl & Hh & Hb).
    exists (root :: before), root', after, recs.
    split; [done|]. split; [done|]. split; [done|]. by constructor. }
  destruct (filenameToRecordMap s !! makeKey s (combine [root; key]))
    as [records|] eqn:Hlook.
  - destruct records as [|x records].
    + apply Hskip. intros r' (recs & Hrecs & Hin). rewrite Hlook in Hrecs.
      injection Hrecs as <-. by apply elem_of_nil in Hin.
    + destruct (collect s (x :: records) []) as [|c cands] eqn:Hcol.
      * apply Hskip. intros r' (recs & Hrecs & Hin). rewrite Hlook in Hrecs.
        injection Hrecs as <-. by apply (collect_empty (x :: records)).
      * intros Hr. exists [], root, roots, (x :: records).
        split; [done|]. split; [done|]. split; [by rewrite Hcol|done].
  - apply Hskip. intros r' (recs & Hrecs & Hin). by rewrite Hlook in Hrecs.
Qed.

Lemma collect_silent records :
  (∀ r, r ∈ records → admissible s r = false) → collect s records [] = [].
Proof.
  unfold collect. induction records as [|x records IH]; intros Hnone; [done|].
  simpl. rewrite (Hnone x) by (by left). apply IH.
  intros r Hr. apply Hnone. by right.
Qed.

(** The search ends at the first root that answers. *)
Lemma search_stops key before searchRoot after records :
  Forall (silent_root s key) before →
  filenameToRecordMap s !! makeKey s (combine [searchRoot; key])
  = Some records →
  collect s records [] ≠ [] →
  search s key (before ++ searchRoot :: after) [] = collect s records [].
Proof.
  intros Hsilent Hlook Hanswer.
  induction Hsilent as [|root before Hroot _ IH]; simpl.
  - rewrite Hlook. destruct records as [|x records]; [done|].
    by destruct (collect s (x :: records) []).
  - destruct (filenameToRecordMap s !! makeKey s (combine [root; key]))
      as [[|x recs]|] eqn:Hlook'; [done| |done].
    rewrite (collect_silent (x :: recs)); [done|].
    intros r Hr. apply Hroot. by exists (x :: recs).
Qed.

(** X13.  [findFileRecord] answers from the first search root, in the
    order of their registration, under whose key an admissible record
    is stored: the record it returns is stored under the key of that
    root and passes the filter, the roots before it hold no record that
    does, and the roots behind it are not asked: with any other search
    roots behind it the answer is the same. *)
Theorem findFileRecord_answers_at_first_root (filename : string)
    (r : FileRecord) :
  findFileRecord s filename = Some r →
  ∃ before searchRoot after,
    searchRootsList s = before ++ searchRoot :: after ∧
    stored s (makeKey s (combine [searchRoot; makeKey s filename])) r ∧
    admissible s r = true ∧
    Forall (silent_root s (makeKey s filename)) before ∧
    ∀ s' after',
      filenameToRecordMap s' = filenameToRecordMap s →
      searchByRelativePaths s' = searchByRelativePaths s →
      currentLanguageId s' = currentLanguageId s →
      enabledCategories s' = enabledCategories s →
      searchRootsList s' = before ++ searchRoot :: after' →
      findFileRecord s' filename = Some r.
Proof.
  intros Hfind.
  destruct (search_first _ _ _ Hfind)
    as (before & root & after & records & Hroots & Hlook & Hhead & Hsilent).
  exists before, root, after.
  assert (r ∈ collect s records []) as Hin.
  { destruct (collect s records []) as [|c cands]; [done|].
    injection Hhead as ->. by left. }
  assert (collect s records [] ≠ []) as Hanswer.
  { intros Hnil. rewrite Hnil in Hin. by apply elem_of_nil in Hin. }
  apply collect_elem in Hin as [Hin|[Hin Hadm]]; [by apply elem_of_nil in Hin|].
  split; [done|]. split; [by exists records|]. split; [done|].
  split; [done|].
  intros s' after' Hstore Hmode Hlanguage Hcategories Hroots'.
  rewrite (findFileRecord_same s s' _ Hstore Hmode Hlanguage Hcategories).
  by rewrite Hroots', (search_stops _ _ _ _ _ Hsilent Hlook Hanswer).
Qed.

Lemma search_constant key roots lookup_key :
  roots ≠ [] →
  (∀ searchRoot, searchRoot ∈ roots →
                 makeKey s (combine [searchRoot; key]) = lookup_key) →
  search s key roots []
  = collect s (default [] (filenameToRecordMap s !! lookup_key)) [].
Proof.
  intros Hne Hkey. induction roots as [|root roots IH]; [done|].
  cbn [search]. rewrite (Hkey root) by (by left).
  assert (collect s (default [] (filenameToRecordMap s !! lookup_key)) [] = []
          → search s key roots []
            = collect s (default [] (filenameToRecordMap s !! lookup_key)) [])
    as Hrest.
  { intros Hcol. destruct roots as [|root' roots]; [by rewrite Hcol|].
    apply IH; [done|]. intros root'' Hin. apply Hkey. by right. }
  destruct (filenameToRecordMap s !! lookup_key) as [[|x records]|].
  - by apply Hrest.
  - change (default [] (Some (x :: records))) with (x :: records) in *.
    destruct (collect s (x :: records) []) eqn:Hcol; [by apply Hrest|done].
  - by apply Hrest.
Qed.

Lemma findFileRecord_by_base_name filename :
  searchByRelativePaths s = false →
  makeKey s filename ≠ "" →
  searchRootsList s ≠ [] →
  findFileRecord s filename
  = head (collect s
            (default [] (filenameToRecordMap s !! makeKey s filename)) []).
Proof.
  intros Hmode Hkey Hroots. unfold findFileRecord.
  rewrite (search_constant _ _ (makeKey s filename)); [done|done|].
  intros root _. rewrite (makeKey_basename_mode s (combine _) Hmode).
  change [root; makeKey s filename] with ([root] ++ [makeKey s filename]).
  rewrite (basename_combine_snoc [root] _ Hkey).
  rewrite <- (makeKey_basename_mode s (makeKey s filename) Hmode).
  apply makeKey_idemp.
Qed.

(** X15.  Enabling a category and removing the current language only
    widen the filter: a name that is found stays found. *)
Theorem widening_the_filter_keeps_files_found (filename tag : string) :
  exists_ s filename = true →
  exists_ (enableCategory tag s) filename = true ∧
  exists_ (setCurrentLanguage "" s) filename = true.
Proof.
  unfold exists_ at 1.
  destruct (findFileRecord s filename) as [r|] eqn:Hfind; [|done].
  intros _. apply findFileRecord_found in Hfind as [Hadm Hst].
  apply admissible_iff in Hadm as [Hlang Hcat]. split.
  - apply (exists_finds (enableCategory tag s) filename r); [exact Hst|].
    apply admissible_iff. split; [exact Hlang|].
    destruct Hcat as [Hcat|Hcat]; [by left|right].
    simpl. apply elem_of_union. by right.
  - apply (exists_finds (setCurrentLanguage "" s) filename r); [exact Hst|].
    apply admissible_iff. split; [by left|exact Hcat].
Qed.

(** X16.  After [reset] no name is found: [findFileRecord] returns
    nothing, [exists] is false and [getSize] is 0 for every name; a
    second [reset] changes nothing. *)
Theorem reset_forgets_every_file (filename : string) :
  findFileRecord (reset s) filename = None ∧
  exists_ (reset s) filename = false ∧
  getSize (reset s) filename = 0 ∧
  reset (reset s) = reset s.
Proof.
  assert (findFileRecord (reset s) filename = None) as Hnone.
  { unfold findFileRecord. simpl. by rewrite lookup_empty. }
  unfold exists_, getSize. by rewrite Hnone.
Qed.
End ResolverProperties.

(** X14.  With keys by base name the search roots are idle: for a name
    whose key is not empty every search root leads to the key of the
    name itself.  So the answer is the same whatever the search roots
    are, as long as there is one, and adding a search root changes no
    answer; a record that is returned is stored under the key of the
    name and passes the filter, and none is returned only when no
    record under that key does. *)
Theorem search_roots_are_idle_for_base_names (s : Impl) (filename : string) :
  searchByRelativePaths s = false →
  makeKey s filename ≠ "" →
  searchRootsList s ≠ [] →
  (∀ s',
     filenameToRecordMap s' = filenameToRecordMap s →
     searchByRelativePaths s' = searchByRelativePaths s →
     currentLanguageId s' = currentLanguageId s →
     enabledCategories s' = enabledCategories s →
     searchRootsList s' ≠ [] →
     findFileRecord s' filename = findFileRecord s filename) ∧
  (∀ searchRoot,
     findFileRecord (addSearchRoot searchRoot s) filename
     = findFileRecord s filename) ∧
  (∀ r, findFileRecord s filename = Some r →
        stored s (makeKey s filename) r ∧ admissible s r = true) ∧
  (findFileRecord s filename = None ↔
   ∀ r, stored s (makeKey s filename) r → admissible s r = false).
Proof.
  intros Hmode Hkey Hroots.
  pose proof (findFileRecord_by_base_name s filename Hmode Hkey Hroots)
    as Hhere.
  assert (∀ s',
            filenameToRecordMap s' = filenameToRecordMap s →
            searchByRelativePaths s' = searchByRelativePaths s →
            currentLanguageId s' = currentLanguageId s →
            enabledCategories s' = enabledCategories s →
            searchRootsList s' ≠ [] →
            findFileRecord s' filename = findFileRecord s filename) as Hany.
  { intros s' Hstore Hmode' Hlanguage Hcategories Hroots'.
    rewrite Hhere.
    rewrite (findFileRecord_by_base_name s' filename);
      [|by rewrite Hmode'
       |by rewrite (PathFacts.makeKey_same_mode s' s _ Hmode')
       |done].
    rewrite (PathFacts.makeKey_same_mode s' s _ Hmode'), Hstore.
    f_equal. unfold collect, admissible. by rewrite Hlanguage, Hcategories. }
  split; [exact Hany|].
  split.
  { intros root. apply Hany; try reflexivity.
    simpl. by destruct (searchRootsList s). }
  rewrite Hhere.
  destruct (filenameToRecordMap s !! makeKey s filename) as [records|]
    eqn:Hlook; simpl.
  - split.
    + intros r Hhead.
      assert (r ∈ collect s records []) as Hin.
      { destruct (collect s records []) as [|c cands]; [done|].
        injection Hhead as ->. by left. }
      apply ResolverFacts.collect_elem in Hin as [Hin|[Hin Hadm]];
        [by apply elem_of_nil in Hin|].
      split; [by exists records|done].
    + split.
      * intros Hnone r (recs & Hrecs & Hin). rewrite Hlook in Hrecs.
        injection Hrecs as <-.
        apply (collect_empty s records); [|done].
        by destruct (collect s records []).
      * intros Hnone. rewrite (collect_silent s records); [done|].
        intros r Hr. apply Hnone. by exists records.
  - split; [done|]. split; [|done].
    intros _ r (recs & Hrecs & _). by rewrite Hlook in Hrecs.
Qed.

(** X17.  A name for which no admissible record is stored under the key
    of any search root is a miss without consequence: [exists] is false,
    [getSize] is 0, both variants of [readData] return nothing read, and
    [getStream] returns no stream; nothing is thrown, no backend
    resource is touched and the manager stays as it is. *)
Theorem unresolved_name_is_a_benign_miss `{ABI} (w : World) (s : Impl)
    (filename : string) (random size : Z) :
  (∀ r, stored_for s filename r → admissible s r = false) →
  findFileRecord s filename = None ∧
  exists_ s filename = false ∧
  getSize s filename = 0 ∧
  readData w s filename size = (Returns (0, []), []) ∧
  readDataOwned w s filename = (Returns (None, 0), []) ∧
  getStream w random s filename = (Returns None, s, []).
Proof.
  intros Hnone%findFileRecord_none.
  unfold exists_, getSize, readData, readDataOwned, getStream.
  by rewrite Hnone.
Qed.

Lemma findFileRecord_has_no_generic_fallback_witness :
  findFileRecord (setCurrentLanguage "fr" Scene.indexed_state) "sprite.png"
  = None.
Proof.
  apply (findFileRecord_has_no_generic_fallback
           (setCurrentLanguage "fr" Scene.indexed_state) "sprite.png");
    [discriminate|].
  intros r (root & Hroot & records & Hlook & Hin).
  apply list_elem_of_singleton in Hroot as ->.
  vm_compute in Hlook. injection Hlook as <-.
  apply elem_of_cons in Hin as [->|Hin]; [reflexivity|].
  apply list_elem_of_singleton in Hin as ->. reflexivity.
Defined.

Lemma findFileRecord_answers_at_first_root_witness :
  ∃ before searchRoot after,
    searchRootsList Scene.mounted = before ++ searchRoot :: after ∧
    stored Scene.mounted
      (makeKey Scene.mounted
         (combine [searchRoot; makeKey Scene.mounted "x.png"]))
      Scene.x_fr ∧
    Forall (silent_root Scene.mounted (makeKey Scene.mounted "x.png")) before.
Proof.
  destruct (findFileRecord_answers_at_first_root Scene.mounted "x.png"
              Scene.x_fr) as (before & root & after & Hroots & Hst & Hrest).
  - vm_compute. reflexivity.
  - exists before, root, after. split; [exact Hroots|].
    split; [exact Hst|].
    destruct Hrest as (_ & Hsilent & _). exact Hsilent.
Defined.

Lemma search_roots_are_idle_for_base_names_witness :
  findFileRecord (addSearchRoot "mods" Scene.indexed_state) "Sprite.png"
  = findFileRecord Scene.indexed_state "Sprite.png".
Proof.
  apply (search_roots_are_idle_for_base_names Scene.indexed_state
           "Sprite.png"); [reflexivity|discriminate|discriminate].
Defined.

Lemma widening_the_filter_keeps_files_found_witness :
  exists_ (enableCategory "SD" Scene.indexed_state) "x.png" = true.
Proof.
  apply (widening_the_filter_keeps_files_found Scene.indexed_state "x.png"
           "SD").
  vm_compute. reflexivity.
Defined.

Lemma unresolved_name_is_a_benign_miss_witness :
  getStream Scene.world 5 Scene.indexed_state "missing.png"
  = (Returns None, Scene.indexed_state, []).
Proof.
  apply (unresolved_name_is_a_benign_miss (H := LP64) Scene.world
           Scene.indexed_state "missing.png" 5 0).
  intros r (root & Hroot & records & Hlook & _).
  apply list_elem_of_singleton in Hroot as ->.
  vm_compute in Hlook. discriminate.
Defined.

(** ** Reading by name *)

Section ReaderProperties.
Context `{ABI}.
Variable w : World.

Lemma len_nonneg (bytes : list Byte.byte) : 0 ≤ len bytes.
Proof. unfold len. lia. Qed.

Lemma read_upto_take n bytes :
  0 ≤ n → read_upto n bytes = take (Z.to_nat n) bytes.
Proof.
  intros Hn. unfold read_upto, len.
  destruct (Z.min_spec n (Z.of_nat (length bytes))) as [[Hlt ->]|[Hge ->]];
    [done|].
  rewrite Nat2Z.id, firstn_all. symmetry. apply take_ge. lia.
Qed.

Lemma len_read_upto n bytes :
  0 ≤ n → len (read_upto n bytes) = Z.min n (len bytes).
Proof.
  intros Hn. unfold read_upto, len. rewrite length_take.
  pose proof (len_nonneg bytes) as Hlen. unfold len in *. lia.
Qed.

Lemma to_int_small z : 0 ≤ z < 2 ^ 31 → to_int z = z.
Proof.
  intros Hz. unfold to_int. rewrite Z.mod_small; lia.
Qed.

Lemma to_int_nonneg z : 0 ≤ z < 2 ^ 32 → 0 ≤ to_int z → z < 2 ^ 31.
Proof.
  intros Hz. unfold to_int.
  destruct (Z_lt_ge_dec z (2 ^ 31)) as [Hlt|Hge]; [done|].
  replace (z + 2 ^ 31) with (z - 2 ^ 31 + 1 * 2 ^ 32) by lia.
  rewrite Z.mod_add by lia. rewrite Z.mod_small; lia.
Qed.

Lemma to_size_t_small z :
  31 ≤ Z.pos size_t_bits → 0 ≤ z < 2 ^ 31 → to_size_t z = z.
Proof.
  intros Hwide Hz. unfold to_size_t. apply Z.mod_small.
  split; [lia|]. apply Z.lt_le_trans with (2 ^ 31); [lia|].
  apply Z.pow_le_mono_r; lia.
Qed.

Lemma readRecord_count fileRecord size n bytes evs :
  31 ≤ Z.pos size_t_bits →
  readRecord w fileRecord size = (Returns (n, bytes), evs) →
  n = len bytes.
Proof.
  intros Hwide. unfold readRecord, readDataFromRegularFile,
    readDataFromCompressedFile.
  destruct (fileType fileRecord).
  - destruct (fopen w (filePath fileRecord)); by intros [= <- <- <-].
  - destruct (unzOpen w (zipFilePath fileRecord)) as [entries|]; [|done].
    destruct (unzGoToFilePos entries (zipFilePos fileRecord)) as [e|];
      [|done].
    destruct (z_opens e); [|done].
    destruct (to_int _ <? 0) eqn:Hret; [done|].
    intros [= <- <- <-]. apply Z.ltb_ge in Hret.
    assert (0 ≤ size mod 2 ^ 32 < 2 ^ 32) as Hsize
      by (apply Z.mod_pos_bound; lia).
    pose proof (len_read_upto (size mod 2 ^ 32) (z_data e) (proj1 Hsize))
      as Hlen.
    pose proof (len_nonneg (z_data e)) as Hdata.
    assert (len (read_upto (size mod 2 ^ 32) (z_data e)) < 2 ^ 31) as Hsmall.
    { apply to_int_nonneg; [lia|done]. }
    rewrite to_int_small by lia. apply to_size_t_small; [done|lia].
  - by intros [= <- <- <-].
Qed.

Lemma readRecord_bound fileRecord size n bytes evs :
  31 ≤ Z.pos size_t_bits →
  0 ≤ size < 2 ^ 31 →
  readRecord w fileRecord size = (Returns (n, bytes), evs) →
  len bytes ≤ size.
Proof.
  intros Hwide Hsize. unfold readRecord, readDataFromRegularFile,
    readDataFromCompressedFile.
  destruct (fileType fileRecord).
  - destruct (fopen w (filePath fileRecord)) as [content|];
      intros [= <- <- <-]; [|unfold len; simpl; lia].
    rewrite to_size_t_small by done. rewrite len_read_upto by lia. lia.
  - destruct (unzOpen w (zipFilePath fileRecord)) as [entries|]; [|done].
    destruct (unzGoToFilePos entries (zipFilePos fileRecord)) as [e|];
      [|done].
    destruct (z_opens e); [|done].
    destruct (to_int _ <? 0) eqn:Hret; [done|].
    intros [= <- <- <-]. rewrite Z.mod_small by lia.
    rewrite len_read_upto by lia. lia.
  - intros [= <- <- <-]. unfold len. simpl. lia.
Qed.

(** X18.  [readDataFromCompressedFile] closes the archive it opened
    exactly when it returns: on every path that throws after [unzOpen]
    succeeded the archive stays open, the handler seeing only the outer
    [zipFile], which is null. *)
Theorem readDataFromCompressedFile_closes_only_on_return
    (fileRecord : FileRecord) (size : Z) :
  let path := zipFilePath fileRecord in
  let result := readDataFromCompressedFile w fileRecord size in
  (∀ v, result.1 = Returns v →
        result.2 = [EvUnzOpen path; EvUnzOpenCurrentFile path;
                    EvUnzCloseCurrentFile path; EvUnzClose path]) ∧
  (result.1 = Throws →
   (∀ closed, EvUnzClose closed ∉ result.2) ∧
   (∀ closed, EvUnzCloseCurrentFile closed ∉ result.2) ∧
   (is_Some (unzOpen w path) → EvUnzOpen path ∈ result.2)).
Proof.
  simpl. unfold readDataFromCompressedFile.
  destruct (unzOpen w (zipFilePath fileRecord)) as [entries|]; simpl.
  - destruct (unzGoToFilePos entries (zipFilePos fileRecord)) as [e|]; simpl.
    + destruct (z_opens e); simpl.
      * destruct (to_int _ <? 0); simpl.
        -- split; [done|]. intros _. split; [|split].
           ++ intros closed Hin. by repeat apply elem_of_cons in Hin as [?|Hin];
                try apply elem_of_nil in Hin.
           ++ intros closed Hin. by repeat apply elem_of_cons in Hin as [?|Hin];
                try apply elem_of_nil in Hin.
           ++ intros _. by left.
        -- split; [done|]. done.
      * split; [done|]. intros _. split; [|split].
        -- intros closed Hin. by repeat apply elem_of_cons in Hin as [?|Hin];
             try apply elem_of_nil in Hin.
        -- intros closed Hin. by repeat apply elem_of_cons in Hin as [?|Hin];
             try apply elem_of_nil in Hin.
        -- intros _. by left.
    + split; [done|]. intros _. split; [|split].
      * intros closed Hin. by repeat apply elem_of_cons in Hin as [?|Hin];
          try apply elem_of_nil in Hin.
      * intros closed Hin. by repeat apply elem_of_cons in Hin as [?|Hin];
          try apply elem_of_nil in Hin.
      * intros _. by left.
  - split; [done|]. intros _. split; [|split].
    + intros closed Hin. by apply elem_of_nil in Hin.
    + intros closed Hin. by apply elem_of_nil in Hin.
    + by intros [? ?].
Qed.

(** X19.  [readData(filename, buffer, size)] with a size from 0 to
    [INT_MAX] stores at most [size] bytes, and the value it returns is
    the number of bytes stored. *)
Theorem readData_stores_at_most_size (s : Impl) (name : string)
    (size n : Z) (bytes : list Byte.byte) (evs : list event) :
  31 ≤ Z.pos size_t_bits →
  0 ≤ size < 2 ^ 31 →
  readData w s name size = (Returns (n, bytes), evs) →
  n = len bytes ∧ len bytes ≤ size.
Proof.
  intros Hwide Hsize. unfold readData.
  destruct (findFileRecord s name) as [fileRecord|].
  - intros Hread. split.
    + by apply (readRecord_count fileRecord size n bytes evs).
    + by apply (readRecord_bound fileRecord size n bytes evs).
  - intros [= <- <- <-]. unfold len. simpl. lia.
Qed.

(** X21.  The owning [readData] returns a buffer only when the read
    delivered as many bytes as the record says: the count it stores is
    the size [getSize] reports and the number of bytes in the buffer,
    and for a size up to [INT_MAX] the buffer holds that many bytes
    from the start of the file, or of the archive entry, as it is when
    it is read; that is the whole file when it is as long as it was
    when it was indexed.  A short read throws.  No buffer and the count
    0 are returned only for a name that is not found. *)
Theorem readDataOwned_returns_recorded_size (s : Impl) (name : string)
    (buffer : option (list Byte.byte)) (count : Z) (evs : list event) :
  31 ≤ Z.pos size_t_bits →
  readDataOwned w s name = (Returns (buffer, count), evs) →
  (buffer = None ∧ count = 0 ∧ evs = [] ∧ exists_ s name = false) ∨
  (∃ fileRecord bytes,
     findFileRecord s name = Some fileRecord ∧
     buffer = Some bytes ∧ count = len bytes ∧
     count = getSize s name ∧ exists_ s name = true ∧
     operator_new w count = true ∧
     (count < 2 ^ 31 →
      match fileType fileRecord with
      | RegularFile =>
          bytes = take (Z.to_nat count)
                    (default [] (fopen w (filePath fileRecord)))
      | CompressedFile =>
          ∃ entries e,
            unzOpen w (zipFilePath fileRecord) = Some entries ∧
            unzGoToFilePos entries (zipFilePos fileRecord) = Some e ∧
            z_opens e = true ∧
            bytes = take (Z.to_nat count) (z_data e)
      | StoredFile => bytes = []
      end)).
Proof.
  intros Hwide. unfold readDataOwned, exists_, getSize.
  destruct (findFileRecord s name) as [fileRecord|];
    [|intros [= <- <- <-]; by left].
  destruct (operator_new w (size fileRecord)) eqn:Hnew; [|done].
  destruct (readRecord w fileRecord (to_int (size fileRecord)))
    as [[[n bytes]|] evs'] eqn:Hread; [|done].
  destruct (n =? size fileRecord) eqn:Hn; [|done].
  apply Z.eqb_eq in Hn. intros [= <- <- <-]. right.
  exists fileRecord, bytes.
  pose proof (readRecord_count _ _ _ _ _ Hwide Hread) as Hcount.
  split; [done|]. split; [done|]. split; [done|]. split; [done|].
  split; [done|]. split; [by rewrite Hn|].
  intros Hsmall. pose proof (len_nonneg bytes) as Hlen.
  rewrite <- Hn, to_int_small in Hread by lia.
  unfold readRecord, readDataFromRegularFile, readDataFromCompressedFile
    in Hread.
  destruct (fileType fileRecord).
  - destruct (fopen w (filePath fileRecord)) as [content|];
      injection Hread as _ <- _; [|symmetry; apply take_nil].
    rewrite to_size_t_small by (done || lia).
    by rewrite read_upto_take by lia.
  - destruct (unzOpen w (zipFilePath fileRecord)) as [entries|]; [|done].
    destruct (unzGoToFilePos entries (zipFilePos fileRecord)) as [e|]
      eqn:Hpos; [|done].
    destruct (z_opens e) eqn:Hopens; [|done].
    destruct (to_int _ <? 0); [done|].
    injection Hread as _ <- _. exists entries, e.
    do 3 (split; [done|]).
    rewrite Z.mod_small by lia. by rewrite read_upto_take by lia.
  - by injection Hread as _ <- _.
Qed.
End ReaderProperties.

(** ** Streams *)

Section StreamProperties.
Context `{ABI}.
Import StreamFacts ReachableFacts.

Lemma with_streams_id s : with_streams (openStreams s) s = s.
Proof. by destruct s. Qed.

Lemma len_take_bound n (bytes : list Byte.byte) :
  0 ≤ n → 0 ≤ len (take (Z.to_nat n) bytes) ≤ n.
Proof. intros Hn. unfold len. rewrite length_take. lia. Qed.

Lemma drop_take_length n (bytes : list Byte.byte) :
  drop (length (take n bytes)) bytes = drop n bytes.
Proof.
  rewrite length_take. destruct (Nat.min_spec n (length bytes)) as [[_ ->]|[Hge ->]];
    [done|].
  rewrite drop_all. symmetry. apply drop_ge. lia.
Qed.

Lemma readDataHandle_step s handle size streamRecord :
  31 ≤ Z.pos size_t_bits →
  0 ≤ size < 2 ^ 31 →
  openStreams s !! handle = Some streamRecord →
  backed streamRecord →
  (readDataHandle s handle size).1.2
  = take (Z.to_nat size) (remaining streamRecord) ∧
  (readDataHandle s handle size).1.1
  = len (take (Z.to_nat size) (remaining streamRecord)) ∧
  ∃ streamRecord',
    openStreams (readDataHandle s handle size).2 !! handle
    = Some streamRecord' ∧
    remaining streamRecord'
    = drop (Z.to_nat size) (remaining streamRecord) ∧
    backed streamRecord'.
Proof.
  intros Hwide Hsize Hsr Hbacked.
  assert (∀ bytes : list Byte.byte,
            to_size_t (to_int (len (take (Z.to_nat size) bytes)))
            = len (take (Z.to_nat size) bytes)) as Hcount.
  { intros bytes. pose proof (len_take_bound size bytes (proj1 Hsize)).
    rewrite to_int_small by lia. apply to_size_t_small; [done|lia]. }
  unfold readDataHandle, getStreamRecord. rewrite Hsr.
  unfold remaining, backed in *.
  destruct (fileType (fileRecord streamRecord)) eqn:Htype.
  - destruct Hbacked as (f & Hfile & Hf). rewrite Hfile.
    simpl. rewrite to_size_t_small by done.
    rewrite read_upto_take by lia. rewrite Hcount.
    split; [done|]. split; [done|].
    eexists. split; [apply lookup_insert_eq|]. simpl. rewrite Htype.
    pose proof (len_take_bound size
                  (drop (Z.to_nat (Z.min (Z.max 0 (f_offset f))
                                     (len (f_content f))))
                     (f_content f)) (proj1 Hsize)) as Hbound.
    split; [|eexists; split; [done|simpl; lia]].
    rewrite drop_drop.
    set (taken := len (take (Z.to_nat size) _)) in *.
    assert (taken
            = Z.min size (len (f_content f)
                          - Z.min (Z.max 0 (f_offset f))
                              (len (f_content f)))) as Htaken.
    { unfold taken, len. rewrite length_take, length_drop. lia. }
    destruct (Z_le_gt_dec (Z.min (Z.max 0 (f_offset f)) (len (f_content f))
                           + size) (len (f_content f))) as [Hin|Hout].
    + f_equal. lia.
    + rewrite !drop_ge; [done| |]; unfold len in *; lia.
  - destruct Hbacked as [z Hzip]. rewrite Hzip.
    simpl. rewrite Z.mod_small by lia.
    rewrite read_upto_take by lia. rewrite Hcount.
    split; [done|]. split; [done|].
    eexists. split; [apply lookup_insert_eq|]. simpl. rewrite Htype.
    split; [apply drop_take_length|by eexists].
  - destruct Hbacked as [z Hzip]. rewrite Hzip.
    simpl. rewrite Z.mod_small by lia.
    rewrite read_upto_take by lia. rewrite Hcount.
    split; [done|]. split; [done|].
    eexists. split; [apply lookup_insert_eq|]. simpl. rewrite Htype.
    split; [apply drop_take_length|by eexists].
Qed.

(** X22.  Successive reads on an open stream continue where the last
    one ended: with sizes from 0 to [INT_MAX], the pieces stored by the
    reads, put together, are what the stream had still to deliver, cut
    at the sum of the sizes, and the stream is left with the rest.
    Each read returns the length of its piece. *)
Theorem successive_reads_continue (sizes : list Z) :
  ∀ (s : Impl) (handle : Z) (streamRecord : StreamRecord),
    31 ≤ Z.pos size_t_bits →
    Forall (λ size, 0 ≤ size < 2 ^ 31) sizes →
    openStreams s !! handle = Some streamRecord →
    backed streamRecord →
    concat (read_chunks s handle sizes)
    = take (Z.to_nat (foldr Z.add 0 sizes)) (remaining streamRecord) ∧
    (∀ size, 0 ≤ size < 2 ^ 31 →
             (readDataHandle s handle size).1.1
             = len (readDataHandle s handle size).1.2) ∧
    ∃ streamRecord',
      openStreams (read_all s handle sizes) !! handle = Some streamRecord' ∧
      backed streamRecord' ∧
      remaining streamRecord'
      = drop (Z.to_nat (foldr Z.add 0 sizes)) (remaining streamRecord).
Proof.
  induction sizes as [|size sizes IH]; intros s handle sr Hwide Hsizes Hsr Hoff.
  - simpl. rewrite take_0, drop_0. split; [done|]. split; [|by exists sr].
    intros size Hsize.
    destruct (readDataHandle_step s handle size sr Hwide Hsize Hsr Hoff)
      as (-> & -> & _). done.
  - apply Forall_cons in Hsizes as [Hsize Hsizes].
    destruct (readDataHandle_step s handle size sr Hwide Hsize Hsr Hoff)
      as (Hbytes & Hcount & sr1 & Hsr1 & Hrest & Hoff1).
    destruct (IH _ handle sr1 Hwide Hsizes Hsr1 Hoff1)
      as (Hchunks & _ & sr' & Hsr' & Hoff' & Hrest').
    assert (0 ≤ foldr Z.add 0 sizes) as Hsum.
    { clear -Hsizes. induction Hsizes; simpl; lia. }
    split; [|split].
    + simpl. rewrite Hchunks, Hbytes, Hrest.
      rewrite Z2Nat.inj_add by lia. apply take_take_drop.
    + intros size' Hsize'.
      destruct (readDataHandle_step s handle size' sr Hwide Hsize' Hsr Hoff)
        as (-> & -> & _). done.
    + exists sr'. split; [exact Hsr'|]. split; [exact Hoff'|].
      rewrite Hrest', Hrest.
      rewrite drop_drop. f_equal. simpl. rewrite Z2Nat.inj_add by lia. done.
Qed.

(** X23.  Streams do not interfere: while every stream is filed under
    the handle its record carries, a read, a seek or a close on one
    handle leaves the stream of every other handle as it is, and
    opening a further stream leaves the open ones as they are. *)
Theorem streams_do_not_interfere (s : Impl) (handle other : Z) :
  handles_consistent s →
  other ≠ handle →
  (∀ size, openStreams (readDataHandle s handle size).2 !! other
           = openStreams s !! other) ∧
  (∀ offset whence,
     openStreams (seek s handle offset whence).2 !! other
     = openStreams s !! other) ∧
  openStreams (closeFile s handle).1.2 !! other = openStreams s !! other ∧
  (∀ w random name,
     is_Some (openStreams s !! other) →
     openStreams (getStream w random s name).1.2 !! other
     = openStreams s !! other).
Proof.
  intros Hhandles Hother. split; [|split; [|split]].
  - intros size.
    destruct (readDataHandle_frame s handle size)
      as [->|(old & new & _ & _ & ->)]; [done|].
    simpl. by rewrite lookup_insert_ne.
  - intros offset whence.
    destruct (seek_frame s handle offset whence)
      as [->|(old & new & _ & _ & ->)]; [done|].
    simpl. by rewrite lookup_insert_ne.
  - destruct (closeFile_frame s handle) as [->|(old & Hold & ->)]; [done|].
    simpl. rewrite (Hhandles handle old Hold). by rewrite lookup_delete_ne.
  - intros w random name [sr Hsr].
    destruct (getStream_frame w random s name)
      as [->|(new & _ & Hfree & _ & ->)]; [done|].
    simpl. rewrite lookup_insert_ne; [done|]. intros Heq.
    rewrite Heq, Hsr in Hfree. done.
Qed.

(** X24.  On a stream of a regular file [seek] from the start of the
    file to an offset from 0 to [INT_MAX] returns 0, [tell] then returns
    that offset, and the stream has the content from that offset on
    still to deliver, nothing when the offset is behind the end.  A
    negative offset is refused with -1 and the position stays. *)
Theorem seek_sets_the_position (s : Impl) (handle offset : Z)
    (streamRecord : StreamRecord) (f : FILE) :
  openStreams s !! handle = Some streamRecord →
  fileType (fileRecord streamRecord) = RegularFile →
  file streamRecord = Some f →
  (0 ≤ offset < 2 ^ 31 →
   (seek s handle offset 0).1 = Returns 0 ∧
   tell (seek s handle offset 0).2 handle = Returns offset ∧
   ∃ streamRecord',
     openStreams (seek s handle offset 0).2 !! handle = Some streamRecord' ∧
     remaining streamRecord' = drop (Z.to_nat offset) (f_content f)) ∧
  (offset < 0 →
   (seek s handle offset 0).1 = Returns (-1) ∧
   tell (seek s handle offset 0).2 handle = tell s handle).
Proof.
  intros Hsr Htype Hfile. unfold seek, tell, getStreamRecord.
  rewrite Hsr, Htype, Hfile. unfold fseek. simpl. split.
  - intros Hoffset. destruct (offset <? 0) eqn:Hneg; [lia|]. simpl.
    rewrite lookup_insert_eq. simpl. rewrite Htype.
    split; [done|]. split; [by rewrite to_int_small|].
    eexists. split; [done|]. unfold remaining. simpl. rewrite Htype.
    destruct (Z_le_gt_dec offset (len (f_content f))) as [Hin|Hout].
    + f_equal. lia.
    + rewrite !drop_ge; [done| |]; unfold len in *; lia.
  - intros Hoffset. destruct (offset <? 0) eqn:Hneg; [|lia]. simpl.
    rewrite lookup_insert_eq. simpl. by rewrite Htype.
Qed.

Lemma getStream_opened w random s name handle :
  (getStream w random s name).1.1 = Returns (Some handle) →
  ∃ r streamRecord,
    findFileRecord s name = Some r ∧
    fileRecord streamRecord = r ∧
    randomValue streamRecord = handle ∧
    openStreams s !! handle = None ∧
    (getStream w random s name).1.2
    = with_streams (<[handle := streamRecord]> (openStreams s)) s ∧
    ((fileType r = RegularFile ∧
      f_path <$> file streamRecord = Some (filePath r) ∧
      (getStream w random s name).2 = [EvFopen (filePath r)]) ∨
     (fileType r ≠ RegularFile ∧
      zf_path <$> zipFile streamRecord = Some (zipFilePath r) ∧
      (getStream w random s name).2
      = [EvUnzOpen (zipFilePath r); EvUnzOpenCurrentFile (zipFilePath r)])).
Proof.
  unfold getStream.
  destruct (findFileRecord s name) as [r|]; [|done].
  destruct (fileType r) eqn:Htype.
  - destruct (fopen w (filePath r)) as [content|]; [|done].
    destruct (openStreams s !! to_int random) eqn:Hfree; [done|].
    simpl. intros [= <-]. eexists r, _.
    (split; [|split; [|split; [|split; [|split]]]]);
      [done| | |done|reflexivity|]; [reflexivity|reflexivity|].
    left. done.
  - destruct (unzOpen w (zipFilePath r)) as [entries|]; [|done].
    destruct (unzGoToFilePos entries (zipFilePos r)) as [e|]; [|done].
    destruct (z_opens e); [|done].
    destruct (openStreams s !! to_int random) eqn:Hfree; [done|].
    simpl. intros [= <-]. eexists r, _.
    (split; [|split; [|split; [|split; [|split]]]]);
      [done| | |done|reflexivity|]; [reflexivity|reflexivity|].
    right. by rewrite Htype.
  - destruct (unzOpen w (zipFilePath r)) as [entries|]; [|done].
    destruct (unzGoToFilePos entries (zipFilePos r)) as [e|]; [|done].
    destruct (z_opens e); [|done].
    destruct (openStreams s !! to_int random) eqn:Hfree; [done|].
    simpl. intros [= <-]. eexists r, _.
    (split; [|split; [|split; [|split; [|split]]]]);
      [done| | |done|reflexivity|]; [reflexivity|reflexivity|].
    right. by rewrite Htype.
Qed.

Lemma readDataHandle_same_backend s handle size streamRecord :
  openStreams s !! handle = Some streamRecord →
  ∃ streamRecord',
    (readDataHandle s handle size).2
    = with_streams (<[handle := streamRecord']> (openStreams s)) s ∧
    fileRecord streamRecord' = fileRecord streamRecord ∧
    randomValue streamRecord' = randomValue streamRecord ∧
    f_path <$> file streamRecord' = f_path <$> file streamRecord ∧
    zf_path <$> zipFile streamRecord' = zf_path <$> zipFile streamRecord.
Proof.
  intros Hsr.
  assert (s = with_streams (<[handle := streamRecord]> (openStreams s)) s)
    as Hsame by (by rewrite insert_id, with_streams_id).
  unfold readDataHandle, getStreamRecord. rewrite Hsr.
  destruct (fileType (fileRecord streamRecord)).
  - destruct (file streamRecord) as [f|] eqn:Hfile;
      [|exists streamRecord; split; [exact Hsame|by rewrite Hfile]].
    eexists. split; [reflexivity|]. done.
  - destruct (zipFile streamRecord) as [z|] eqn:Hzip;
      [|exists streamRecord; split; [exact Hsame|by rewrite Hzip]].
    eexists. split; [reflexivity|]. done.
  - destruct (zipFile streamRecord) as [z|] eqn:Hzip;
      [|exists streamRecord; split; [exact Hsame|by rewrite Hzip]].
    eexists. split; [reflexivity|]. done.
Qed.

Lemma read_all_same_backend sizes :
  ∀ s handle streamRecord,
    openStreams s !! handle = Some streamRecord →
    ∃ streamRecord',
      read_all s handle sizes
      = with_streams (<[handle := streamRecord']> (openStreams s)) s ∧
      fileRecord streamRecord' = fileRecord streamRecord ∧
      randomValue streamRecord' = randomValue streamRecord ∧
      f_path <$> file streamRecord' = f_path <$> file streamRecord ∧
      zf_path <$> zipFile streamRecord' = zf_path <$> zipFile streamRecord.
Proof.
  induction sizes as [|size sizes IH]; intros s handle sr Hsr.
  - exists sr. split; [|done]. simpl.
    by rewrite insert_id, with_streams_id.
  - destruct (readDataHandle_same_backend s handle size sr Hsr)
      as (sr1 & Hs1 & Hr1 & Hv1 & Hf1 & Hz1).
    destruct (IH (readDataHandle s handle size).2 handle sr1)
      as (sr' & Hs' & Hr' & Hv' & Hf' & Hz').
    { rewrite Hs1. simpl. apply lookup_insert_eq. }
    exists sr'. split.
    + change (read_all s handle (size :: sizes))
        with (read_all (readDataHandle s handle size).2 handle sizes).
      rewrite Hs', Hs1. unfold with_streams. simpl.
      by rewrite insert_insert_eq.
    + by rewrite Hr', Hv', Hf', Hz'.
Qed.

(** X25.  Opening a stream, reading from it any number of times and
    closing it leaves the manager as it was before the stream was
    opened, and [closeFile] releases what [getStream] acquired: the
    file it opened, or the archive and the archive entry it opened. *)
Theorem getStream_closeFile_round_trip (w : World) (random : Z) (s : Impl)
    (name : string) (handle : Z) (sizes : list Z) :
  (getStream w random s name).1.1 = Returns (Some handle) →
  let opened := (getStream w random s name).1.2 in
  let closed := closeFile (read_all opened handle sizes) handle in
  closed.1.1 = 0 ∧
  closed.1.2 = s ∧
  ∃ path,
    ((getStream w random s name).2 = [EvFopen path] ∧
     closed.2 = [EvFclose path]) ∨
    ((getStream w random s name).2
     = [EvUnzOpen path; EvUnzOpenCurrentFile path] ∧
     closed.2 = [EvUnzCloseCurrentFile path; EvUnzClose path]).
Proof.
  intros Hret.
  destruct (getStream_opened _ _ _ _ _ Hret)
    as (r & sr & Hfind & Hr & Hv & Hfree & Hopened & Hkind).
  simpl. rewrite Hopened.
  destruct (read_all_same_backend sizes
              (with_streams (<[handle := sr]> (openStreams s)) s) handle sr)
    as (sr' & -> & Hr' & Hv' & Hf' & Hz'); [apply lookup_insert_eq|].
  unfold closeFile, getStreamRecord. simpl.
  rewrite lookup_insert_eq. simpl. split; [done|]. split.
  - rewrite Hv', Hv, insert_insert_eq, delete_insert_eq.
    rewrite delete_id by done. unfold with_streams. simpl. by destruct s.
  - rewrite Hr', Hr.
    destruct Hkind as [(Htype & Hfile & ->)|(Htype & Hzip & ->)].
    + exists (filePath r). left. split; [done|]. rewrite Htype.
      rewrite Hfile in Hf'.
      destruct (file sr') as [f'|]; [|done].
      by injection Hf' as ->.
    + exists (zipFilePath r). right. split; [done|].
      rewrite Hzip in Hz'.
      destruct (zipFile sr') as [z'|]; [|by destruct (fileType r)].
      injection Hz' as ->. by destruct (fileType r).
Qed.
End StreamProperties.

Section StreamInvariant.
Context `{ABI}.
Import ReachableFacts ResolverFacts.

(** The record of a stream as [getStream] files it. *)
Lemma getStream_files w random s name handle streamRecord :
  openStreams (getStream w random s name).1.2 !! handle = Some streamRecord →
  openStreams s !! handle = Some streamRecord ∨
  backed streamRecord ∧
  findFileRecord s name = Some (fileRecord streamRecord).
Proof.
  unfold getStream.
  destruct (findFileRecord s name) as [r|]; [|by left].
  destruct (fileType r) eqn:Htype.
  - destruct (fopen w (filePath r)) as [content|]; [|by left].
    destruct (openStreams s !! to_int random) eqn:Hfree; [by left|].
    simpl. destruct (decide (to_int random = handle)) as [->|Hne].
    + rewrite lookup_insert_eq. intros [= <-]. right. split; [|done].
      unfold backed. simpl. rewrite Htype. by eexists.
    + rewrite lookup_insert_ne by done. by left.
  - destruct (unzOpen w (zipFilePath r)) as [entries|]; [|by left].
    destruct (unzGoToFilePos entries (zipFilePos r)) as [e|]; [|by left].
    destruct (z_opens e); [|by left].
    destruct (openStreams s !! to_int random) eqn:Hfree; [by left|].
    simpl. destruct (decide (to_int random = handle)) as [->|Hne].
    + rewrite lookup_insert_eq. intros [= <-]. right. split; [|done].
      unfold backed. simpl. rewrite Htype. by eexists.
    + rewrite lookup_insert_ne by done. by left.
  - destruct (unzOpen w (zipFilePath r)) as [entries|]; [|by left].
    destruct (unzGoToFilePos entries (zipFilePos r)) as [e|]; [|by left].
    destruct (z_opens e); [|by left].
    destruct (openStreams s !! to_int random) eqn:Hfree; [by left|].
    simpl. destruct (decide (to_int random = handle)) as [->|Hne].
    + rewrite lookup_insert_eq. intros [= <-]. right. split; [|done].
      unfold backed. simpl. rewrite Htype. by eexists.
    + rewrite lookup_insert_ne by done. by left.
Qed.

(** A read leaves each stream backed and with the record it had. *)
Lemma readDataHandle_backed s handle size other streamRecord :
  (∀ h sr, openStreams s !! h = Some sr → backed sr) →
  openStreams (readDataHandle s handle size).2 !! other = Some streamRecord →
  backed streamRecord ∧
  ∃ before, openStreams s !! other = Some before ∧
            fileRecord streamRecord = fileRecord before.
Proof.
  intros Hall. unfold readDataHandle, getStreamRecord.
  destruct (openStreams s !! handle) as [sr|] eqn:Hsr;
    [|intros Hother; split; [by apply (Hall other)|by eexists]].
  pose proof (Hall handle sr Hsr) as Hbacked. unfold backed in Hbacked.
  destruct (fileType (fileRecord sr)) eqn:Htype.
  - destruct Hbacked as (f & Hfile & Hf). rewrite Hfile. simpl.
    destruct (decide (handle = other)) as [->|Hne].
    + rewrite lookup_insert_eq. intros [= <-]. split; [|by eexists].
      unfold backed. simpl. rewrite Htype. eexists. split; [done|].
      simpl. pose proof (len_nonneg
                           (read_upto (to_size_t size)
                              (drop (Z.to_nat (Z.min (Z.max 0 (f_offset f))
                                                 (len (f_content f))))
                                 (f_content f)))). lia.
    + rewrite lookup_insert_ne by done.
      intros Hother; split; [by apply (Hall other)|by eexists].
  - destruct Hbacked as [z Hzip]. rewrite Hzip. simpl.
    destruct (decide (handle = other)) as [->|Hne].
    + rewrite lookup_insert_eq. intros [= <-]. split; [|by eexists].
      unfold backed. simpl. rewrite Htype. by eexists.
    + rewrite lookup_insert_ne by done.
      intros Hother; split; [by apply (Hall other)|by eexists].
  - destruct Hbacked as [z Hzip]. rewrite Hzip. simpl.
    destruct (decide (handle = other)) as [->|Hne].
    + rewrite lookup_insert_eq. intros [= <-]. split; [|by eexists].
      unfold backed. simpl. rewrite Htype. by eexists.
    + rewrite lookup_insert_ne by done.
      intros Hother; split; [by apply (Hall other)|by eexists].
Qed.

Lemma seek_backed s handle offset whence other streamRecord :
  (∀ h sr, openStreams s !! h = Some sr → backed sr) →
  openStreams (seek s handle offset whence).2 !! other = Some streamRecord →
  backed streamRecord ∧
  ∃ before, openStreams s !! other = Some before ∧
            fileRecord streamRecord = fileRecord before.
Proof.
  intros Hall. unfold seek, getStreamRecord.
  destruct (openStreams s !! handle) as [sr|] eqn:Hsr;
    [|intros Hother; split; [by apply (Hall other)|by eexists]].
  pose proof (Hall handle sr Hsr) as Hbacked. unfold backed in Hbacked.
  destruct (fileType (fileRecord sr)) eqn:Htype;
    try (intros Hother; split; [by apply (Hall other)|by eexists]).
  destruct Hbacked as (f & Hfile & Hf). rewrite Hfile.
  destruct (fseek f offset whence) as [ret f'] eqn:Hseek. simpl.
  destruct (decide (handle = other)) as [->|Hne].
  - rewrite lookup_insert_eq. intros [= <-]. split; [|by eexists].
    unfold backed. simpl. rewrite Htype. exists f'. split; [done|].
    unfold fseek in Hseek.
    destruct (if whence =? 0 then Some offset
              else if whence =? 1 then Some (f_offset f + offset)
              else if whence =? 2 then Some (len (f_content f) + offset)
              else None) as [t|]; [|by injection Hseek as _ <-].
    destruct (t <? 0) eqn:Ht; injection Hseek as _ <-; [done|].
    simpl. lia.
  - rewrite lookup_insert_ne by done.
    intros Hother; split; [by apply (Hall other)|by eexists].
Qed.

Lemma session_call_keeps s0 s s' :
  session_call s s' →
  filenameToRecordMap s = filenameToRecordMap s0 ∧
  (∀ h sr, openStreams s !! h = Some sr →
           backed sr ∧ ∃ key, stored s0 key (fileRecord sr)) →
  filenameToRecordMap s' = filenameToRecordMap s0 ∧
  (∀ h sr, openStreams s' !! h = Some sr →
           backed sr ∧ ∃ key, stored s0 key (fileRecord sr)).
Proof.
  intros Hcall [Hstore Hall].
  assert (∀ h sr, openStreams s !! h = Some sr → backed sr) as Hbacked
    by (intros h sr Hsr; by apply (Hall h)).
  destruct Hcall
    as [b s|l folder s|l s|c folder s|c s|c s|b s|root s
       |w random name s|s handle size Hsize|s handle
       |s handle offset whence];
    try (split; [exact Hstore|exact Hall]).
  - split.
    { by destruct (getStream_frame w random s name)
        as [->|(sr & _ & _ & _ & ->)]. }
    intros h sr [Hold|[Hnew Hfind]]%getStream_files; [by apply (Hall h)|].
    split; [done|].
    apply findFileRecord_found in Hfind as [_ (root & _ & Hst)].
    eexists. unfold stored in *. rewrite <- Hstore. exact Hst.
  - split.
    { by destruct (readDataHandle_frame s handle size)
        as [->|(old & new & _ & _ & ->)]. }
    intros h sr Hsr.
    destruct (readDataHandle_backed s handle size h sr Hbacked Hsr)
      as (Hb & before & Hbefore & ->).
    split; [done|]. by apply (Hall h before).
  - split.
    { by destruct (closeFile_frame s handle) as [->|(old & _ & ->)]. }
    destruct (closeFile_frame s handle) as [->|(old & _ & ->)]; [done|].
    intros h sr. simpl. intros [_ Hsr]%lookup_delete_Some. by apply (Hall h).
  - split.
    { by destruct (seek_frame s handle offset whence)
        as [->|(old & new & _ & _ & ->)]. }
    intros h sr Hsr.
    destruct (seek_backed s handle offset whence h sr Hbacked Hsr)
      as (Hb & before & Hbefore & ->).
    split; [done|]. by apply (Hall h before).
Qed.

(** X29.  From a manager with no stream open, through calls that
    configure it and calls on streams, with no [reset] and no indexing
    call among them, the record store stays as it was, and each stream
    in the table has its backend open and refers to a record that is in
    the store: the stream of a regular file holds its [FILE] at an
    offset that is not negative, the stream of an archive entry holds
    its archive.  So [closeFile] on an open handle has something to
    release. *)
Theorem open_streams_are_backed (s0 s : Impl) (handle : Z)
    (streamRecord : StreamRecord) :
  openStreams s0 = ∅ →
  session s0 s →
  openStreams s !! handle = Some streamRecord →
  filenameToRecordMap s = filenameToRecordMap s0 ∧
  backed streamRecord ∧
  (∃ key, stored s key (fileRecord streamRecord)) ∧
  (closeFile s handle).2 ≠ [].
Proof.
  intros Hnone Hsession Hsr.
  assert (filenameToRecordMap s = filenameToRecordMap s0 ∧
          (∀ h sr, openStreams s !! h = Some sr →
                   backed sr ∧ ∃ key, stored s0 key (fileRecord sr)))
    as [Hstore Hall].
  { clear handle streamRecord Hsr.
    induction Hsession as [s|s s' s'' _ IH Hcall].
    - split; [done|]. intros h sr. by rewrite Hnone, lookup_empty.
    - by apply (session_call_keeps s s' s'' Hcall), IH. }
  destruct (Hall handle streamRecord Hsr) as [Hbacked [key Hkey]].
  split; [exact Hstore|]. split; [exact Hbacked|].
  split; [exists key; unfold stored in *; by rewrite Hstore|].
  unfold closeFile, getStreamRecord. rewrite Hsr. simpl.
  unfold backed in Hbacked.
  destruct (fileType (fileRecord streamRecord)).
  - by destruct Hbacked as (f & -> & _).
  - by destruct Hbacked as [z ->].
  - by destruct Hbacked as [z ->].
Qed.
End StreamInvariant.

(** ** The earlier revision *)

Section LegacyProperties.
Context `{ABI}.
Import PathFacts WalkFacts.

Lemma legacy_basename_from s :
  backslash_free s = true →
  ∀ acc, Legacy.basename_from acc s = basename_from acc s.
Proof.
  induction s as [|c s IH]; simpl; [done|].
  intros [Hc Hs]%andb_prop acc. apply negb_true_iff in Hc.
  unfold is_sep. rewrite Hc, orb_false_r.
  destruct (Ascii.eqb c "/"); by apply IH.
Qed.

(** X26.  For a name without '\' the earlier revision makes the key the
    current one makes with keys by base name: the lower-case text
    behind the last '/'. *)
Theorem legacy_key_is_base_name_key (s : Impl) (name : string) :
  backslash_free name = true →
  searchByRelativePaths s = false →
  Legacy.getFilenameId name = makeKey s name.
Proof.
  intros Hname Hmode. rewrite (makeKey_basename_mode s name Hmode).
  unfold Legacy.getFilenameId, Legacy.basename, basename.
  by rewrite legacy_basename_from.
Qed.

Lemma legacy_first_generic records :
  Legacy.first_generic records
  = head (List.filter (λ r, String.eqb (Legacy.languageId r) "") records).
Proof.
  induction records as [|r records IH]; simpl; [done|].
  by destruct (String.eqb (Legacy.languageId r) "").
Qed.

Lemma legacy_first_of_language language records :
  ∀ fallback,
    Legacy.first_of_language language records fallback
    = match head (List.filter
                    (λ r, String.eqb (Legacy.languageId r) language) records)
      with
      | Some r => Some r
      | None =>
          match last (List.filter
                        (λ r, String.eqb (Legacy.languageId r) "") records)
          with
          | Some r => Some r
          | None => fallback
          end
      end.
Proof.
  induction records as [|r records IH]; intros fallback; simpl; [done|].
  destruct (String.eqb (Legacy.languageId r) language); [done|].
  rewrite IH.
  destruct (head (List.filter _ records)); [done|].
  destruct (String.eqb (Legacy.languageId r) ""); [|done].
  rewrite last_cons. by destruct (last (List.filter _ records)).
Qed.

(** X27.  [findFileRecord] of the earlier revision: with no current
    language it returns the first record of no language stored under
    the key; with a current language the first record of that language,
    and when there is none, the last record of no language. *)
Theorem legacy_findFileRecord_falls_back (s : Legacy.Impl) (name : string)
    (records : list Legacy.FileRecord) :
  Legacy.filenameToRecordMap s !! Legacy.getFilenameId name = Some records →
  let generic :=
    List.filter (λ r, String.eqb (Legacy.languageId r) "") records in
  let specific :=
    List.filter
      (λ r, String.eqb (Legacy.languageId r) (Legacy.currentLanguageId s))
      records in
  Legacy.findFileRecord s name
  = if String.eqb (Legacy.currentLanguageId s) "" then head generic
    else match head specific with
         | Some r => Some r
         | None => last generic
         end.
Proof.
  intros Hlook. simpl. unfold Legacy.findFileRecord. rewrite Hlook.
  destruct (String.eqb (Legacy.currentLanguageId s) "").
  - apply legacy_first_generic.
  - rewrite legacy_first_of_language.
    destruct (head (List.filter _ records)); [done|].
    by destruct (last (List.filter _ records)).
Qed.

Lemma legacy_store_push_keeps m e key (r : Legacy.FileRecord) :
  r ∈ default [] (m !! key) → r ∈ default [] (Legacy.store_push m e !! key).
Proof.
  intros Hr. unfold Legacy.store_push.
  destruct (decide (e.1 = key)) as [<-|Hne].
  - rewrite lookup_insert_eq. simpl. apply elem_of_app. by left.
  - by rewrite lookup_insert_ne.
Qed.

Lemma legacy_fold_store_push_keeps l :
  ∀ m key (r : Legacy.FileRecord),
    r ∈ default [] (m !! key) →
    r ∈ default [] (fold_left Legacy.store_push l m !! key).
Proof.
  induction l as [|e l IH]; intros m key r Hr; [done|].
  simpl. by apply IH, legacy_store_push_keeps.
Qed.

Lemma legacy_fold_store_push_adds l :
  ∀ m key (r : Legacy.FileRecord),
    (key, r) ∈ l →
    r ∈ default [] (fold_left Legacy.store_push l m !! key).
Proof.
  induction l as [|e l IH]; intros m key r Hin.
  - by apply elem_of_nil in Hin.
  - simpl. apply elem_of_cons in Hin as [<-|Hin].
    + apply legacy_fold_store_push_keeps. unfold Legacy.store_push. simpl.
      rewrite lookup_insert_eq. simpl. apply elem_of_app. right.
      by apply list_elem_of_singleton.
    + by apply IH.
Qed.

Lemma legacy_fold_store_push_origin l :
  ∀ m key (r : Legacy.FileRecord),
    r ∈ default [] (fold_left Legacy.store_push l m !! key) →
    r ∈ default [] (m !! key) ∨ (key, r) ∈ l.
Proof.
  induction l as [|e l IH]; intros m key r Hr; [by left|].
  simpl in Hr. apply IH in Hr as [Hr|Hr]; [|right; by right].
  unfold Legacy.store_push in Hr.
  destruct (decide (e.1 = key)) as [<-|Hne].
  - rewrite lookup_insert_eq in Hr. simpl in Hr.
    apply elem_of_app in Hr as [Hr|Hr]; [by left|].
    apply list_elem_of_singleton in Hr as ->. right. destruct e. by left.
  - rewrite lookup_insert_ne in Hr by done. by left.
Qed.

Section LegacyWalk.
Variables (s : Legacy.Impl) (rootFolder : string).

Lemma legacy_addFolderEntry_spec ep :
  ∀ pre m,
    Legacy.addFolderEntry rootFolder (combine pre) ep (Legacy.with_records m s)
    = Legacy.with_records
        (fold_left Legacy.store_push
           (map (legacy_indexed s rootFolder pre) (visited_entry ep)) m) s.
Proof.
  induction ep as [d_name st|d_name|d_name entries IH]
    using dirent_tree_ind; intros pre m; simpl.
  - destruct (hidden d_name); [done|]. simpl.
    unfold Legacy.push_back. simpl. by rewrite app_nil_r.
  - by destruct (hidden d_name).
  - destruct (hidden d_name); [done|].
    rewrite map_map.
    rewrite (map_ext _ (legacy_indexed s rootFolder (pre ++ [d_name]))).
    2:{ intros [[dirs name] st]. unfold legacy_indexed. simpl.
        by rewrite <- !(app_assoc pre [d_name]). }
    rewrite combine_nested.
    revert m. induction IH as [|ep entries Hep _ IHentries]; intros m;
      [done|]. simpl.
    by rewrite Hep, IHentries, map_app, fold_left_app.
Qed.

End LegacyWalk.

Lemma legacy_addRootFolder_spec w rootFolder s :
  Legacy.filenameToRecordMap (Legacy.addRootFolder rootFolder w s)
  = fold_left Legacy.store_push
      (map (legacy_indexed s rootFolder []) (visited (opendir w rootFolder)))
      (Legacy.filenameToRecordMap s).
Proof.
  unfold Legacy.addRootFolder. rewrite combine_root.
  set (s1 := {| Legacy.rootFoldersList := _ |}).
  assert (∀ entries m,
            fold_left (λ s' ep, Legacy.addFolderEntry rootFolder "" ep s')
              entries (Legacy.with_records m s1)
            = Legacy.with_records
                (fold_left Legacy.store_push
                   (map (legacy_indexed s1 rootFolder [])
                        (concat (map visited_entry entries))) m) s1)
    as Hwalk.
  { induction entries as [|ep entries IH]; intros m; [done|]. simpl.
    rewrite map_app, fold_left_app, <- IH. f_equal.
    apply (legacy_addFolderEntry_spec s1 rootFolder ep [] m). }
  destruct (opendir w rootFolder) as [entries|]; [|done]. simpl.
  change s1 with (Legacy.with_records (Legacy.filenameToRecordMap s) s1) at 1.
  rewrite Hwalk. done.
Qed.

(** X28.  [addRootFolder] of the earlier revision stores, for every
    file the walk visits, a record under the lower-case name of the
    file; its language is the one registered for exactly the folder the
    file lies in, so the folders below a language folder do not share
    its language.  Records stored before stay, and every record added
    is that of a visited file. *)
Theorem legacy_walk_takes_language_of_own_folder (w : World)
    (rootFolder : string) (s : Legacy.Impl) :
  let s' := Legacy.addRootFolder rootFolder w s in
  (∀ dirs name st,
     (dirs, name, st) ∈ visited (opendir w rootFolder) →
     ∃ records r,
       Legacy.filenameToRecordMap s' !! Legacy.getFilenameId name
       = Some records ∧
       r ∈ records ∧
       Legacy.filename r = name ∧
       Legacy.filePath r = combine [rootFolder; combine dirs; name] ∧
       Legacy.languageId r
       = default ""
           (Legacy.relativeFolderToLanguageIdMap s !! combine dirs)) ∧
  (∀ key r,
     r ∈ default [] (Legacy.filenameToRecordMap s' !! key) ↔
     r ∈ default [] (Legacy.filenameToRecordMap s !! key) ∨
     ∃ v, v ∈ visited (opendir w rootFolder) ∧
          (key, r) = legacy_indexed s rootFolder [] v).
Proof.
  simpl. split.
  - intros dirs name st Hv.
    pose proof (legacy_fold_store_push_adds
                  (map (legacy_indexed s rootFolder [])
                     (visited (opendir w rootFolder)))
                  (Legacy.filenameToRecordMap s)
                  (legacy_indexed s rootFolder [] (dirs, name, st)).1
                  (legacy_indexed s rootFolder [] (dirs, name, st)).2)
      as Hadds.
    rewrite <- legacy_addRootFolder_spec in Hadds. simpl in Hadds.
    destruct (Legacy.filenameToRecordMap
                (Legacy.addRootFolder rootFolder w s)
                !! Legacy.getFilenameId name) as [records|].
    + eexists records, _. split; [done|].
      (split; [|split; [|split]]);
        [apply Hadds;
         by apply (list_elem_of_fmap_2 (legacy_indexed s rootFolder [])
                     _ (dirs, name, st))
        |reflexivity..].
    + exfalso. eapply elem_of_nil, Hadds.
      by apply (list_elem_of_fmap_2 (legacy_indexed s rootFolder [])
                  _ (dirs, name, st)).
  - intros key r. rewrite legacy_addRootFolder_spec. split.
    + intros [Hold|Hnew]%legacy_fold_store_push_origin; [by left|right].
      apply list_elem_of_fmap in Hnew as (v & Hkr & Hv). by exists v.
    + intros [Hold|(v & Hv & Hkr)].
      * by apply legacy_fold_store_push_keeps.
      * apply legacy_fold_store_push_adds. rewrite Hkr.
        by apply list_elem_of_fmap_2.
Qed.
End LegacyProperties.

Lemma readDataFromCompressedFile_closes_only_on_return_witness :
  (readDataFromCompressedFile (H := LP64) Scene.world Scene.packed 3).2
  = [EvUnzOpen "twice.zip"; EvUnzOpenCurrentFile "twice.zip";
     EvUnzCloseCurrentFile "twice.zip"; EvUnzClose "twice.zip"].
Proof.
  eapply (proj1 (readDataFromCompressedFile_closes_only_on_return
                   (H := LP64) Scene.world Scene.packed 3)).
  vm_compute. reflexivity.
Defined.

Lemma readData_stores_at_most_size_witness :
  4 = len (take 4 Scene.hd_content) ∧ len (take 4 Scene.hd_content) ≤ 4.
Proof.
  apply (readData_stores_at_most_size (H := LP64) Scene.world
           Scene.indexed_state "Sprite.png" 4 4 (take 4 Scene.hd_content)
           [EvFopen "root/HD/Sprite.png"; EvFclose "root/HD/Sprite.png"]).
  - by vm_compute.
  - lia.
  - vm_compute. reflexivity.
Defined.

Lemma readDataOwned_returns_recorded_size_witness :
  ∃ fileRecord bytes,
    findFileRecord Scene.indexed_state "Sprite.png" = Some fileRecord ∧
    Some Scene.hd_content = Some bytes ∧ 10 = len bytes ∧
    10 = getSize Scene.indexed_state "Sprite.png" ∧
    exists_ Scene.indexed_state "Sprite.png" = true ∧
    operator_new Scene.world 10 = true ∧
    (10 < 2 ^ 31 →
     match fileType fileRecord with
     | RegularFile =>
         bytes = take (Z.to_nat 10)
                   (default [] (fopen Scene.world (filePath fileRecord)))
     | CompressedFile =>
         ∃ entries e,
           unzOpen Scene.world (zipFilePath fileRecord) = Some entries ∧
           unzGoToFilePos entries (zipFilePos fileRecord) = Some e ∧
           z_opens e = true ∧
           bytes = take (Z.to_nat 10) (z_data e)
     | StoredFile => bytes = []
     end).
Proof.
  destruct (readDataOwned_returns_recorded_size (H := LP64) Scene.world
              Scene.indexed_state "Sprite.png" (Some Scene.hd_content) 10
              [EvNew 10; EvFopen "root/HD/Sprite.png";
               EvFclose "root/HD/Sprite.png"])
    as [(Hnone & _)|Hsome].
  - by vm_compute.
  - vm_compute. reflexivity.
  - discriminate Hnone.
  - exact Hsome.
Defined.

Lemma successive_reads_continue_witness :
  concat (read_chunks (H := LP64) Scene.streaming 77 [3; 4])
  = take 7 (remaining Scene.hd_stream).
Proof.
  apply (successive_reads_continue (H := LP64) [3; 4] Scene.streaming 77
           Scene.hd_stream).
  - by vm_compute.
  - repeat constructor; lia.
  - vm_compute. reflexivity.
  - eexists. split; [reflexivity|]. simpl. lia.
Defined.

Lemma two_streams_reachable : reachable (H := LP64) Scene.two_streams.
Proof.
  eapply reachable_step;
    [apply streaming_reachable
    |apply (step_getStream Scene.world 78 "Sprite.png")].
Qed.

(** X23, with the streams 77 and 78 open on one file: a read and a
    close on 77 leave the stream 78 as it is. *)
Lemma streams_do_not_interfere_witness :
  openStreams Scene.two_streams !! 77 = Some Scene.hd_stream ∧
  is_Some (openStreams Scene.two_streams !! 78) ∧
  openStreams (readDataHandle (H := LP64) Scene.two_streams 77 4).2 !! 78
  = openStreams Scene.two_streams !! 78 ∧
  openStreams (closeFile Scene.two_streams 77).1.2 !! 78
  = openStreams Scene.two_streams !! 78.
Proof.
  split; [vm_compute; reflexivity|].
  split; [eexists; vm_compute; reflexivity|].
  destruct (streams_do_not_interfere (H := LP64) Scene.two_streams 77 78)
    as (Hread & _ & Hclose & _).
  - apply (ReachableFacts.reachable_well_formed (H := LP64)),
      two_streams_reachable.
  - lia.
  - split; [apply Hread|exact Hclose].
Defined.

Lemma seek_sets_the_position_witness :
  tell (seek Scene.streaming 77 4 0).2 77 = Returns 4.
Proof.
  destruct (seek_sets_the_position Scene.streaming 77 4 Scene.hd_stream
              {| f_path := "root/HD/Sprite.png";
                 f_content := Scene.hd_content;
                 f_offset := 0 |}) as [Hseek _].
  - vm_compute. reflexivity.
  - reflexivity.
  - reflexivity.
  - apply Hseek. lia.
Defined.

Lemma getStream_closeFile_round_trip_witness :
  (closeFile (read_all (H := LP64) Scene.streaming 77 [3; 4]) 77).1.2
  = Scene.indexed_state.
Proof.
  apply (getStream_closeFile_round_trip (H := LP64) Scene.world 77
           Scene.indexed_state "Sprite.png" 77 [3; 4]).
  vm_compute. reflexivity.
Defined.

Lemma legacy_key_is_base_name_key_witness :
  Legacy.getFilenameId "Dir/A.PNG" = makeKey constructed "Dir/A.PNG".
Proof.
  apply (legacy_key_is_base_name_key constructed "Dir/A.PNG"); reflexivity.
Defined.

Lemma legacy_findFileRecord_falls_back_witness :
  let s := Legacy.setCurrentLanguage "de"
             (Legacy.addRootFolder (H := LP64) "root" Scene.world
                Scene.legacy) in
  let records := default [] (Legacy.filenameToRecordMap s !! "x.png") in
  Legacy.findFileRecord s "x.png"
  = if String.eqb (Legacy.currentLanguageId s) ""
    then head (List.filter
                 (λ r, String.eqb (Legacy.languageId r) "") records)
    else match head (List.filter
                       (λ r, String.eqb (Legacy.languageId r)
                               (Legacy.currentLanguageId s)) records) with
         | Some r => Some r
         | None => last (List.filter
                           (λ r, String.eqb (Legacy.languageId r) "") records)
         end.
Proof.
  intros s records.
  apply (legacy_findFileRecord_falls_back s "x.png" records).
  vm_compute. reflexivity.
Defined.

Lemma legacy_walk_takes_language_of_own_folder_witness :
  ∃ records r,
    Legacy.filenameToRecordMap
      (Legacy.addRootFolder (H := LP64) "root" Scene.world Scene.legacy)
      !! Legacy.getFilenameId "x.png" = Some records ∧
    r ∈ records ∧
    Legacy.filename r = "x.png" ∧
    Legacy.filePath r = combine ["root"; combine ["HD"; "en"]; "x.png"] ∧
    Legacy.languageId r
    = default ""
        (Legacy.relativeFolderToLanguageIdMap Scene.legacy
           !! combine ["HD"; "en"]).
Proof.
  apply (proj1 (legacy_walk_takes_language_of_own_folder (H := LP64)
                  Scene.world "root" Scene.legacy)
           ["HD"; "en"] "x.png" (Some 3)).
  vm_compute. repeat constructor.
Defined.

(** X29, on the installation: the stream 77 is opened and four bytes
    are read from it. *)
Lemma open_streams_are_backed_witness :
  backed
    {| fileRecord := Scene.sprite_hd;
       randomValue := 77;
       file := Some {| f_path := "root/HD/Sprite.png";
                       f_content := Scene.hd_content;
                       f_offset := 4 |};
       zipFile := None |} ∧
  (∃ key, stored (readDataHandle (H := LP64) Scene.streaming 77 4).2 key
            Scene.sprite_hd) ∧
  (closeFile (readDataHandle (H := LP64) Scene.streaming 77 4).2 77).2 ≠ [].
Proof.
  destruct (open_streams_are_backed (H := LP64) Scene.indexed_state
              (readDataHandle (H := LP64) Scene.streaming 77 4).2 77
              {| fileRecord := Scene.sprite_hd;
                 randomValue := 77;
                 file := Some {| f_path := "root/HD/Sprite.png";
                                 f_content := Scene.hd_content;
                                 f_offset := 4 |};
                 zipFile := None |}) as (_ & Hrest).
  - reflexivity.
  - eapply session_next; [|apply session_readData; lia].
    eapply session_next;
      [apply session_start
      |apply (session_getStream Scene.world 77 "Sprite.png")].
  - vm_compute. reflexivity.
  - exact Hrest.
Defined.
